(** * QubesDB configuration transfer for KVM guests

    A shallow embedding of the two scripts of the repository

    - [scripts/qubesdb-config-inject.py]: the host-side Sender, and
    - [scripts/qubesdb-config-read.py]: the guest-side Receiver and its cache,

    together with the properties of the framing protocol, of the
    read-or-fallback cycle and of the on-disk cache, and further properties
    of the query modes, of the two loops of the read, and of the failures
    that neither script catches.

    Conventions of the embedding.

    - A Python [str] is a list of Unicode code points ([N]); a Python [bytes]
      object is a list of [Byte.byte].
    - A Python [dict] is an association list in insertion order, with
      unique keys: assigning to a key that is present replaces its value in
      place, assigning to a new key appends it.
    - Effects (clock, device, file system, output streams, exceptions) are
      threaded through an explicit world by a small state-and-exception
      monad.
    - Time is counted in milliseconds.  Only [time.sleep] and the reads of
      the device take time.
    - The device is a script: the results of the [f.read(4096)] calls to
      come; once the script is exhausted every read returns no byte.
    - The aggregate document is kept as the dictionary it serialises:
      [json.load] returns the dictionary [json.dump] was given.  This holds
      of every dictionary of strings in which no high surrogate is directly
      followed by a low one; the strings that the read yields have no
      surrogate at all.
    - The locale is a UTF-8 one, or the C locale, in which the interpreter
      runs in its UTF-8 mode.  So a file opened in text mode is encoded and
      decoded as UTF-8, strictly; a file name is encoded with the
      file-system encoding, UTF-8 with the handler [surrogateescape]; the
      standard output encodes as UTF-8 with the handler the interpreter
      gave it, [strict] or [surrogateescape], which is part of the world of
      the guest; and the error stream has the handler [backslashreplace],
      so that printing there never fails.
    - The cache directory can be created and written; the only failures of
      [open] for writing are those that the file name itself causes.
    - What the scripts print is recorded message by message, one constructor
      per format string, not as formatted text.
    - The socket path given to the Sender is text that its standard output
      encodes. *)

From Stdlib Require Import ZArith NArith List Lia Bool Sorted Permutation.
From stdpp Require Import base list gmap strings.

Local Open Scope N_scope.

(** ** Python strings *)

Module Py.

Abbreviation str := (list N).
Abbreviation bytes := (list Byte.byte).

(** An ASCII literal as a [str] and as a [bytes] object. *)
Definition b (s : string) : bytes := String.list_byte_of_string s.
Definition u (s : string) : str := map Byte.to_N (b s).

Definition LF : N := 10.
Definition CR : N := 13.
Definition EQUALS : N := 61.
Definition SLASH : N := 47.
Definition UNDERSCORE : N := 95.

(** [str.isspace] on one code point: the characters [str.strip] removes. *)
Definition is_space (c : N) : bool :=
  ((9 <=? c) && (c <=? 13)) || ((28 <=? c) && (c <=? 32))
  || (c =? 133) || (c =? 160) || (c =? 5760)
  || ((8192 <=? c) && (c <=? 8202))
  || (c =? 8232) || (c =? 8233) || (c =? 8239) || (c =? 8287) || (c =? 12288).

(** The line boundaries of [str.splitlines]. *)
Definition is_linebreak (c : N) : bool :=
  ((10 <=? c) && (c <=? 13)) || ((28 <=? c) && (c <=? 30))
  || (c =? 133) || (c =? 8232) || (c =? 8233).

Fixpoint dropwhile {A} (p : A -> bool) (l : list A) : list A :=
  match l with
  | [] => []
  | x :: l' => if p x then dropwhile p l' else l
  end.

Definition lstrip_chars (p : N -> bool) (s : str) : str := dropwhile p s.
Definition rstrip_chars (p : N -> bool) (s : str) : str :=
  rev (dropwhile p (rev s)).

(** [s.strip()] *)
Definition strip (s : str) : str := rstrip_chars is_space (lstrip_chars is_space s).

(** [s.splitlines()]: [cur] is the line being scanned.  A carriage return
    directly followed by a line feed is one boundary; a text that ends with a
    boundary has no empty last line. *)
Fixpoint splitlines_from (cur : str) (s : str) : list str :=
  match s with
  | [] => match cur with [] => [] | _ => [cur] end
  | c :: rest =>
      if is_linebreak c then
        match rest with
        | c' :: rest' =>
            if (c =? CR) && (c' =? LF)
            then cur :: splitlines_from [] rest'
            else cur :: splitlines_from [] rest
        | [] => cur :: splitlines_from [] rest
        end
      else splitlines_from (cur ++ [c]) rest
  end.

Definition splitlines (s : str) : list str := splitlines_from [] s.

(** [c in s] for a one-character [c]. *)
Definition contains_char (c : N) (s : str) : bool := existsb (N.eqb c) s.

(** [s.split(c, 1)] when [c] occurs in [s]: the text before the first
    occurrence and the text after it. *)
Fixpoint split_first (c : N) (s : str) : str * str :=
  match s with
  | [] => ([], [])
  | x :: s' =>
      if x =? c then ([], s')
      else let '(k, v) := split_first c s' in (x :: k, v)
  end.

(** [s.replace(a, b)] for one-character [a] and [b]. *)
Definition replace_char (a c : N) (s : str) : str :=
  map (fun x => if x =? a then c else x) s.

Definition str_eqb (s t : str) : bool := bool_decide (s = t).

(** *** Python dictionaries with string keys *)

Abbreviation dict := (list (str * str)).

(** [d[k] = v] *)
Fixpoint dict_set (k v : str) (d : dict) : dict :=
  match d with
  | [] => [(k, v)]
  | (k', v') :: d' =>
      if str_eqb k' k then (k, v) :: d' else (k', v') :: dict_set k v d'
  end.

(** [d.get(k)] *)
Fixpoint dict_get (k : str) (d : dict) : option str :=
  match d with
  | [] => None
  | (k', v') :: d' => if str_eqb k' k then Some v' else dict_get k d'
  end.

Definition keys (d : dict) : list str := map fst d.

(** Truth value of a dictionary: non-empty. *)
Definition truthy (d : dict) : bool :=
  match d with [] => false | _ => true end.

(** *** The UTF-8 codec *)

Definition REPLACEMENT : N := 65533.

Definition is_cont (x : N) : bool := (128 <=? x) && (x <=? 191).

(** Second byte of a three-byte sequence: a continuation byte, not an
    overlong form after [0xE0], not a surrogate after [0xED]. *)
Definition second_of_3 (c0 c1 : N) : bool :=
  is_cont c1 && negb ((c0 =? 224) && (c1 <? 160))
             && negb ((c0 =? 237) && (160 <=? c1)).

(** Second byte of a four-byte sequence: a continuation byte, not an
    overlong form after [0xF0], not above U+10FFFF after [0xF4]. *)
Definition second_of_4 (c0 c1 : N) : bool :=
  is_cont c1 && negb ((c0 =? 240) && (c1 <? 144))
             && negb ((c0 =? 244) && (144 <=? c1)).

(** [data.decode("utf-8", errors="replace")]: every maximal ill-formed
    subsequence becomes one U+FFFD, a sequence cut off by the end of the
    data becomes one U+FFFD. *)
Fixpoint utf8_decode (bs : bytes) : str :=
  match bs with
  | [] => []
  | b0 :: r0 =>
      let c0 := Byte.to_N b0 in
      if c0 <? 128 then c0 :: utf8_decode r0
      else if c0 <? 194 then REPLACEMENT :: utf8_decode r0
      else if c0 <? 224 then
        match r0 with
        | [] => [REPLACEMENT]
        | b1 :: r1 =>
            let c1 := Byte.to_N b1 in
            if is_cont c1
            then ((c0 - 192) * 64 + (c1 - 128)) :: utf8_decode r1
            else REPLACEMENT :: utf8_decode r0
        end
      else if c0 <? 240 then
        match r0 with
        | [] => [REPLACEMENT]
        | b1 :: r1 =>
            let c1 := Byte.to_N b1 in
            if second_of_3 c0 c1 then
              match r1 with
              | [] => [REPLACEMENT]
              | b2 :: r2 =>
                  let c2 := Byte.to_N b2 in
                  if is_cont c2
                  then ((c0 - 224) * 4096 + (c1 - 128) * 64 + (c2 - 128))
                         :: utf8_decode r2
                  else REPLACEMENT :: utf8_decode r1
              end
            else REPLACEMENT :: utf8_decode r0
        end
      else if c0 <? 245 then
        match r0 with
        | [] => [REPLACEMENT]
        | b1 :: r1 =>
            let c1 := Byte.to_N b1 in
            if second_of_4 c0 c1 then
              match r1 with
              | [] => [REPLACEMENT]
              | b2 :: r2 =>
                  let c2 := Byte.to_N b2 in
                  if is_cont c2 then
                    match r2 with
                    | [] => [REPLACEMENT]
                    | b3 :: r3 =>
                        let c3 := Byte.to_N b3 in
                        if is_cont c3
                        then ((c0 - 240) * 262144 + (c1 - 128) * 4096
                              + (c2 - 128) * 64 + (c3 - 128))
                               :: utf8_decode r3
                        else REPLACEMENT :: utf8_decode r2
                    end
                  else REPLACEMENT :: utf8_decode r1
              end
            else REPLACEMENT :: utf8_decode r0
        end
      else REPLACEMENT :: utf8_decode r0
  end.

Definition byte_of (n : N) : Byte.byte :=
  match Byte.of_N n with Some x => x | None => Byte.x00 end.

(** The UTF-8 form of one code point; surrogates and values above
    U+10FFFF have none ([UnicodeEncodeError]). *)
Definition encode_char (c : N) : option bytes :=
  if c <? 128 then Some [byte_of c]
  else if c <? 2048 then
    Some [byte_of (192 + c / 64); byte_of (128 + c mod 64)]
  else if c <? 65536 then
    if (55296 <=? c) && (c <=? 57343) then None
    else Some [byte_of (224 + c / 4096); byte_of (128 + (c / 64) mod 64);
               byte_of (128 + c mod 64)]
  else if c <? 1114112 then
    Some [byte_of (240 + c / 262144); byte_of (128 + (c / 4096) mod 64);
          byte_of (128 + (c / 64) mod 64); byte_of (128 + c mod 64)]
  else None.

(** [s.encode()] *)
Fixpoint utf8_encode (s : str) : option bytes :=
  match s with
  | [] => Some []
  | c :: s' =>
      match encode_char c, utf8_encode s' with
      | Some bs, Some rest => Some (bs ++ rest)
      | _, _ => None
      end
  end.

Fixpoint bytes_eqb (x y : bytes) : bool :=
  match x, y with
  | [], [] => true
  | a :: x', c :: y' => Byte.eqb a c && bytes_eqb x' y'
  | _, _ => false
  end.

(** [data.decode()], strict: the text of well-formed data, and no text
    ([UnicodeDecodeError]) otherwise.  Data is well-formed exactly when the
    lenient decoder replaced nothing, that is, when its result encodes back
    to the data. *)
Definition utf8_decode_strict (bs : bytes) : option str :=
  let s := utf8_decode bs in
  match utf8_encode s with
  | Some bs' => if bytes_eqb bs' bs then Some s else None
  | None => None
  end.

(** *** Error handlers, and the encoding of file names *)

(** The error handlers of the encoders that matter here. *)
Inductive error_handler :=
| Strict
| SurrogateEscape.

(** A surrogate that stands for one byte from 0x80 to 0xFF: U+DC80 to
    U+DCFF. *)
Definition is_escape (c : N) : bool := (56448 <=? c) && (c <=? 56575).

(** [s.encode("utf-8", errors)] for the two handlers: [surrogateescape]
    turns an escape back into its byte, and like [strict] refuses every
    other code point that has no UTF-8 form. *)
Definition encode_char_with (h : error_handler) (c : N) : option bytes :=
  match encode_char c with
  | Some bs => Some bs
  | None =>
      match h with
      | SurrogateEscape => if is_escape c then Some [byte_of (c - 56320)] else None
      | Strict => None
      end
  end.

Fixpoint encode_with (h : error_handler) (s : str) : option bytes :=
  match s with
  | [] => Some []
  | c :: s' =>
      match encode_char_with h c, encode_with h s' with
      | Some bs, Some rest => Some (bs ++ rest)
      | _, _ => None
      end
  end.

(** The escape of a byte that is no part of well-formed UTF-8. *)
Definition escape (c : N) : N := 56320 + c.

(** [data.decode("utf-8", "surrogateescape")], which is [os.fsdecode]: as
    [utf8_decode], but every byte of an ill-formed subsequence becomes its
    escape. *)
Fixpoint fsdecode (bs : bytes) : str :=
  match bs with
  | [] => []
  | b0 :: r0 =>
      let c0 := Byte.to_N b0 in
      if c0 <? 128 then c0 :: fsdecode r0
      else if c0 <? 194 then escape c0 :: fsdecode r0
      else if c0 <? 224 then
        match r0 with
        | [] => [escape c0]
        | b1 :: r1 =>
            let c1 := Byte.to_N b1 in
            if is_cont c1
            then ((c0 - 192) * 64 + (c1 - 128)) :: fsdecode r1
            else escape c0 :: fsdecode r0
        end
      else if c0 <? 240 then
        match r0 with
        | [] => [escape c0]
        | b1 :: r1 =>
            let c1 := Byte.to_N b1 in
            if second_of_3 c0 c1 then
              match r1 with
              | [] => [escape c0; escape c1]
              | b2 :: r2 =>
                  let c2 := Byte.to_N b2 in
                  if is_cont c2
                  then ((c0 - 224) * 4096 + (c1 - 128) * 64 + (c2 - 128))
                         :: fsdecode r2
                  else escape c0 :: escape c1 :: fsdecode r1
              end
            else escape c0 :: fsdecode r0
        end
      else if c0 <? 245 then
        match r0 with
        | [] => [escape c0]
        | b1 :: r1 =>
            let c1 := Byte.to_N b1 in
            if second_of_4 c0 c1 then
              match r1 with
              | [] => [escape c0; escape c1]
              | b2 :: r2 =>
                  let c2 := Byte.to_N b2 in
                  if is_cont c2 then
                    match r2 with
                    | [] => [escape c0; escape c1; escape c2]
                    | b3 :: r3 =>
                        let c3 := Byte.to_N b3 in
                        if is_cont c3
                        then ((c0 - 240) * 262144 + (c1 - 128) * 4096
                              + (c2 - 128) * 64 + (c3 - 128))
                               :: fsdecode r3
                        else escape c0 :: escape c1 :: escape c2 :: fsdecode r2
                    end
                  else escape c0 :: escape c1 :: fsdecode r1
              end
            else escape c0 :: fsdecode r0
        end
      else escape c0 :: fsdecode r0
  end.

(** [os.fsencode]: the bytes of a file name. *)
Definition fsencode (name : str) : option bytes := encode_with SurrogateEscape name.

(** [needle in hay] on bytes. *)
Fixpoint starts_with (p l : bytes) : bool :=
  match p, l with
  | [], _ => true
  | x :: p', y :: l' => Byte.eqb x y && starts_with p' l'
  | _ :: _, [] => false
  end.

Fixpoint contains_bytes (needle hay : bytes) : bool :=
  starts_with needle hay ||
  match hay with
  | [] => false
  | _ :: hay' => contains_bytes needle hay'
  end.

(** *** Sorting the items of a dictionary *)

(** [s <= t] on strings: lexicographic by code point. *)
Fixpoint str_leb (s t : str) : bool :=
  match s, t with
  | [], _ => true
  | _ :: _, [] => false
  | x :: s', y :: t' => (x <? y) || ((x =? y) && str_leb s' t')
  end.

(** Tuples compare by first component, then by second. *)
Definition item_leb (a c : str * str) : bool :=
  if str_eqb (fst a) (fst c) then str_leb (snd a) (snd c)
  else str_leb (fst a) (fst c).

Fixpoint insert_sorted (x : str * str) (l : dict) : dict :=
  match l with
  | [] => [x]
  | y :: l' => if item_leb x y then x :: l else y :: insert_sorted x l'
  end.

(** [sorted(d.items())] *)
Definition sorted_items (d : dict) : dict :=
  fold_right insert_sorted [] d.

End Py.

Import Py.

(** ** The monad of the scripts: a world and a possible exception *)

Module Eff.

Inductive result (E A : Type) :=
| Ok (a : A)
| Raise (e : E).
Arguments Ok {E A} a.
Arguments Raise {E A} e.

Definition M (W E A : Type) : Type := W -> W * result E A.

Section Monad.
Context {W E : Type}.

Definition ret {A} (a : A) : M W E A := fun w => (w, Ok a).
Definition raise {A} (e : E) : M W E A := fun w => (w, Raise e).
Definition bind {A B} (m : M W E A) (k : A -> M W E B) : M W E B :=
  fun w =>
    match m w with
    | (w', Ok a) => k a w'
    | (w', Raise e) => (w', Raise e)
    end.

(** [try: m except <handled> as e: h e] *)
Definition try_except {A} (m : M W E A) (handled : E -> bool)
    (h : E -> M W E A) : M W E A :=
  fun w =>
    match m w with
    | (w', Raise e) => if handled e then h e w' else (w', Raise e)
    | r => r
    end.

(** [try: m finally: f] *)
Definition try_finally {A} (m : M W E A) (f : W -> W) : M W E A :=
  fun w => let '(w', r) := m w in (f w', r).
End Monad.

Declare Scope py_scope.
Delimit Scope py_scope with py.
Notation "x <- m ;; k" := (bind m (fun x => k))
  (at level 100, m at next level, right associativity) : py_scope.
Notation "m ;; k" := (bind m (fun _ => k))
  (at level 100, right associativity) : py_scope.

(** [for x in l: body x] *)
Fixpoint for_each {W E A} (l : list A) (body : A -> M W E unit) : M W E unit :=
  match l with
  | [] => ret tt
  | x :: l' => (body x ;; for_each l' body)%py
  end.

End Eff.

Import Eff.

(** ** The wire format, as both scripts declare it *)

Definition QUBESDB_HEADER : bytes := b "QUBESDB-KVM-CONFIG" ++ [Byte.x0a].
Definition QUBESDB_FOOTER : bytes := [Byte.x0a] ++ b "QUBESDB-END" ++ [Byte.x0a].

(** ** The guest side: [qubesdb-config-read.py] *)

Module Reader.

(** The paths of the script.  In the world below, [port_exists_at],
    [port_opens] and [device] stand for [VIRTIO_PORT], [cache_file] for
    [CACHE_FILE] and [entry_files] for the directory [CACHE_DIR/entries]. *)
Definition VIRTIO_PORT : str := u "/dev/virtio-ports/org.qubes-os.qubesdb".
Definition CACHE_DIR : str := u "/var/lib/qubesdb".
Definition CACHE_FILE : str := CACHE_DIR ++ u "/qubesdb.json".

(** Exceptions the script can meet.  [SystemExit] is [sys.exit]; the others
    come from the device, from the file system and from the encoders of
    text. *)
Inductive exn :=
| SystemExit (code : Z)
| IOError                 (* the device cannot be opened or read *)
| IsADirectoryError       (* [open(path, "w")] on a directory *)
| ValueError              (* [open] on a name with an embedded null *)
| FileNameTooLong         (* [OSError], [ENAMETOOLONG] *)
| JSONDecodeError         (* [json.load] on text that is no JSON document *)
| UnicodeEncodeError      (* a text that the encoder at hand refuses *)
| UnicodeDecodeError.     (* a text file whose bytes are no UTF-8 *)

(** The classes caught by [except (IOError, OSError)]. *)
Definition is_OSError (e : exn) : bool :=
  match e with
  | IOError | IsADirectoryError | FileNameTooLong => true
  | SystemExit _ | ValueError | JSONDecodeError
  | UnicodeEncodeError | UnicodeDecodeError => false
  end.

(** What the script prints, one constructor per format string. *)
Inductive message :=
| Waiting                      (* "Waiting for {VIRTIO_PORT}..." *)
| NotFoundAfter (timeout : Z)  (* "ERROR: {VIRTIO_PORT} not found after {timeout}s" *)
| Reading                      (* "Reading QubesDB from {VIRTIO_PORT}..." *)
| ErrorReading (e : exn)       (* "ERROR reading {VIRTIO_PORT}: {e}" *)
| Cached (n : nat)             (* "Cached {n} entries to {CACHE_FILE}" *)
| Loaded (n : nat)             (* "QubesDB: {n} entries loaded" *)
| LoadedEntry (k v : str)      (* "  {k} = {v}" *)
| UsingCached (n : nat)        (* "No new data; using {n} cached entries" *)
| NoConfiguration              (* "WARNING: No QubesDB configuration available" *)
| KeyNotFound (k : str)        (* "Key not found: {key}" *)
| Value (v : str)              (* the value of [--get] *)
| ListedEntry (k v : str)      (* "{k} = {v}" *)
| JsonDump (d : dict).         (* [json.dumps(entries, indent=2)] *)

(** One [f.read(4096)] on the open device: after [delay] milliseconds it
    returns [chunk] (possibly empty), or it fails. *)
Inductive read_event :=
| ReadChunk (delay : N) (chunk : bytes)
| ReadFails.

(** The content of the aggregate document [CACHE_FILE], as far as the model
    goes.  [json.dump] writes the object of a dictionary of strings, in
    ASCII, and [json.load] reads that same dictionary back: this is all the
    script ever writes there.  A damaged file is either text that is no JSON
    document at all, on which [json.load] raises [JSONDecodeError], or bytes
    that are no UTF-8 text, on which reading the file raises
    [UnicodeDecodeError].  A file that holds another JSON value (an array, a
    number, an object with values that are not strings) is outside the
    model: no world stands for it. *)
Inductive document :=
| JsonObject (d : dict)
| NotJson
| NotUtf8.

(** The world of the guest.  Times are in milliseconds. *)
Record World := mkWorld {
  now : Z;                          (* [time.time()] *)
  port_exists_at : Z -> bool;       (* [os.path.exists(VIRTIO_PORT)] at a time *)
  port_opens : bool;                (* whether [open(VIRTIO_PORT, "rb")] succeeds *)
  device : list read_event;         (* the reads to come; then empty reads *)
  cache_file : option document;     (* [CACHE_DIR/qubesdb.json] *)
  entry_files : gmap str str;       (* the files of [CACHE_DIR/entries/], as listed *)
  naps : list Z;                    (* the [time.sleep] calls so far *)
  stderr : list message;
  stdout : list message;
  stdout_errors : error_handler     (* [sys.stdout.errors], set by the locale *)
}.

Definition with_clock (w : World) (t : Z) (n : list Z) : World :=
  mkWorld t (port_exists_at w) (port_opens w) (device w) (cache_file w)
          (entry_files w) n (stderr w) (stdout w) (stdout_errors w).
Definition with_device (w : World) (t : Z) (d : list read_event) : World :=
  mkWorld t (port_exists_at w) (port_opens w) d (cache_file w)
          (entry_files w) (naps w) (stderr w) (stdout w) (stdout_errors w).
Definition with_cache_file (w : World) (c : option document) : World :=
  mkWorld (now w) (port_exists_at w) (port_opens w) (device w) c
          (entry_files w) (naps w) (stderr w) (stdout w) (stdout_errors w).
Definition with_entry_files (w : World) (m : gmap str str) : World :=
  mkWorld (now w) (port_exists_at w) (port_opens w) (device w) (cache_file w)
          m (naps w) (stderr w) (stdout w) (stdout_errors w).
Definition with_stderr (w : World) (l : list message) : World :=
  mkWorld (now w) (port_exists_at w) (port_opens w) (device w) (cache_file w)
          (entry_files w) (naps w) l (stdout w) (stdout_errors w).
Definition with_stdout (w : World) (l : list message) : World :=
  mkWorld (now w) (port_exists_at w) (port_opens w) (device w) (cache_file w)
          (entry_files w) (naps w) (stderr w) l (stdout_errors w).

Local Open Scope py_scope.

Abbreviation M := (Eff.M World exn).

(** The primitive actions. *)
Definition time_time : M Z := fun w => (w, Ok (now w)).
Definition sleep (ms : Z) : M unit :=
  fun w => (with_clock w (now w + ms)%Z (naps w ++ [ms]), Ok tt).
Definition port_exists : M bool :=
  fun w => (w, Ok (port_exists_at w (now w))).
Definition open_port : M unit :=
  fun w => if port_opens w then (w, Ok tt) else (w, Raise IOError).
Definition f_read : M bytes :=
  fun w =>
    match device w with
    | [] => (w, Ok [])
    | ReadChunk delay chunk :: rest =>
        (with_device w (now w + Z.of_N delay)%Z rest, Ok chunk)
    | ReadFails :: rest => (with_device w (now w) rest, Raise IOError)
    end.

(** [print(..., file=sys.stderr)]: the error stream has the handler
    [backslashreplace], which encodes every text. *)
Definition print_err (m : message) : M unit :=
  fun w => (with_stderr w (stderr w ++ [m]), Ok tt).

(** The text of a line of the standard output, as far as its code points
    go: the value of [--get], the line [{k} = {v}] of [--list].  The dump of
    [--json] is ASCII, whatever the dictionary holds. *)
Definition out_text (m : message) : str :=
  match m with
  | Value v => v
  | ListedEntry k v => k ++ u " = " ++ v
  | _ => []
  end.

(** [print(...)]: the standard output encodes the line as UTF-8 with its
    error handler, and nothing of the line is written when that fails. *)
Definition print_out (m : message) : M unit :=
  fun w =>
    match encode_with (stdout_errors w) (out_text m) with
    | Some _ => (with_stdout w (stdout w ++ [m]), Ok tt)
    | None => (w, Raise UnicodeEncodeError)
    end.

(** *** Parsing, lines 53 to 60 *)

Definition HEADER_TEXT : str := u "QUBESDB-KVM-CONFIG".
Definition FOOTER_TEXT : str := u "QUBESDB-END".

(** The body of the loop over the lines of the decoded text. *)
Definition parse_line (entries : dict) (line : str) : dict :=
  let line := strip line in
  if str_eqb line HEADER_TEXT || str_eqb line FOOTER_TEXT || str_eqb line []
  then entries
  else if contains_char EQUALS line
  then let '(k, v) := split_first EQUALS line in dict_set k v entries
  else entries.

Definition parse_text (text : str) : dict :=
  fold_left parse_line (splitlines text) [].

Definition parse_data (data : bytes) : dict := parse_text (utf8_decode data).

(** *** [read_from_virtio] *)

(** The polling loop of lines 31 to 33.  [polls] bounds the iterations left:
    it is [timeout - waited], so the loop condition is false when it reaches
    zero.  The result is the final value of [waited]. *)
Fixpoint wait_loop (polls : nat) (waited timeout : Z) : M Z :=
  match polls with
  | O => ret waited
  | S polls' =>
      e <- port_exists ;;
      if negb e && (waited <? timeout)%Z
      then sleep 1000 ;; wait_loop polls' (waited + 1)%Z timeout
      else ret waited
  end.

(** The read loop of lines 44 to 51.  [steps] bounds the iterations left;
    with [read_steps] iterations the loop condition is false, or the loop
    has left by [break], before the bound is reached. *)
Fixpoint read_loop (steps : nat) (deadline : Z) (data : bytes) : M bytes :=
  match steps with
  | O => ret data
  | S steps' =>
      t <- time_time ;;
      if (t <? deadline)%Z then
        chunk <- f_read ;;
        match chunk with
        | _ :: _ =>
            let data := data ++ chunk in
            if contains_bytes QUBESDB_FOOTER data then ret data
            else read_loop steps' deadline data
        | [] => sleep 100 ;; read_loop steps' deadline data
        end
      else ret data
  end.

(** Iterations that suffice for the read loop: every iteration either takes
    a read from the script of the device or sleeps 100 ms towards the
    deadline. *)
Definition read_steps (w : World) (deadline : Z) : nat :=
  (length (device w) + Z.to_nat ((deadline - now w + 99) / 100))%nat.

(** Lines 28 to 36, the wait phase.  The result tells whether the endpoint
    is still missing when the phase ends. *)
Definition wait_for_port (timeout : Z) : M bool :=
  e <- port_exists ;;
  if negb e then
    print_err Waiting ;;
    _ <- wait_loop (Z.to_nat timeout) 0 timeout ;;
    e <- port_exists ;;
    if negb e then print_err (NotFoundAfter timeout) ;; ret true
    else ret false
  else ret false.

(** Lines 38 to 64, the read phase. *)
Definition read_port (timeout : Z) : M dict :=
  print_err Reading ;;
  try_except
    (open_port ;;
     t <- time_time ;;
     let deadline := (t + timeout * 1000)%Z in
     data <- (fun w => read_loop (read_steps w deadline) deadline [] w) ;;
     ret (parse_data data))
    is_OSError
    (fun e => print_err (ErrorReading e) ;; ret []).

Definition read_from_virtio (timeout : Z) : M dict :=
  missing <- wait_for_port timeout ;;
  if missing : bool then ret [] else read_port timeout.

(** *** The cache *)

(** [k.lstrip("/").replace("/", "_")] *)
Definition safe_key (k : str) : str :=
  replace_char SLASH UNDERSCORE (lstrip_chars (N.eqb SLASH) k).

(** Why [open(os.path.join(qubesdb_dir, name), "w")] fails on a name, if it
    does: a name that the file system encoding refuses cannot even be
    passed on; the empty name, [.] and [..] denote directories; a name with
    a null character is refused by [open]; a name longer than [NAME_MAX]
    (255 bytes) is refused by the file system. *)
Definition name_error (name : str) : option exn :=
  match fsencode name with
  | None => Some UnicodeEncodeError
  | Some bs =>
      if str_eqb name [] || str_eqb name (u ".") || str_eqb name (u "..")
      then Some IsADirectoryError
      else if contains_char 0 name then Some ValueError
      else if (255 <? length bs)%nat then Some FileNameTooLong
      else None
  end.

(** The name under which the directory lists the file that [open] reaches
    by [name]: the file system knows a file by the bytes of its name, and
    the same bytes can be spelt with and without escapes. *)
Definition listed_name (name : str) : str :=
  match fsencode name with
  | Some bs => fsdecode bs
  | None => name
  end.

(** [with open(os.path.join(qubesdb_dir, name), "w") as f: f.write(v)].
    Opening creates the file, or empties it; the text is encoded as UTF-8
    by the handler [strict], and when that fails the file stays empty. *)
Definition write_entry_file (name v : str) : M unit :=
  match name_error name with
  | Some e => raise e
  | None =>
      fun w =>
        match utf8_encode v with
        | Some _ =>
            (with_entry_files w (<[listed_name name := v]> (entry_files w)), Ok tt)
        | None =>
            (with_entry_files w (<[listed_name name := []]> (entry_files w)),
             Raise UnicodeEncodeError)
        end
  end.

Definition save_cache (entries : dict) : M unit :=
  (fun w => (with_cache_file w (Some (JsonObject entries)), Ok tt)) ;;
  print_err (Cached (length entries)) ;;
  for_each entries (fun '(k, v) => write_entry_file (safe_key k) v).

Definition load_cache : M dict :=
  fun w =>
    match cache_file w with
    | Some (JsonObject d) => (w, Ok d)
    | Some NotJson => (w, Raise JSONDecodeError)
    | Some NotUtf8 => (w, Raise UnicodeDecodeError)
    | None => (w, Ok [])
    end.

(** *** [main] *)

(** [l.index(x)] for an [x] that occurs in [l]. *)
Fixpoint index_of (x : str) (l : list str) : nat :=
  match l with
  | [] => 0
  | y :: l' => if str_eqb y x then 0 else S (index_of x l')
  end.

Definition mem_str (x : str) (l : list str) : bool := existsb (str_eqb x) l.

(** Lines 112 to 123: the fresh read, then the cache or the fallback. *)
Definition read_or_fallback : M unit :=
  entries <- read_from_virtio 30 ;;
  if truthy entries then
    save_cache entries ;;
    print_err (Loaded (length entries)) ;;
    for_each (sorted_items entries) (fun '(k, v) => print_err (LoadedEntry k v))
  else
    cached <- load_cache ;;
    if truthy cached then print_err (UsingCached (length cached))
    else print_err NoConfiguration.

Definition main (argv : list str) : M unit :=
  if mem_str (u "--get") argv then
    let idx := index_of (u "--get") argv in
    match nth_error argv (idx + 1) with
    | Some key =>
        entries <- load_cache ;;
        match dict_get key entries with
        | Some v => print_out (Value v)
        | None => print_err (KeyNotFound key) ;; raise (SystemExit 1)
        end
    | None => ret tt
    end
  else if mem_str (u "--list") argv then
    entries <- load_cache ;;
    for_each (sorted_items entries) (fun '(k, v) => print_out (ListedEntry k v))
  else if mem_str (u "--json") argv then
    entries <- load_cache ;;
    print_out (JsonDump entries)
  else read_or_fallback.

(** The command line asks for none of the query modes. *)
Definition plain (argv : list str) : bool :=
  negb (mem_str (u "--get") argv) && negb (mem_str (u "--list") argv)
  && negb (mem_str (u "--json") argv).

(** *** The process *)

(** How the interpreter ends: [main] returns, [sys.exit] is called, or an
    exception reaches the top level and a traceback is printed. *)
Inductive ending :=
| Returned
| Exited (code : Z)
| Traceback (e : exn).

Definition exit_status (e : ending) : Z :=
  match e with
  | Returned => 0
  | Exited code => code
  | Traceback _ => 1
  end.

Definition run (argv : list str) (w : World) : World * ending :=
  match main argv w with
  | (w', Ok _) => (w', Returned)
  | (w', Raise (SystemExit code)) => (w', Exited code)
  | (w', Raise e) => (w', Traceback e)
  end.

(** [load_cache()] as the outside sees it: the mapping, or the exception. *)
Definition Load (w : World) : result exn dict := snd (load_cache w).

End Reader.

(** ** The host side: [qubesdb-config-inject.py] *)

Module Inject.

(** Operating-system errors of the socket calls. *)
Inductive os_error :=
| TimedOut                  (* [socket.timeout] *)
| ConnectionRefused         (* [ConnectionRefusedError] *)
| FileNotFound              (* [FileNotFoundError] *)
| OtherOSError (errno : Z). (* any other [OSError] *)

Inductive exn :=
| SystemExit (code : Z)
| OSError (e : os_error)
| UnicodeEncodeError        (* [payload.encode()] on a lone surrogate *)
| UnicodeDecodeError.       (* [proc.stderr.decode()] on ill-formed bytes *)

(** How the run of the [socat] relay ends. *)
Inductive socat_run :=
| SocatExits (returncode : Z) (err : bytes)
| SocatTimeoutExpired.

Inductive message :=
| Usage (prog : str)            (* "Usage: {argv[0]} SOCKET_PATH [KEY=VALUE ...]" *)
| UsingDefaults                 (* "Using default QubesDB entries." *)
| Injected (n : nat) (sock_path : str)
                                (* "Injected {n} entries via {sock_path}" *)
| SocatError (err : str)        (* "socat error: {stderr}" *)
| Timeout (sock_path : str)     (* "TIMEOUT: Guest may not be reading {sock_path} yet" *)
| Error (e : os_error).         (* "ERROR: {e}" *)

(** The world of the host. *)
Record Host := mkHost {
  stdin : option (list str);      (* the lines of the input stream; [None]: a terminal *)
  environ : str -> option str;    (* [os.environ] *)
  socat : option socat_run;       (* [shutil.which("socat")] and the run of the relay *)
  connect : option os_error;      (* [sock.connect]: [None] when it succeeds *)
  sendall : option os_error;      (* [sock.sendall]: [None] when it succeeds *)
  handed : list bytes;            (* the payloads handed to the transport *)
  sock_closed : bool;             (* [sock.close()] was called *)
  stderr : list message;
  stdout : list message
}.

Definition with_handed (h : Host) (l : list bytes) : Host :=
  mkHost (stdin h) (environ h) (socat h) (connect h) (sendall h) l
         (sock_closed h) (stderr h) (stdout h).
Definition with_sock_closed (h : Host) : Host :=
  mkHost (stdin h) (environ h) (socat h) (connect h) (sendall h) (handed h)
         true (stderr h) (stdout h).
Definition with_stderr (h : Host) (l : list message) : Host :=
  mkHost (stdin h) (environ h) (socat h) (connect h) (sendall h) (handed h)
         (sock_closed h) l (stdout h).
Definition with_stdout (h : Host) (l : list message) : Host :=
  mkHost (stdin h) (environ h) (socat h) (connect h) (sendall h) (handed h)
         (sock_closed h) (stderr h) l.

Abbreviation M := (Eff.M Host exn).
Local Open Scope py_scope.

Definition print_err (m : message) : M unit :=
  fun h => (with_stderr h (stderr h ++ [m]), Ok tt).
Definition print_out (m : message) : M unit :=
  fun h => (with_stdout h (stdout h ++ [m]), Ok tt).

(** [payload.encode()] *)
Definition encode (payload : str) : M bytes :=
  match utf8_encode payload with
  | Some bs => ret bs
  | None => raise UnicodeEncodeError
  end.

(** [proc.stderr.decode()] *)
Definition decode (data : bytes) : M str :=
  match utf8_decode_strict data with
  | Some s => ret s
  | None => raise UnicodeDecodeError
  end.

(** [subprocess.run([socat, ...], input=data, capture_output=True, timeout=15)]:
    the return code and the captured error stream, or [None] when the
    relay is still running after 15 seconds. *)
Definition subprocess_run (r : socat_run) (data : bytes) : M (option (Z * bytes)) :=
  fun h =>
    (with_handed h (handed h ++ [data]),
     Ok match r with
        | SocatExits rc err => Some (rc, err)
        | SocatTimeoutExpired => None
        end).

Definition sock_connect : M unit :=
  fun h => match connect h with
           | None => (h, Ok tt)
           | Some e => (h, Raise (OSError e))
           end.

Definition sock_sendall (data : bytes) : M unit :=
  fun h => match sendall h with
           | None => (with_handed h (handed h ++ [data]), Ok tt)
           | Some e => (h, Raise (OSError e))
           end.

(** Lines 23 to 26: the frame of a dictionary, as text.  The two markers
    are ASCII, so that their [decode()] is their lenient decoding. *)
Definition render_entry (kv : str * str) : str :=
  fst kv ++ [EQUALS] ++ snd kv ++ [LF].

Definition render (entries : dict) : str :=
  utf8_decode QUBESDB_HEADER
  ++ concat (map render_entry entries)
  ++ utf8_decode QUBESDB_FOOTER.

Definition is_OSError (e : exn) : bool :=
  match e with OSError _ => true | _ => false end.

(** The two [except] clauses of lines 56 to 61: [socket.timeout] first, then
    [(ConnectionRefusedError, FileNotFoundError, OSError)]. *)
Definition on_socket_error (sock_path : str) (e : exn) : M bool :=
  match e with
  | OSError TimedOut => print_err (Timeout sock_path) ;; ret false
  | OSError e => print_err (Error e) ;; ret false
  | e => raise e
  end.

Definition inject (sock_path : str) (entries : dict) : M bool :=
  let payload := render entries in
  fun h =>
    match socat h with
    | Some r =>
        (data <- encode payload ;;
         proc <- subprocess_run r data ;;
         match proc with
         | Some (returncode, err) =>
             if (returncode =? 0)%Z
             then print_out (Injected (length entries) sock_path) ;; ret true
             else text <- decode err ;; print_err (SocatError text) ;; ret false
         | None => print_err (Timeout sock_path) ;; ret false
         end) h
    | None =>
        try_finally
          (try_except
             (sock_connect ;;
              data <- encode payload ;;
              sock_sendall data ;;
              print_out (Injected (length entries) sock_path) ;;
              ret true)
             is_OSError
             (on_socket_error sock_path))
          with_sock_closed h
    end.

(** Lines 74 to 77 and 80 to 84: one [key=value] of the command line or of
    the input stream. *)
Definition add_entry (entries : dict) (text : str) : dict :=
  if contains_char EQUALS text
  then let '(k, v) := split_first EQUALS text in dict_set k v entries
  else entries.

Definition from_args (args : list str) : dict :=
  fold_left add_entry args [].

Definition from_stream (entries : dict) (lines : list str) : dict :=
  fold_left (fun entries line => add_entry entries (strip line)) lines entries.

(** [os.environ.get(name, default)] *)
Definition getenv (h : Host) (name : string) (default : string) : str :=
  match environ h (u name) with Some v => v | None => u default end.

(** Lines 87 to 102. *)
Definition default_entries (h : Host) : dict :=
  [ (u "/name", getenv h "VM_NAME" "qubes-kvm-node1");
    (u "/type", u "AppVM");
    (u "/label", u "green");
    (u "/netvm", u "sys-firewall");
    (u "/memory", getenv h "VM_MEM" "4096");
    (u "/vcpus", getenv h "VM_CPUS" "2");
    (u "/qubes-vm-updateable", u "False");
    (u "/qubes-base-template", u "fedora-41");
    (u "/qubes-vm-persistence", u "full");
    (u "/qubes-ip", u "10.137.0.100");
    (u "/qubes-netmask", u "255.255.255.255");
    (u "/qubes-gateway", u "10.137.0.1");
    (u "/qubes-primary-dns", u "10.139.1.1");
    (u "/qubes-secondary-dns", u "10.139.1.2") ].

(** Lines 72 to 84: the entries of the command line, then those of the
    input stream when it is not a terminal. *)
Definition merged_entries (args : list str) (h : Host) : dict :=
  let entries := from_args args in
  match stdin h with
  | Some lines => from_stream entries lines
  | None => entries
  end.

(** Lines 66 to 106.  [sys.argv] has at least the name of the script. *)
Definition main (argv : list str) : M unit :=
  match argv with
  | [] => print_err (Usage []) ;; raise (SystemExit 1)
  | [prog] => print_err (Usage prog) ;; raise (SystemExit 1)
  | _ :: sock_path :: args =>
      entries <- (fun h => (h, Ok (merged_entries args h))) ;;
      entries <-
        (if truthy entries then ret entries
         else d <- (fun h => (h, Ok (default_entries h))) ;;
              print_out UsingDefaults ;; ret d) ;;
      ok <- inject sock_path entries ;;
      raise (SystemExit (if ok : bool then 0 else 1))
  end.

(** The entries [main] hands to [inject]. *)
Definition sourced_entries (args : list str) (h : Host) : dict :=
  let entries := merged_entries args h in
  if truthy entries then entries else default_entries h.

End Inject.

(** ** The vocabulary of the properties *)

Module Wire.

Import Reader.

(** A text that does not begin, or does not end, with whitespace. *)
Definition no_leading_space (s : str) : Prop :=
  forall c r, s = c :: r -> is_space c = false.
Definition no_trailing_space (s : str) : Prop :=
  forall r c, s = r ++ [c] -> is_space c = false.

(** [d[k] = v] for an item [(k, v)]. *)
Definition assign (d : dict) (kv : str * str) : dict := dict_set (fst kv) (snd kv) d.

(** The frame rule of the specification as a relation between the lines
    still to read, the entries so far and the final entries: blank lines and
    marker lines are skipped, a line without an equals sign is ignored, any
    other line is split at its first equals sign and assigned. *)
Inductive frame_rule : list str -> dict -> dict -> Prop :=
| rule_done entries :
    frame_rule [] entries entries
| rule_blank line lines entries final :
    strip line = [] ->
    frame_rule lines entries final -> frame_rule (line :: lines) entries final
| rule_marker line lines entries final :
    strip line = HEADER_TEXT \/ strip line = FOOTER_TEXT ->
    frame_rule lines entries final -> frame_rule (line :: lines) entries final
| rule_malformed line lines entries final :
    EQUALS ∉ strip line ->
    frame_rule lines entries final -> frame_rule (line :: lines) entries final
| rule_pair line lines entries final k v :
    strip line = k ++ EQUALS :: v -> EQUALS ∉ k ->
    frame_rule lines (dict_set k v entries) final ->
    frame_rule (line :: lines) entries final.

(** The frame of the scenario: two valid lines around a malformed one. *)
Definition scenario_text : str :=
  u "QUBESDB-KVM-CONFIG" ++ [LF] ++ u "/name=work" ++ [LF]
  ++ u "garbage-no-equals" ++ [LF] ++ u "/memory=4096" ++ [LF]
  ++ [LF] ++ u "QUBESDB-END" ++ [LF].

(** A text without line boundary. *)
Definition no_linebreak (s : str) : Prop :=
  Forall (fun c => is_linebreak c = false) s.

(** A key that survives the wire: no equals sign, no line boundary, no
    whitespace in front. *)
Definition wire_key (k : str) : Prop :=
  (EQUALS ∉ k) /\ no_linebreak k /\ no_leading_space k.

(** A value that survives the wire: no line boundary, no whitespace at the
    end. *)
Definition wire_value (v : str) : Prop :=
  no_linebreak v /\ no_trailing_space v.

Definition wire_entry (kv : str * str) : Prop :=
  wire_key (fst kv) /\ wire_value (snd kv).

(** The line of an entry in a frame, without its line feed. *)
Definition entry_line (kv : str * str) : str := fst kv ++ EQUALS :: snd kv.

(** Two entries as the Sender is given them in the scenarios. *)
Definition two_entries : dict :=
  [(u "/name", u "work"); (u "/memory", u "4096")].

(** One entry whose value ends with a blank. *)
Definition padded_entry : dict := [(u "/name", u "work ")].

(** A text every code point of which has a UTF-8 form: no surrogate is in
    it.  Every encoder takes such a text, whatever its error handler. *)
Definition plain_text (s : str) : Prop :=
  Forall (fun c => is_Some (encode_char c)) s.

(** An entry whose key and value are such texts. *)
Definition plain_entry (kv : str * str) : Prop :=
  plain_text (fst kv) /\ plain_text (snd kv).

End Wire.

Module ReaderSpec.

Import Reader.
Local Open Scope py_scope.

(** The world after [n] sleeps of one second. *)
Definition after_polls (w : World) (n : nat) : World :=
  with_clock w (now w + 1000 * Z.of_nat n)%Z (naps w ++ repeat 1000%Z n).

(** The two on-disk forms of the cache. *)
Definition cache_of (w : World) : option document * gmap str str :=
  (cache_file w, entry_files w).

(** An action that changes neither form of the cache. *)
Definition keeps_cache {A} (m : M A) : Prop :=
  forall w, cache_of (fst (m w)) = cache_of w.

(** An action that raises, if it raises, an exception of the class [p]. *)
Definition raises_only {A} (p : exn -> bool) (m : M A) : Prop :=
  forall w e, snd (m w) = Raise e -> p e = true.

(** The empty class of exceptions. *)
Definition never (e : exn) : bool := false.

(** The fallback of lines 119 to 123. *)
Definition fallback : M unit :=
  cached <- load_cache ;;
  if truthy cached then print_err (UsingCached (length cached))
  else print_err NoConfiguration.

(** An entry whose per-key file can be opened for writing. *)
Definition nameable (kv : str * str) : Prop := name_error (safe_key (fst kv)) = None.

(** The per-key directory after the files of [entries] are written. *)
Definition write_all (entries : dict) (files : gmap str str) : gmap str str :=
  fold_left (fun m kv => <[safe_key (fst kv) := snd kv]> m) entries files.

(** The content of a per-key file after [write_all]: the value of the last
    entry that has this file name, or what the file held before. *)
Fixpoint last_written (name : str) (entries : dict) (old : option str) : option str :=
  match entries with
  | [] => old
  | (k, v) :: rest =>
      last_written name rest (if str_eqb (safe_key k) name then Some v else old)
  end.

(** Exceptions other than [sys.exit]. *)
Definition not_exit (e : exn) : bool :=
  match e with SystemExit _ => false | _ => true end.

(** [sys.argv[0]] *)
Definition prog : str := u "qubesdb-config-read.py".

(** A guest on which the endpoint never appears and nothing was ever
    cached. *)
Definition first_boot : World :=
  mkWorld 0 (fun _ => false) true [] None ∅ [] [] [] Strict.

(** A guest whose endpoint delivers the header and one line, and then
    nothing more: the footer never comes.  The cache holds an older value. *)
Definition cut_frame : bytes := QUBESDB_HEADER ++ b "/name=work" ++ [Byte.x0a].

Definition cut_off : World :=
  mkWorld 0 (fun _ => true) true [ReadChunk 0 cut_frame]
          (Some (JsonObject [(u "/name", u "personal")]))
          {[ u "name" := u "personal" ]} [] [] [] Strict.

(** Two deliveries, the second without the key of the first. *)
Definition second_delivery : World :=
  fst (save_cache [(u "/b", u "2")] (fst (save_cache [(u "/a", u "1")] first_boot))).

(** A guest whose endpoint delivers a complete frame with the key [/]. *)
Definition slash_key : World :=
  mkWorld 0 (fun _ => true) true
          [ReadChunk 0 (QUBESDB_HEADER ++ b "/=x" ++ [Byte.x0a] ++ QUBESDB_FOOTER)]
          None ∅ [] [] [] Strict.

(** Two keys with the same per-key file name. *)
Definition colliding : dict := [(u "/a/b", u "1"); (u "/a_b", u "2")].

End ReaderSpec.

Module InjectSpec.

Import Inject.
Local Open Scope py_scope.

(** A host without relay, with a listening endpoint, and with one line
    piped into the script. *)
Definition piped : Host :=
  mkHost (Some [u "/name=stream" ++ [LF]]) (fun _ => None)
         None None None [] false [] [].

(** The first socket call that fails, if any. *)
Definition socket_failure (h : Host) : option os_error :=
  match connect h with
  | Some e => Some e
  | None => sendall h
  end.

(** The relay, when it fails, leaves an error text that decodes. *)
Definition relay_error_decodes (h : Host) : bool :=
  match socat h with
  | Some (SocatExits rc err) =>
      (rc =? 0)%Z || match utf8_decode_strict err with Some _ => true | None => false end
  | _ => true
  end.

(** The transport took the payload: the relay ended with return code 0, or,
    without relay, both socket calls succeeded. *)
Definition delivered (h : Host) : bool :=
  match socat h with
  | Some (SocatExits rc _) => (rc =? 0)%Z
  | Some SocatTimeoutExpired => false
  | None => match socket_failure h with None => true | Some _ => false end
  end.

(** The one line a failed attempt prints on the error stream (of no use
    when the attempt succeeds). *)
Definition failure_line (sock_path : str) (h : Host) : message :=
  match socat h with
  | Some (SocatExits _ err) => SocatError (utf8_decode err)
  | Some SocatTimeoutExpired => Timeout sock_path
  | None =>
      match socket_failure h with
      | Some TimedOut => Timeout sock_path
      | Some e => Error e
      | None => Timeout sock_path
      end
  end.

(** The host after the attempt. *)
Definition after_attempt (sock_path : str) (entries : dict) (data : bytes) (h : Host) : Host :=
  let h1 :=
    match socat h with
    | Some _ => with_handed h (handed h ++ [data])
    | None => if delivered h then with_handed h (handed h ++ [data]) else h
    end in
  let h2 :=
    if delivered h
    then with_stdout h1 (stdout h1 ++ [Injected (length entries) sock_path])
    else with_stderr h1 (stderr h1 ++ [failure_line sock_path h]) in
  match socat h with
  | Some _ => h2
  | None => with_sock_closed h2
  end.

(** An endpoint and a dictionary to send. *)
Definition sock : str := u "/run/qubesdb.sock".


End InjectSpec.

(** ** The vocabulary of the further properties *)

Module ReaderTerms.

Import Reader ReaderSpec Wire.
Local Open Scope py_scope.

(** *** The query modes *)

Definition GET : str := u "--get".
Definition LIST : str := u "--list".
Definition JSON : str := u "--json".

(** The lines [--list] prints for a list of items. *)
Definition listed (items : dict) : list message :=
  map (fun kv => ListedEntry (fst kv) (snd kv)) items.

(** The lines a fresh read reports for the items it loaded. *)
Definition loaded (items : dict) : list message :=
  map (fun kv => LoadedEntry (fst kv) (snd kv)) items.

(** Whether the standard output of [w] takes the line [m]: whether its
    encoder, with its error handler, encodes the text of the line. *)
Definition printable (w : World) (m : message) : bool :=
  match encode_with (stdout_errors w) (out_text m) with
  | Some _ => true
  | None => false
  end.

(** The lines of [ms] that come before the first one the standard output
    of [w] refuses. *)
Fixpoint printed (w : World) (ms : list message) : list message :=
  match ms with
  | [] => []
  | m :: ms' => if printable w m then m :: printed w ms' else []
  end.

(** The exception that loading a damaged aggregate document raises. *)
Definition load_error (doc : document) : option exn :=
  match doc with
  | JsonObject _ => None
  | NotJson => Some JSONDecodeError
  | NotUtf8 => Some UnicodeDecodeError
  end.

(** *** What an action leaves alone *)

(** A world that differs from [w] at most by lines added to the two output
    streams. *)
Definition printed_more (w w' : World) : Prop :=
  exists out err,
    w' = with_stdout (with_stderr w (stderr w ++ err)) (stdout w ++ out).

(** An action that at most prints. *)
Definition prints_only {A} (m : M A) : Prop :=
  forall w, printed_more w (fst (m w)).

(** An action that prints nothing on the standard output. *)
Definition quiet {A} (m : M A) : Prop :=
  forall w, stdout (fst (m w)) = stdout w.

(** What no read changes: the endpoint, the cache and the standard
    output. *)
Definition beyond_reach (w : World) :=
  (port_exists_at w, port_opens w, cache_file w, entry_files w, stdout w).

(** An action that leaves all of that as it is. *)
Definition keeps_rest {A} (m : M A) : Prop :=
  forall w, beyond_reach (fst (m w)) = beyond_reach w.

(** *** The order of [sorted] *)

(** One item is at most another. *)
Definition item_le (a c : str * str) : Prop := item_leb a c = true.

(** *** The wait and the read *)

(** The endpoint is missing at the first [n] polls, one second apart, and
    there at the next. *)
Definition appears_at_poll (w : World) (n : nat) : Prop :=
  (forall i, (i < n)%nat ->
     port_exists_at w (now w + 1000 * Z.of_nat i)%Z = false) /\
  port_exists_at w (now w + 1000 * Z.of_nat n)%Z = true.

(** The bytes one read contributes to the buffer. *)
Definition chunk_of (ev : read_event) : bytes :=
  match ev with ReadChunk _ chunk => chunk | ReadFails => [] end.

(** The buffer after the reads [evs], starting from [data]. *)
Definition buffered (data : bytes) (evs : list read_event) : bytes :=
  data ++ concat (map chunk_of evs).

(** Every read of the script returns within [limit] milliseconds. *)
Definition reads_within (limit : N) (evs : list read_event) : Prop :=
  Forall (fun ev => match ev with
                    | ReadChunk delay _ => delay <= limit
                    | ReadFails => True
                    end) evs.

(** *** The lines of a frame *)

(** The line assigns [v] to the key [k]. *)
Definition assigns (line k v : str) : Prop :=
  strip line = k ++ EQUALS :: v /\ EQUALS ∉ k.

(** *** Guests *)

(** A guest whose endpoint never appears and whose cache holds two
    entries. *)
Definition cached_guest : World :=
  mkWorld 0 (fun _ => false) true [] (Some (JsonObject two_entries)) ∅ [] [] [] Strict.

(** A guest whose cache holds a value with a lone high surrogate, which
    neither [strict] nor [surrogateescape] encodes. *)
Definition odd_value : dict := [(u "/name", [55357])].

Definition odd_guest : World :=
  mkWorld 0 (fun _ => false) true [] (Some (JsonObject odd_value)) ∅ [] [] []
          SurrogateEscape.

(** A guest whose aggregate document is damaged. *)
Definition corrupt_guest : World :=
  mkWorld 0 (fun _ => false) true [] (Some NotJson) ∅ [] [] [] Strict.

(** A guest whose endpoint is there and cannot be opened. *)
Definition closed_port : World :=
  mkWorld 0 (fun _ => true) false [] None ∅ [] [] [] Strict.

(** A guest whose endpoint appears after two seconds and cannot be
    opened. *)
Definition late_port : World :=
  mkWorld 0 (fun t => (2000 <=? t)%Z) false [] None ∅ [] [] [] Strict.

(** A guest whose endpoint delivers a frame with a key that has a per-key
    file and a key that has none. *)
Definition mixed_keys : World :=
  mkWorld 0 (fun _ => true) true
          [ReadChunk 0 (QUBESDB_HEADER ++ b "/name=work" ++ [Byte.x0a]
                        ++ b "/=x" ++ [Byte.x0a] ++ QUBESDB_FOOTER)]
          None ∅ [] [] [] Strict.

(** The frame of [two_entries], and a guest whose endpoint delivers it in
    one read. *)
Definition frame_bytes : bytes :=
  QUBESDB_HEADER ++ b "/name=work" ++ [Byte.x0a]
  ++ b "/memory=4096" ++ [Byte.x0a] ++ QUBESDB_FOOTER.

Definition delivering : World :=
  mkWorld 0 (fun _ => true) true [ReadChunk 0 frame_bytes] None ∅ [] [] [] Strict.

(** A line that follows the footer in the same buffer. *)
Definition late_line : bytes := b "/name=late" ++ [Byte.x0a].

End ReaderTerms.

Module InjectTerms.

Import Inject InjectSpec.
Local Open Scope py_scope.

(** *** The exceptions the Sender does not catch *)

(** A code point that has a UTF-8 form: not a surrogate, not above
    U+10FFFF. *)
Definition encodable (c : N) : bool :=
  (c <? 55296) || ((57343 <? c) && (c <? 1114112)).

(** The line a failed socket call prints. *)
Definition socket_error_line (sock_path : str) (e : os_error) : message :=
  match e with TimedOut => Timeout sock_path | _ => Error e end.


(** *** Hosts *)

(** A host whose relay fails with an error text that is no UTF-8. *)
Definition garbled_relay : Host :=
  mkHost None (fun _ => None) (Some (SocatExits 1 [Byte.xff])) None None [] false [] [].

(** A host without relay and with a listening endpoint. *)
Definition listening : Host :=
  mkHost None (fun _ => None) None None None [] false [] [].


(** An entry whose value is a lone surrogate. *)
Definition surrogate_entry : dict := [(u "/name", [55357])].

End InjectTerms.

Import Wire.

(** ** Facts about the string operations *)

Section Dropwhile.
Context {A : Type} (p : A -> bool).

Lemma dropwhile_split (l : list A) :
  exists pre, l = pre ++ dropwhile p l /\ Forall (fun x => p x = true) pre.
Proof.
  induction l as [|x l IH]; simpl.
  - exists []. split; [done | constructor].
  - destruct (p x) eqn:Hx.
    + destruct IH as (pre & Heq & Hall). exists (x :: pre). split.
      * simpl. by rewrite <- Heq.
      * by constructor.
    + exists []. split; [done | constructor].
Qed.

Lemma dropwhile_head (l : list A) x r :
  dropwhile p l = x :: r -> p x = false.
Proof.
  induction l as [|y l IH]; simpl; [done|].
  destruct (p y) eqn:Hy; [done|]. intros [= -> _]. done.
Qed.

Lemma dropwhile_all (pre l : list A) :
  Forall (fun x => p x = true) pre -> dropwhile p (pre ++ l) = dropwhile p l.
Proof. induction 1 as [|x pre Hx _ IH]; simpl; [done|]. by rewrite Hx. Qed.

Lemma dropwhile_stop (x : A) (l : list A) :
  p x = false -> dropwhile p (x :: l) = x :: l.
Proof. simpl. by intros ->. Qed.

Lemma dropwhile_app_stop (l l' : list A) :
  dropwhile p l <> [] -> dropwhile p (l ++ l') = dropwhile p l ++ l'.
Proof.
  induction l as [|x l IH]; simpl; [done|].
  destruct (p x); [exact IH | done].
Qed.
End Dropwhile.

Lemma rstrip_chars_last p s r c :
  rstrip_chars p s = r ++ [c] -> p c = false.
Proof.
  unfold rstrip_chars. intros H.
  apply (f_equal (@rev N)) in H. rewrite rev_involutive, rev_app_distr in H.
  simpl in H. by apply dropwhile_head in H.
Qed.

Lemma rstrip_chars_prefix p s :
  exists suf, s = rstrip_chars p s ++ suf /\ Forall (fun x => p x = true) suf.
Proof.
  unfold rstrip_chars.
  destruct (dropwhile_split p (rev s)) as (pre & Heq & Hall).
  exists (rev pre). split.
  - apply (f_equal (@rev N)) in Heq. rewrite rev_involutive, rev_app_distr in Heq.
    done.
  - by apply Forall_rev.
Qed.

Lemma rstrip_chars_keep p s c :
  p c = false -> rstrip_chars p (s ++ [c]) = s ++ [c].
Proof.
  intros Hc. unfold rstrip_chars. rewrite rev_app_distr. simpl.
  rewrite Hc. simpl. by rewrite rev_involutive.
Qed.

Lemma rstrip_chars_all p s suf :
  Forall (fun x => p x = true) suf -> rstrip_chars p (s ++ suf) = rstrip_chars p s.
Proof.
  intros H. unfold rstrip_chars. rewrite rev_app_distr.
  rewrite dropwhile_all; [done|]. by apply Forall_rev.
Qed.

(** A stripped line neither begins nor ends with whitespace. *)
Lemma strip_head s c r : strip s = c :: r -> is_space c = false.
Proof.
  unfold strip. intros H.
  destruct (rstrip_chars_prefix is_space (lstrip_chars is_space s)) as (suf & Heq & _).
  rewrite H in Heq. simpl in Heq. unfold lstrip_chars in Heq.
  by apply dropwhile_head in Heq.
Qed.

Lemma strip_last s r c : strip s = r ++ [c] -> is_space c = false.
Proof. unfold strip. apply rstrip_chars_last. Qed.

Lemma strip_fixed s :
  no_leading_space s -> no_trailing_space s -> strip s = s.
Proof.
  intros Hl Ht. unfold strip, lstrip_chars.
  destruct s as [|c r]; [done|].
  rewrite dropwhile_stop by (by apply (Hl c r)).
  destruct (exists_last (l := c :: r)) as (r' & c' & Heq); [done|].
  rewrite Heq. apply rstrip_chars_keep. by apply (Ht r' c').
Qed.

Lemma strip_strip s : strip (strip s) = strip s.
Proof.
  apply strip_fixed; intros ? ? H; [by apply strip_head in H | by apply strip_last in H].
Qed.

Lemma strip_padded p1 s p2 :
  Forall (fun x => is_space x = true) p1 ->
  Forall (fun x => is_space x = true) p2 ->
  strip (p1 ++ s ++ p2) = strip s.
Proof.
  intros H1 H2. unfold strip, lstrip_chars.
  rewrite dropwhile_all by done.
  destruct (dropwhile is_space s) as [|c r] eqn:Hs.
  - destruct (dropwhile_split is_space s) as (pre & Heq & Hall).
    rewrite Hs, app_nil_r in Heq. subst pre.
    rewrite dropwhile_all by done.
    destruct (dropwhile_split is_space p2) as (pre & Heq & Hall').
    destruct (dropwhile is_space p2) as [|c r] eqn:Hp2; [done|].
    apply dropwhile_head in Hp2.
    assert (c ∈ p2) as Hin by (rewrite Heq; set_solver).
    rewrite Forall_forall in H2. apply H2 in Hin. congruence.
  - rewrite dropwhile_app_stop by (rewrite Hs; done).
    rewrite Hs. by apply rstrip_chars_all.
Qed.

(** [splitlines] cuts at a line feed that follows a text without line
    boundaries. *)
Lemma splitlines_from_line cur l rest :
  Forall (fun c => is_linebreak c = false) l ->
  splitlines_from cur (l ++ LF :: rest) = (cur ++ l) :: splitlines_from [] rest.
Proof.
  intros H. revert cur. induction H as [|c l Hc _ IH]; intros cur.
  - simpl. rewrite app_nil_r. by destruct rest.
  - simpl. rewrite Hc. rewrite IH. by rewrite <- app_assoc.
Qed.

Lemma contains_char_spec c s : contains_char c s = true <-> c ∈ s.
Proof.
  unfold contains_char. rewrite existsb_exists. split.
  - intros (x & Hin & Heq). apply N.eqb_eq in Heq. subst. by apply list_elem_of_In.
  - intros Hin. exists c. split; [by apply list_elem_of_In | apply N.eqb_refl].
Qed.

Lemma contains_char_false c s : contains_char c s = false <-> c ∉ s.
Proof.
  rewrite <- contains_char_spec. destruct (contains_char c s); naive_solver.
Qed.

Lemma split_first_spec c k v :
  c ∉ k -> split_first c (k ++ c :: v) = (k, v).
Proof.
  induction k as [|x k IH]; simpl; intros Hk.
  - by rewrite N.eqb_refl.
  - apply not_elem_of_cons in Hk as [Hx Hk].
    destruct (N.eqb_spec x c) as [->|_]; [done|]. by rewrite IH.
Qed.

(** Every text with the character splits at its first occurrence. *)
Lemma split_first_inv c s :
  c ∈ s -> exists k v, s = k ++ c :: v /\ (c ∉ k) /\ split_first c s = (k, v).
Proof.
  induction s as [|x s IH]; [by intros ?%elem_of_nil|].
  intros Hin. simpl. destruct (N.eqb_spec x c) as [->|Hne].
  - exists [], s. split_and!; [done | apply not_elem_of_nil | done].
  - apply elem_of_cons in Hin as [->|Hin]; [done|].
    destruct (IH Hin) as (k & v & -> & Hk & ->).
    exists (x :: k), v. split_and!; [done | | done].
    apply not_elem_of_cons. split; [congruence | done].
Qed.

Lemma str_eqb_eq s t : str_eqb s t = true <-> s = t.
Proof. unfold str_eqb. apply bool_decide_eq_true. Qed.

Lemma str_eqb_neq s t : str_eqb s t = false <-> s <> t.
Proof. unfold str_eqb. apply bool_decide_eq_false. Qed.

Lemma str_eqb_refl s : str_eqb s s = true.
Proof. by apply str_eqb_eq. Qed.

(** ** The UTF-8 codec: decoding undoes encoding *)

Lemma to_N_byte_of n : n <= 255 -> Byte.to_N (byte_of n) = n.
Proof.
  intros Hn. unfold byte_of. destruct (Byte.of_N n) eqn:E.
  - by apply Byte.to_of_N in E.
  - apply Byte.of_N_None_iff in E. lia.
Qed.

Ltac split_comparisons :=
  repeat (match goal with
          | |- context [N.ltb ?a ?c] => destruct (N.ltb_spec a c)
          | |- context [N.leb ?a ?c] => destruct (N.leb_spec a c)
          | |- context [N.eqb ?a ?c] => destruct (N.eqb_spec a c)
          end; try lia; cbn [andb negb orb]).

(** The quotient and the remainder of a code point by 64, as the encoder
    takes them. *)
Lemma sextet (c : N) : c = 64 * (c / 64) + c mod 64 /\ c mod 64 < 64.
Proof. split; [apply N.div_mod' | by apply N.mod_lt]. Qed.

Lemma decode_encode_char c cs rest :
  encode_char c = Some cs -> utf8_decode (cs ++ rest) = c :: utf8_decode rest.
Proof.
  unfold encode_char.
  replace (c / 4096) with (c / 64 / 64) by (by rewrite N.Div0.div_div).
  replace (c / 262144) with (c / 64 / 64 / 64) by (by rewrite !N.Div0.div_div).
  destruct (sextet c) as [Hc Hd].
  destruct (sextet (c / 64)) as [Hc1 Hd1].
  destruct (sextet (c / 64 / 64)) as [Hc2 Hd2].
  generalize dependent (c mod 64). intros d Hc Hd.
  generalize dependent ((c / 64) mod 64). intros d1 Hc1 Hd1.
  generalize dependent ((c / 64 / 64) mod 64). intros d2 Hc2 Hd2.
  generalize dependent (c / 64 / 64 / 64). intros q3 Hc2.
  generalize dependent (c / 64 / 64). intros q2 Hc1 Hc2.
  generalize dependent (c / 64). intros q1 Hc Hc1.
  destruct (N.ltb_spec c 128).
  { intros [= <-]. cbn [app utf8_decode]. rewrite to_N_byte_of by lia.
    split_comparisons; done. }
  destruct (N.ltb_spec c 2048).
  { intros [= <-]. cbn [app utf8_decode]. rewrite !to_N_byte_of by lia.
    unfold is_cont; split_comparisons; f_equal; lia. }
  destruct (N.ltb_spec c 65536).
  { destruct (N.leb_spec 55296 c); destruct (N.leb_spec c 57343);
      cbn [andb]; try discriminate.
    all: intros [= <-]; cbn [app utf8_decode]; rewrite !to_N_byte_of by lia.
    all: unfold second_of_3, is_cont; split_comparisons; f_equal; lia. }
  destruct (N.ltb_spec c 1114112); [|discriminate].
  intros [= <-]. cbn [app utf8_decode]. rewrite !to_N_byte_of by lia.
  unfold second_of_4, is_cont; split_comparisons; f_equal; lia.
Qed.

Lemma utf8_decode_encode s bs : utf8_encode s = Some bs -> utf8_decode bs = s.
Proof.
  revert bs. induction s as [|c s IH]; intros bs; cbn [utf8_encode].
  - by intros [= <-].
  - destruct (encode_char c) as [cs|] eqn:Ec; [|discriminate].
    destruct (utf8_encode s) as [rest|] eqn:Es; [|discriminate].
    intros [= <-]. rewrite (decode_encode_char c cs rest Ec).
    by rewrite (IH rest).
Qed.

(** ** Texts that every encoder takes *)

Lemma plain_text_encode s : plain_text s <-> is_Some (utf8_encode s).
Proof.
  induction s as [|c s IH]; cbn [utf8_encode].
  - split; [by eexists | constructor].
  - split.
    + intros [[cs Hc] [bs Hs]%IH]%Forall_cons. rewrite Hc, Hs. by eexists.
    + intros [bs H]. destruct (encode_char c) as [cs|] eqn:Hc; [|done].
      destruct (utf8_encode s) as [rest|] eqn:Hs; [|done].
      apply Forall_cons. split; [by eexists|]. apply IH. by eexists.
Qed.

Lemma encode_with_plain h s : plain_text s -> encode_with h s = utf8_encode s.
Proof.
  induction 1 as [|c s [cs Hc] _ IH]; [done|].
  cbn [encode_with utf8_encode]. unfold encode_char_with. by rewrite Hc, IH.
Qed.

Lemma plain_text_app s t : plain_text (s ++ t) <-> plain_text s /\ plain_text t.
Proof. apply Forall_app. Qed.

Lemma plain_text_ascii s :
  forallb (fun c => c <? 128) s = true -> plain_text s.
Proof.
  intros H. apply Forall_forall. intros c Hc. rewrite forallb_forall in H.
  specialize (H c (proj1 (list_elem_of_In _ _) Hc)). unfold encode_char.
  rewrite H. by eexists.
Qed.

Lemma fsdecode_encode_char c cs rest :
  encode_char c = Some cs -> fsdecode (cs ++ rest) = c :: fsdecode rest.
Proof.
  unfold encode_char.
  replace (c / 4096) with (c / 64 / 64) by (by rewrite N.Div0.div_div).
  replace (c / 262144) with (c / 64 / 64 / 64) by (by rewrite !N.Div0.div_div).
  destruct (sextet c) as [Hc Hd].
  destruct (sextet (c / 64)) as [Hc1 Hd1].
  destruct (sextet (c / 64 / 64)) as [Hc2 Hd2].
  generalize dependent (c mod 64). intros d Hc Hd.
  generalize dependent ((c / 64) mod 64). intros d1 Hc1 Hd1.
  generalize dependent ((c / 64 / 64) mod 64). intros d2 Hc2 Hd2.
  generalize dependent (c / 64 / 64 / 64). intros q3 Hc2.
  generalize dependent (c / 64 / 64). intros q2 Hc1 Hc2.
  generalize dependent (c / 64). intros q1 Hc Hc1.
  destruct (N.ltb_spec c 128).
  { intros [= <-]. cbn [app fsdecode]. rewrite to_N_byte_of by lia.
    split_comparisons; done. }
  destruct (N.ltb_spec c 2048).
  { intros [= <-]. cbn [app fsdecode]. rewrite !to_N_byte_of by lia.
    unfold is_cont; split_comparisons; f_equal; lia. }
  destruct (N.ltb_spec c 65536).
  { destruct (N.leb_spec 55296 c); destruct (N.leb_spec c 57343);
      cbn [andb]; try discriminate.
    all: intros [= <-]; cbn [app fsdecode]; rewrite !to_N_byte_of by lia.
    all: unfold second_of_3, is_cont; split_comparisons; f_equal; lia. }
  destruct (N.ltb_spec c 1114112); [|discriminate].
  intros [= <-]. cbn [app fsdecode]. rewrite !to_N_byte_of by lia.
  unfold second_of_4, is_cont; split_comparisons; f_equal; lia.
Qed.

Lemma fsdecode_encode s bs : utf8_encode s = Some bs -> fsdecode bs = s.
Proof.
  revert bs. induction s as [|c s IH]; intros bs; cbn [utf8_encode].
  - by intros [= <-].
  - destruct (encode_char c) as [cs|] eqn:Ec; [|discriminate].
    destruct (utf8_encode s) as [rest|] eqn:Es; [|discriminate].
    intros [= <-]. rewrite (fsdecode_encode_char c cs rest Ec).
    by rewrite (IH rest).
Qed.

(** The name of a file is listed as it was given, when it is plain text. *)
Lemma listed_name_plain name : plain_text name -> Reader.listed_name name = name.
Proof.
  intros Hp. unfold Reader.listed_name, fsencode. rewrite encode_with_plain by done.
  apply plain_text_encode in Hp as [bs Hbs]. rewrite Hbs.
  by apply fsdecode_encode.
Qed.

(** The lenient decoder yields plain text: what it cannot decode becomes
    U+FFFD, never a surrogate. *)
Lemma encode_char_is_Some c :
  c < 55296 \/ (57343 < c /\ c < 1114112) -> is_Some (encode_char c).
Proof.
  intros Hc. unfold encode_char.
  destruct (N.ltb_spec c 128); [by eexists|].
  destruct (N.ltb_spec c 2048); [by eexists|].
  destruct (N.ltb_spec c 65536).
  - destruct (N.leb_spec 55296 c), (N.leb_spec c 57343); cbn [andb];
      try (by eexists). lia.
  - destruct (N.ltb_spec c 1114112); [by eexists | lia].
Qed.

Lemma utf8_decode_plain_upto n : forall bs,
  (length bs <= n)%nat -> plain_text (utf8_decode bs).
Proof.
  assert (is_Some (encode_char REPLACEMENT)) as Hrep by (by eexists).
  induction n as [|n IH]; intros bs Hlen.
  { destruct bs; [constructor | simpl in Hlen; lia]. }
  destruct bs as [|b0 r0]; [constructor|].
  cbn [length] in Hlen.
  assert (forall r, (length r <= length r0)%nat -> plain_text (utf8_decode r)) as Hrec.
  { intros r Hr. apply IH. lia. }
  pose proof (Byte.to_N_bounded b0) as Hb0.
  cbn [utf8_decode]. set (c0 := Byte.to_N b0) in *. clearbody c0.
  unfold plain_text in *.
  destruct (N.ltb_spec c0 128).
  { apply Forall_cons. split; [apply encode_char_is_Some; lia | by apply Hrec]. }
  destruct (N.ltb_spec c0 194).
  { apply Forall_cons. split; [done | by apply Hrec]. }
  destruct (N.ltb_spec c0 224).
  { destruct r0 as [|b1 r1]; [by repeat constructor|].
    pose proof (Byte.to_N_bounded b1) as Hb1.
    set (c1 := Byte.to_N b1) in *. clearbody c1. cbn [length] in Hrec.
    destruct (is_cont c1) eqn:E1.
    - apply Forall_cons. split; [|apply Hrec; simpl; lia].
      apply encode_char_is_Some. unfold is_cont in E1. lia.
    - apply Forall_cons. split; [done | by apply Hrec]. }
  destruct (N.ltb_spec c0 240).
  { destruct r0 as [|b1 r1]; [by repeat constructor|].
    pose proof (Byte.to_N_bounded b1) as Hb1.
    set (c1 := Byte.to_N b1) in *. clearbody c1. cbn [length] in Hrec.
    destruct (second_of_3 c0 c1) eqn:E1.
    2:{ apply Forall_cons. split; [done | by apply Hrec]. }
    destruct r1 as [|b2 r2]; [by repeat constructor|].
    pose proof (Byte.to_N_bounded b2) as Hb2.
    set (c2 := Byte.to_N b2) in *. clearbody c2. cbn [length] in Hrec.
    destruct (is_cont c2) eqn:E2.
    - apply Forall_cons. split; [|apply Hrec; simpl; lia].
      apply encode_char_is_Some. unfold second_of_3, is_cont in *.
      revert E1 E2. split_comparisons; intros; try discriminate; lia.
    - apply Forall_cons. split; [done | apply Hrec; simpl; lia]. }
  destruct (N.ltb_spec c0 245).
  { destruct r0 as [|b1 r1]; [by repeat constructor|].
    pose proof (Byte.to_N_bounded b1) as Hb1.
    set (c1 := Byte.to_N b1) in *. clearbody c1. cbn [length] in Hrec.
    destruct (second_of_4 c0 c1) eqn:E1.
    2:{ apply Forall_cons. split; [done | by apply Hrec]. }
    destruct r1 as [|b2 r2]; [by repeat constructor|].
    pose proof (Byte.to_N_bounded b2) as Hb2.
    set (c2 := Byte.to_N b2) in *. clearbody c2. cbn [length] in Hrec.
    destruct (is_cont c2) eqn:E2.
    2:{ apply Forall_cons. split; [done | apply Hrec; simpl; lia]. }
    destruct r2 as [|b3 r3]; [by repeat constructor|].
    pose proof (Byte.to_N_bounded b3) as Hb3.
    set (c3 := Byte.to_N b3) in *. clearbody c3. cbn [length] in Hrec.
    destruct (is_cont c3) eqn:E3.
    - apply Forall_cons. split; [|apply Hrec; simpl; lia].
      apply encode_char_is_Some. unfold second_of_4, is_cont in *.
      revert E1 E2 E3. split_comparisons; intros; try discriminate; lia.
    - apply Forall_cons. split; [done | apply Hrec; simpl; lia]. }
  apply Forall_cons. split; [done | by apply Hrec].
Qed.

Lemma utf8_decode_plain bs : plain_text (utf8_decode bs).
Proof. by apply (utf8_decode_plain_upto (length bs)). Qed.

(** Lines and stripped lines have the code points of their text. *)
Lemma Forall_dropwhile {A} (P : A -> Prop) p l :
  Forall P l -> Forall P (dropwhile p l).
Proof.
  induction 1 as [|x l Hx Hl IH]; simpl; [constructor|].
  destruct (p x); [done | by constructor].
Qed.

Lemma Forall_strip (P : N -> Prop) s : Forall P s -> Forall P (strip s).
Proof.
  intros H. unfold strip, rstrip_chars, lstrip_chars.
  apply Forall_rev, Forall_dropwhile, Forall_rev. by apply Forall_dropwhile.
Qed.

Lemma Forall_splitlines_upto (P : N -> Prop) n : forall cur s,
  (length s <= n)%nat -> Forall P cur -> Forall P s ->
  Forall (Forall P) (splitlines_from cur s).
Proof.
  induction n as [|n IH]; intros cur s Hlen Hcur Hs.
  { destruct s; [|simpl in Hlen; lia]. simpl.
    destruct cur; [apply Forall_nil_2 | by apply Forall_singleton]. }
  destruct s as [|c rest].
  { simpl. destruct cur; [apply Forall_nil_2 | by apply Forall_singleton]. }
  cbn [length] in Hlen. apply Forall_cons in Hs as [Hc Hrest].
  cbn [splitlines_from]. destruct (is_linebreak c).
  - destruct rest as [|c' rest'].
    + apply Forall_cons. split; [done|]. apply IH; [simpl; lia | constructor | constructor].
    + apply Forall_cons in Hrest as [Hc' Hrest']. cbn [length] in Hlen.
      destruct ((c =? CR) && (c' =? LF)).
      * apply Forall_cons. split; [done|]. apply IH; [lia | constructor | done].
      * apply Forall_cons. split; [done|].
        apply IH; [simpl; lia | constructor | by constructor].
  - apply IH; [lia | | done]. apply Forall_app. split; [done | by repeat constructor].
Qed.

Lemma Forall_splitlines (P : N -> Prop) s :
  Forall P s -> Forall (Forall P) (splitlines s).
Proof. intros H. by apply (Forall_splitlines_upto P (length s)); [|constructor|]. Qed.

(** ** Properties of the frame *)

Module WireProofs.

Import Reader.

(** *** Facts about dictionaries *)

Lemma dict_set_fresh k v d : k ∉ keys d -> dict_set k v d = d ++ [(k, v)].
Proof.
  induction d as [|[k' v'] d IH]; simpl; [done|].
  intros Hk. apply not_elem_of_cons in Hk as [Hne Hk].
  destruct (str_eqb k' k) eqn:E; [apply str_eqb_eq in E; congruence|].
  by rewrite IH.
Qed.

Lemma dict_get_set_eq k v d : dict_get k (dict_set k v d) = Some v.
Proof.
  induction d as [|[k' v'] d IH]; simpl.
  - by rewrite str_eqb_refl.
  - destruct (str_eqb k' k) eqn:E; simpl; [by rewrite str_eqb_refl | by rewrite E].
Qed.

Lemma dict_get_set_ne k k' v d :
  k <> k' -> dict_get k' (dict_set k v d) = dict_get k' d.
Proof.
  intros Hne. induction d as [|[k0 v0] d IH]; simpl.
  - by apply str_eqb_neq in Hne as ->.
  - destruct (str_eqb k0 k) eqn:E; simpl.
    + apply str_eqb_eq in E. subst k0.
      by apply str_eqb_neq in Hne as ->.
    + by rewrite IH.
Qed.

Lemma dict_set_not_nil k v d : dict_set k v d <> [].
Proof. destruct d as [|[k' v'] d]; simpl; [done|]. by destruct (str_eqb k' k). Qed.

Lemma elem_of_dict_set k v d kv :
  kv ∈ dict_set k v d -> kv = (k, v) \/ kv ∈ d.
Proof.
  induction d as [|[k' v'] d IH]; simpl.
  - intros ?%list_elem_of_singleton. by left.
  - destruct (str_eqb k' k); intros [->|H]%elem_of_cons.
    + by left.
    + right. by apply elem_of_cons; right.
    + right. by apply elem_of_cons; left.
    + destruct (IH H) as [->|?]; [by left | right; by apply elem_of_cons; right].
Qed.

Lemma fold_assign_fresh l acc :
  NoDup (keys (acc ++ l)) -> fold_left assign l acc = acc ++ l.
Proof.
  revert acc. induction l as [|[k v] l IH]; intros acc Hnd; simpl.
  - by rewrite app_nil_r.
  - unfold assign at 2. simpl. rewrite dict_set_fresh.
    + rewrite IH; rewrite <- app_assoc; done.
    + unfold keys in *. rewrite map_app in Hnd. simpl in Hnd.
      apply NoDup_app in Hnd as (_ & Hdis & _).
      intros Hin. apply (Hdis k Hin). by apply elem_of_cons; left.
Qed.

Lemma fold_assign_dict d : NoDup (keys d) -> fold_left assign d [] = d.
Proof. intros H. by rewrite fold_assign_fresh. Qed.

(** *** The parser of the Receiver *)

Lemma header_text_decodes : utf8_decode QUBESDB_HEADER = HEADER_TEXT ++ [LF].
Proof. reflexivity. Qed.

Lemma footer_text_decodes : utf8_decode QUBESDB_FOOTER = LF :: FOOTER_TEXT ++ [LF].
Proof. reflexivity. Qed.

Lemma marker_no_equals s :
  EQUALS ∈ s -> s <> HEADER_TEXT /\ s <> FOOTER_TEXT /\ s <> [].
Proof.
  intros Hin%contains_char_spec. split_and!; intros ->; by vm_compute in Hin.
Qed.

(** A line that is blank or a marker once stripped leaves the entries as
    they are. *)
Lemma parse_line_skip entries line :
  strip line = [] \/ strip line = HEADER_TEXT \/ strip line = FOOTER_TEXT ->
  parse_line entries line = entries.
Proof.
  unfold parse_line. intros [-> | [-> | ->]]; reflexivity.
Qed.

(** So does any other line without an equals sign. *)
Lemma parse_line_ignore entries line :
  EQUALS ∉ strip line -> parse_line entries line = entries.
Proof.
  intros H%contains_char_false. unfold parse_line. rewrite H.
  by destruct (_ || _).
Qed.

(** A line with an equals sign is split at the first one. *)
Lemma parse_line_pair entries line k v :
  strip line = k ++ EQUALS :: v -> EQUALS ∉ k ->
  parse_line entries line = dict_set k v entries.
Proof.
  intros Hs Hk. unfold parse_line. rewrite Hs.
  assert (EQUALS ∈ k ++ EQUALS :: v) as Hin by set_solver.
  destruct (marker_no_equals _ Hin) as (H1 & H2 & H3).
  apply str_eqb_neq in H1 as ->. apply str_eqb_neq in H2 as ->.
  apply str_eqb_neq in H3 as ->. simpl.
  apply contains_char_spec in Hin as ->.
  by rewrite split_first_spec.
Qed.

Lemma frame_rule_fold lines entries final :
  frame_rule lines entries final -> final = fold_left parse_line lines entries.
Proof.
  induction 1 as [ | line lines entries final Hs _ IH
                   | line lines entries final Hs _ IH
                   | line lines entries final Hs _ IH
                   | line lines entries final k v Hs Hk _ IH ]; simpl.
  - done.
  - rewrite parse_line_skip; [done | by left].
  - rewrite parse_line_skip; [done | by right].
  - by rewrite parse_line_ignore.
  - by rewrite (parse_line_pair _ _ k v).
Qed.

Lemma fold_frame_rule lines entries :
  frame_rule lines entries (fold_left parse_line lines entries).
Proof.
  revert entries. induction lines as [|line lines IH]; intros entries; simpl.
  - constructor.
  - destruct (decide (EQUALS ∈ strip line)) as [Hin|Hnin].
    + destruct (split_first_inv _ _ Hin) as (k & v & Hs & Hk & _).
      rewrite (parse_line_pair _ _ k v) by done.
      by apply (rule_pair _ _ _ _ k v).
    + rewrite parse_line_ignore by done. by apply rule_malformed.
Qed.

(** C9.  The parser of the Receiver does what the frame rule says: a line
    that is blank or a marker once stripped is skipped, any other line
    without an equals sign is ignored, and every remaining line is split at
    its first equals sign and assigned; the result of the source's loop is
    the one and only result of that rule.  On the frame with the line
    [garbage-no-equals] between two valid lines the result is exactly the two
    valid pairs. *)
Theorem parser_follows_frame_rule :
  (forall text final,
     frame_rule (splitlines text) [] final <-> final = parse_text text) /\
  parse_text scenario_text = [(u "/name", u "work"); (u "/memory", u "4096")].
Proof.
  split.
  - intros text final. unfold parse_text. split.
    + apply frame_rule_fold.
    + intros ->. apply fold_frame_rule.
  - reflexivity.
Qed.

(** Every key and value of a parse comes from a stripped line. *)
Lemma parse_line_entries entries line kv :
  kv ∈ parse_line entries line ->
  kv ∈ entries \/ strip line = fst kv ++ EQUALS :: snd kv.
Proof.
  unfold parse_line.
  destruct (_ || _); [by left|].
  destruct (contains_char EQUALS (strip line)) eqn:E; [|by left].
  apply contains_char_spec in E.
  destruct (split_first_inv _ _ E) as (k & v & Hs & _ & ->).
  intros [->|H]%elem_of_dict_set; [by right | by left].
Qed.

Lemma fold_parse_line_entries lines entries kv :
  kv ∈ fold_left parse_line lines entries ->
  kv ∈ entries \/ exists line, strip line = fst kv ++ EQUALS :: snd kv.
Proof.
  revert entries. induction lines as [|line lines IH]; intros entries; simpl.
  - by left.
  - intros H. destruct (IH _ H) as [H'|H']; [|by right].
    destruct (parse_line_entries _ _ _ H') as [?|?]; [by left | right; eauto].
Qed.

(** C10.  The parser strips every line before it looks at it: the result
    for a line is the result for the stripped line, whitespace around a line
    changes nothing, and a marker padded with whitespace is skipped.  In
    every parsed frame no key begins with whitespace and no value ends with
    whitespace; a value sent with trailing blanks and a tab comes back
    without them. *)
Theorem parser_strips_lines entries p1 line p2 text k v :
  Forall (fun c => is_space c = true) p1 ->
  Forall (fun c => is_space c = true) p2 ->
  (k, v) ∈ parse_text text ->
  parse_line entries line = parse_line entries (strip line) /\
  parse_line entries (p1 ++ line ++ p2) = parse_line entries line /\
  parse_line entries (p1 ++ HEADER_TEXT ++ p2) = entries /\
  parse_line entries (p1 ++ FOOTER_TEXT ++ p2) = entries /\
  no_leading_space k /\
  no_trailing_space v /\
  parse_text (u "/name=work  " ++ [9; LF]) = [(u "/name", u "work")].
Proof.
  intros H1 H2 Hin.
  assert (forall l, parse_line entries (p1 ++ l ++ p2) = parse_line entries l) as Hpad.
  { intros l. unfold parse_line. by rewrite strip_padded. }
  split_and!.
  - unfold parse_line. by rewrite strip_strip.
  - apply Hpad.
  - rewrite Hpad. reflexivity.
  - rewrite Hpad. reflexivity.
  - unfold parse_text in Hin.
    apply fold_parse_line_entries in Hin as [Hin | (l & Hs)];
      [by apply elem_of_nil in Hin|].
    simpl in Hs. intros c r ->. by apply (strip_head l c (r ++ EQUALS :: v)).
  - unfold parse_text in Hin.
    apply fold_parse_line_entries in Hin as [Hin | (l & Hs)];
      [by apply elem_of_nil in Hin|].
    simpl in Hs. intros r c ->. apply (strip_last l (k ++ EQUALS :: r) c).
    rewrite Hs. by rewrite <- app_assoc.
  - reflexivity.
Qed.

(** *** The round trip of a frame *)

Lemma entry_line_no_linebreak kv :
  wire_entry kv -> no_linebreak (entry_line kv).
Proof.
  intros ((_ & Hk & _) & Hv & _). unfold entry_line, no_linebreak.
  apply Forall_app. split; [done|]. by constructor.
Qed.

Lemma entry_line_stripped kv :
  wire_entry kv -> strip (entry_line kv) = entry_line kv.
Proof.
  intros ((_ & _ & Hk) & _ & Hv). destruct kv as [k v]. simpl in *.
  apply strip_fixed; unfold entry_line; simpl.
  - intros c r Heq. destruct k as [|c' k]; simpl in Heq.
    + by injection Heq as <- _.
    + injection Heq as <- _. by apply (Hk c' k).
  - intros r c Heq. destruct v as [|x v'] eqn:Ev.
    + apply app_inj_tail in Heq as [_ <-]. reflexivity.
    + destruct (exists_last (l := x :: v')) as (r' & c' & Hlast); [done|].
      rewrite Hlast in Heq, Hv.
      change (k ++ EQUALS :: r' ++ [c']) with (k ++ (EQUALS :: r') ++ [c']) in Heq.
      rewrite app_assoc in Heq. apply app_inj_tail in Heq as [_ <-].
      by apply (Hv r' c').
Qed.

Lemma splitlines_from_entries d rest :
  Forall wire_entry d ->
  splitlines_from [] (concat (map Inject.render_entry d) ++ rest)
  = map entry_line d ++ splitlines_from [] rest.
Proof.
  induction 1 as [|kv d Hkv _ IH]; [done|].
  cbn [map concat].
  assert (Inject.render_entry kv = entry_line kv ++ [LF]) as ->.
  { unfold Inject.render_entry, entry_line. by rewrite <- !app_assoc. }
  rewrite <- !app_assoc. cbn [app].
  rewrite splitlines_from_line by (by apply entry_line_no_linebreak).
  by rewrite IH.
Qed.

(** The lines of a rendered frame: the header, one line per entry, the
    blank line before the footer, and the footer. *)
Lemma splitlines_render d :
  Forall wire_entry d ->
  splitlines (Inject.render d)
  = HEADER_TEXT :: map entry_line d ++ [[]; FOOTER_TEXT].
Proof.
  intros Hd. unfold splitlines, Inject.render.
  rewrite header_text_decodes, <- app_assoc. simpl.
  change (splitlines_from [] (HEADER_TEXT ++ LF :: concat (map Inject.render_entry d) ++ utf8_decode QUBESDB_FOOTER)
          = HEADER_TEXT :: map entry_line d ++ [[]; FOOTER_TEXT]).
  rewrite splitlines_from_line.
  - simpl. f_equal. rewrite splitlines_from_entries by done.
    f_equal.
  - unfold no_linebreak. by vm_compute; repeat constructor.
Qed.

Lemma parse_entry_line entries kv :
  wire_entry kv -> parse_line entries (entry_line kv) = assign entries kv.
Proof.
  intros Hkv. apply parse_line_pair.
  - by apply entry_line_stripped.
  - by destruct Hkv as ((? & _) & _).
Qed.

Lemma fold_parse_entry_lines d entries :
  Forall wire_entry d ->
  fold_left parse_line (map entry_line d) entries = fold_left assign d entries.
Proof.
  intros H. revert entries. induction H as [|kv d Hkv _ IH]; intros entries; simpl.
  - done.
  - by rewrite parse_entry_line, IH.
Qed.

(** Parsing the frame of a list of entries assigns them in order: a later
    entry with the key of an earlier one replaces its value. *)
Lemma parse_render_items d :
  Forall wire_entry d ->
  parse_text (Inject.render d) = fold_left assign d [].
Proof.
  intros Hd. unfold parse_text. rewrite splitlines_render by done.
  cbn [fold_left]. rewrite fold_left_app. cbn [fold_left].
  rewrite (parse_line_skip [] HEADER_TEXT) by (right; left; reflexivity).
  rewrite fold_parse_entry_lines by done.
  rewrite (parse_line_skip _ []) by (left; reflexivity).
  rewrite (parse_line_skip _ FOOTER_TEXT) by (right; right; reflexivity).
  done.
Qed.

Lemma parse_render d :
  NoDup (keys d) -> Forall wire_entry d ->
  parse_text (Inject.render d) = d.
Proof. intros Hnd Hd. rewrite parse_render_items by done. by apply fold_assign_dict. Qed.

(** Among entries that survive the wire, the last one with a key decides the
    value parsed for it. *)
Lemma fold_assign_other k items : forall acc,
  k ∉ keys items -> dict_get k (fold_left assign items acc) = dict_get k acc.
Proof.
  induction items as [|[k' v'] items IH]; intros acc Hk; [done|].
  cbn [keys map fst] in Hk. apply not_elem_of_cons in Hk as [Hne Hk].
  cbn [fold_left]. rewrite IH by done. unfold assign. cbn [fst snd].
  by apply dict_get_set_ne.
Qed.

Lemma fold_assign_last k v items rest acc :
  k ∉ keys rest ->
  dict_get k (fold_left assign (items ++ (k, v) :: rest) acc) = Some v.
Proof.
  intros Hk. rewrite fold_left_app. cbn [fold_left].
  rewrite fold_assign_other by done. apply dict_get_set_eq.
Qed.

(** C4 (as amended).  For a dictionary whose keys have no equals sign, no
    line boundary and no whitespace in front, and whose values have no line
    boundary and no whitespace at the end, the Receiver parses the frame the
    Sender renders, as text and as the bytes put on the wire, back into
    exactly that dictionary.  For a list of such entries with repeated keys
    the frame parses to the entries assigned in order, so that the last
    value of a key wins. *)
Theorem frame_round_trip entries data :
  NoDup (keys entries) ->
  Forall wire_entry entries ->
  utf8_encode (Inject.render entries) = Some data ->
  parse_text (Inject.render entries) = entries /\
  parse_data data = entries /\
  (forall items, Forall wire_entry items ->
     parse_text (Inject.render items) = fold_left assign items []) /\
  (forall items k v rest,
     Forall wire_entry (items ++ (k, v) :: rest) -> k ∉ keys rest ->
     dict_get k (parse_text (Inject.render (items ++ (k, v) :: rest))) = Some v).
Proof.
  intros Hnd Hwire Henc. split_and!.
  - by apply parse_render.
  - unfold parse_data. rewrite (utf8_decode_encode _ _ Henc). by apply parse_render.
  - apply parse_render_items.
  - intros items k v rest Hall Hk. rewrite parse_render_items by done.
    by apply fold_assign_last.
Qed.

Lemma wire_entry_ascii k v :
  contains_char EQUALS k = false ->
  forallb (fun c => negb (is_linebreak c)) (k ++ v) = true ->
  forallb (fun c => negb (is_space c)) (firstn 1 k ++ firstn 1 (rev v)) = true ->
  wire_entry (k, v).
Proof.
  intros Heq Hlb Hsp. rewrite forallb_app in Hlb, Hsp.
  apply andb_true_iff in Hlb as [Hlbk Hlbv]. apply andb_true_iff in Hsp as [Hspk Hspv].
  assert (forall s, forallb (fun c => negb (is_linebreak c)) s = true -> no_linebreak s) as Hno.
  { intros s Hs. apply Forall_forall. intros c Hc.
    rewrite forallb_forall in Hs. apply negb_true_iff, Hs. by apply list_elem_of_In. }
  unfold wire_entry, wire_key, wire_value. cbn [fst snd].
  split; [split_and! | split].
  - by apply contains_char_false.
  - by apply Hno.
  - intros c r ->. simpl in Hspk. by destruct (is_space c).
  - by apply Hno.
  - intros r c ->. rewrite rev_app_distr in Hspv. simpl in Hspv.
    by destruct (is_space c).
Qed.

Lemma frame_round_trip_witness :
  NoDup (keys two_entries) /\
  Forall wire_entry two_entries /\
  utf8_encode (Inject.render two_entries)
  = Some (QUBESDB_HEADER ++ b "/name=work" ++ [Byte.x0a]
          ++ b "/memory=4096" ++ [Byte.x0a] ++ QUBESDB_FOOTER) /\
  parse_data (QUBESDB_HEADER ++ b "/name=work" ++ [Byte.x0a]
              ++ b "/memory=4096" ++ [Byte.x0a] ++ QUBESDB_FOOTER) = two_entries.
Proof.
  assert (NoDup (keys two_entries)) as Hnd.
  { apply (bool_decide_unpack _). by vm_compute. }
  assert (Forall wire_entry two_entries) as Hwire.
  { apply Forall_cons_2; [apply wire_entry_ascii; by vm_compute|].
    apply Forall_cons_2; [apply wire_entry_ascii; by vm_compute|].
    apply Forall_nil_2. }
  assert (utf8_encode (Inject.render two_entries)
          = Some (QUBESDB_HEADER ++ b "/name=work" ++ [Byte.x0a]
                  ++ b "/memory=4096" ++ [Byte.x0a] ++ QUBESDB_FOOTER)) as Henc
    by (by vm_compute).
  split; [exact Hnd|]. split; [exact Hwire|]. split; [exact Henc|].
  destruct (frame_round_trip two_entries _ Hnd Hwire Henc) as (_ & Hdata & _).
  exact Hdata.
Defined.

(** C4, the claim as stated fails: key and value are not empty, the key has
    no equals sign, and the value comes back without its last character. *)
Lemma trailing_blank_is_lost :
  Forall (fun kv => fst kv <> [] /\ snd kv <> [] /\ contains_char EQUALS (fst kv) = false)
         padded_entry /\
  NoDup (keys padded_entry) /\
  parse_text (Inject.render padded_entry) = [(u "/name", u "work")] /\
  option_map parse_data (utf8_encode (Inject.render padded_entry))
  = Some [(u "/name", u "work")] /\
  parse_text (Inject.render padded_entry) <> padded_entry.
Proof.
  split_and!.
  - apply Forall_cons_2; [by vm_compute | apply Forall_nil_2].
  - apply (bool_decide_unpack _). by vm_compute.
  - by vm_compute.
  - by vm_compute.
  - by vm_compute.
Qed.

Lemma parser_strips_lines_witness :
  Forall (fun c => is_space c = true) [32] /\
  Forall (fun c => is_space c = true) [32; 9] /\
  (u "/name", u "work") ∈ parse_text (u " /name=work " ++ [9; LF]) /\
  parse_line [] ([32] ++ u "/name=work" ++ [32; 9]) = parse_line [] (u "/name=work") /\
  parse_line [] ([32] ++ FOOTER_TEXT ++ [32; 9]) = [] /\
  no_trailing_space (u "work").
Proof.
  assert (Forall (fun c => is_space c = true) [32]) as H1
    by (repeat constructor).
  assert (Forall (fun c => is_space c = true) [32; 9]) as H2
    by (repeat constructor).
  assert ((u "/name", u "work") ∈ parse_text (u " /name=work " ++ [9; LF])) as H3
    by (vm_compute; apply list_elem_of_here).
  split; [exact H1|]. split; [exact H2|]. split; [exact H3|].
  destruct (parser_strips_lines [] [32] (u "/name=work") [32; 9]
              (u " /name=work " ++ [9; LF]) (u "/name") (u "work") H1 H2 H3)
    as (_ & Hpad & _ & Hfooter & _ & Hv & _).
  split; [exact Hpad|]. split; [exact Hfooter | exact Hv].
Defined.

End WireProofs.

(** ** Properties of the Receiver *)

Module ReaderProofs.

Import Reader ReaderSpec.
Local Open Scope py_scope.

(** *** The wait phase *)

Lemma after_polls_0 w : after_polls w 0 = w.
Proof.
  destruct w. unfold after_polls, with_clock. simpl.
  rewrite app_nil_r. f_equal. lia.
Qed.

Lemma after_polls_S w n :
  after_polls (with_clock w (now w + 1000)%Z (naps w ++ [1000%Z])) n
  = after_polls w (S n).
Proof.
  destruct w. unfold after_polls, with_clock. cbn [now naps port_exists_at port_opens device cache_file entry_files stderr stdout].
  rewrite <- app_assoc. cbn [app repeat]. f_equal. lia.
Qed.

(** The loop sleeps one second at a time, stops at the first poll that
    finds the endpoint or after [timeout] polls, and when it stops the
    condition of the [while] is false. *)
Lemma wait_loop_spec polls : forall waited timeout w,
  polls = Z.to_nat (timeout - waited) ->
  exists n,
    (n <= polls)%nat /\
    wait_loop polls waited timeout w = (after_polls w n, Ok (waited + Z.of_nat n)%Z) /\
    (forall i, (i < n)%nat ->
       port_exists_at w (now w + 1000 * Z.of_nat i)%Z = false) /\
    (port_exists_at w (now w + 1000 * Z.of_nat n)%Z = true
     \/ (timeout <= waited + Z.of_nat n)%Z).
Proof.
  induction polls as [|polls IH]; intros waited timeout w Hp.
  - exists 0%nat. rewrite after_polls_0. split_and!; [lia | | lia |].
    + simpl. unfold ret. do 2 f_equal. lia.
    + right. lia.
  - cbn [wait_loop]. unfold bind at 1, port_exists at 1.
    destruct (port_exists_at w (now w)) eqn:He; cbn [negb andb].
    + exists 0%nat. rewrite after_polls_0. split_and!; [lia | | lia |].
      * unfold ret. do 2 f_equal. lia.
      * left. by replace (now w + 1000 * Z.of_nat 0)%Z with (now w) by lia.
    + assert ((waited <? timeout)%Z = true) as -> by (apply Z.ltb_lt; lia).
      unfold bind at 1, sleep at 1.
      set (w1 := with_clock w (now w + 1000)%Z (naps w ++ [1000%Z])).
      destruct (IH (waited + 1)%Z timeout w1 ltac:(lia)) as (n & Hn & Heq & Hbefore & Hstop).
      exists (S n). split_and!.
      * lia.
      * rewrite Heq. unfold w1. rewrite after_polls_S. do 2 f_equal. lia.
      * intros i Hi. destruct i as [|i].
        -- by replace (now w + 1000 * Z.of_nat 0)%Z with (now w) by lia.
        -- specialize (Hbefore i ltac:(lia)). destruct w; simpl in *.
           rewrite <- Hbefore. f_equal. lia.
      * destruct Hstop as [Hstop|Hstop]; [left | right; lia].
        destruct w; simpl in *. rewrite <- Hstop. f_equal. lia.
Qed.

(** Against an endpoint that never appears the loop sleeps [timeout] times. *)
Lemma wait_loop_never timeout w :
  (0 <= timeout)%Z ->
  (forall t, port_exists_at w t = false) ->
  wait_loop (Z.to_nat timeout) 0 timeout w
  = (after_polls w (Z.to_nat timeout), Ok timeout).
Proof.
  intros Ht Hnever.
  destruct (wait_loop_spec (Z.to_nat timeout) 0 timeout w ltac:(f_equal; lia))
    as (n & Hn & Heq & _ & [Hstop|Hstop]).
  - by rewrite Hnever in Hstop.
  - assert (n = Z.to_nat timeout) as -> by lia.
    rewrite Heq. do 2 f_equal. lia.
Qed.

Lemma read_from_virtio_never timeout w :
  (0 <= timeout)%Z ->
  (forall t, port_exists_at w t = false) ->
  read_from_virtio timeout w
  = (with_stderr (after_polls w (Z.to_nat timeout))
       (stderr w ++ [Waiting; NotFoundAfter timeout]), Ok []).
Proof.
  intros Ht Hnever. unfold read_from_virtio, wait_for_port.
  unfold bind at 1. unfold bind at 1, port_exists at 1. rewrite Hnever. cbn [negb].
  unfold bind at 1. unfold print_err at 1.
  unfold bind at 1.
  set (w1 := with_stderr w (stderr w ++ [Waiting])).
  rewrite (wait_loop_never timeout w1 Ht) by (by destruct w).
  unfold bind at 1, port_exists at 1.
  replace (port_exists_at (after_polls w1 (Z.to_nat timeout)) _) with false
    by (by destruct w; simpl; rewrite Hnever).
  cbn [negb]. unfold bind at 1, print_err at 1. unfold ret.
  f_equal. destruct w; unfold after_polls, with_stderr, with_clock; simpl.
  by rewrite <- app_assoc.
Qed.

(** *** What an action leaves alone, and what it can raise *)

Section Frame.
Context {A B : Type}.

Lemma keeps_cache_ret (a : A) : keeps_cache (ret a).
Proof. by intros w. Qed.

Lemma keeps_cache_raise e : keeps_cache (@raise World exn A e).
Proof. by intros w. Qed.

Lemma keeps_cache_bind (m : M A) (k : A -> M B) :
  keeps_cache m -> (forall a, keeps_cache (k a)) -> keeps_cache (bind m k).
Proof.
  intros Hm Hk w. unfold bind. specialize (Hm w).
  destruct (m w) as [w' [a|e]]; simpl in *; [|done].
  by rewrite Hk.
Qed.

Lemma keeps_cache_try_except (m : M A) handled h :
  keeps_cache m -> (forall e, keeps_cache (h e)) ->
  keeps_cache (try_except m handled h).
Proof.
  intros Hm Hh w. unfold try_except. specialize (Hm w).
  destruct (m w) as [w' [a|e]]; simpl in *; [done|].
  destruct (handled e); [|done]. by rewrite Hh.
Qed.

Lemma raises_only_ret p (a : A) : raises_only p (ret a).
Proof. by intros w e. Qed.

Lemma raises_only_bind p (m : M A) (k : A -> M B) :
  raises_only p m -> (forall a, raises_only p (k a)) -> raises_only p (bind m k).
Proof.
  intros Hm Hk w e. unfold bind. specialize (Hm w).
  destruct (m w) as [w' [a|e']]; simpl in *.
  - apply Hk.
  - intros [= <-]. by apply Hm.
Qed.

Lemma raises_only_weaken (p q : exn -> bool) (m : M A) :
  (forall e, p e = true -> q e = true) -> raises_only p m -> raises_only q m.
Proof. intros Hpq Hm w e H. apply Hpq. by apply (Hm w). Qed.

(** A handler that never raises, for every exception the body can raise. *)
Lemma raises_only_try_except p (m : M A) h :
  raises_only p m -> (forall e, raises_only never (h e)) ->
  raises_only never (try_except m p h).
Proof.
  intros Hm Hh w e. unfold try_except. specialize (Hm w).
  destruct (m w) as [w' [a|e']]; simpl in *; [done|].
  rewrite (Hm e' eq_refl). apply Hh.
Qed.

Lemma never_raises (m : M A) w :
  raises_only never m -> exists a, snd (m w) = Ok a.
Proof.
  intros Hm. specialize (Hm w). destruct (snd (m w)) as [a|e]; [by exists a|].
  by specialize (Hm e eq_refl).
Qed.
End Frame.

Lemma keeps_cache_print_err m : keeps_cache (print_err m).
Proof. by intros w. Qed.
Lemma keeps_cache_print_out m : keeps_cache (print_out m).
Proof. intros w. unfold print_out. by destruct (encode_with _ _). Qed.
Lemma keeps_cache_sleep ms : keeps_cache (sleep ms).
Proof. by intros w. Qed.
Lemma keeps_cache_port_exists : keeps_cache port_exists.
Proof. by intros w. Qed.
Lemma keeps_cache_time_time : keeps_cache time_time.
Proof. by intros w. Qed.
Lemma keeps_cache_open_port : keeps_cache open_port.
Proof. intros w. unfold open_port. by destruct (port_opens w). Qed.
Lemma keeps_cache_f_read : keeps_cache f_read.
Proof. intros w. unfold f_read. by destruct (device w) as [|[]]. Qed.
Lemma keeps_cache_load_cache : keeps_cache load_cache.
Proof. intros w. unfold load_cache. by destruct (cache_file w) as [[| |]|]. Qed.

Lemma raises_only_print_err p m : raises_only p (print_err m).
Proof. by intros w e. Qed.
Lemma raises_only_print_out m : raises_only not_exit (print_out m).
Proof.
  intros w e. unfold print_out. destruct (encode_with _ _); [done|].
  by intros [= <-].
Qed.
Lemma raises_only_sleep p ms : raises_only p (sleep ms).
Proof. by intros w e. Qed.
Lemma raises_only_port_exists p : raises_only p port_exists.
Proof. by intros w e. Qed.
Lemma raises_only_time_time p : raises_only p time_time.
Proof. by intros w e. Qed.
Lemma raises_only_open_port : raises_only is_OSError open_port.
Proof. intros w e. unfold open_port. destruct (port_opens w); [done|]. by intros [= <-]. Qed.
Lemma raises_only_f_read : raises_only is_OSError f_read.
Proof.
  intros w e. unfold f_read. destruct (device w) as [|[]]; try done.
  by intros [= <-].
Qed.

Create HintDb frame.

#[local] Hint Resolve keeps_cache_ret keeps_cache_raise keeps_cache_print_err
  keeps_cache_print_out keeps_cache_sleep keeps_cache_port_exists
  keeps_cache_time_time keeps_cache_open_port keeps_cache_f_read
  keeps_cache_load_cache : frame.
#[local] Hint Resolve raises_only_ret raises_only_print_err raises_only_print_out
  raises_only_sleep raises_only_port_exists raises_only_time_time
  raises_only_open_port raises_only_f_read : frame.

Ltac frame :=
  repeat first
    [ progress eauto with frame
    | apply keeps_cache_bind; [|intros ?]
    | apply raises_only_bind; [|intros ?]
    | apply keeps_cache_try_except; [|intros ?]
    | match goal with |- context [if ?c then _ else _] => destruct c end
    | match goal with |- context [match ?c with _ => _ end] => destruct c end ].

Lemma keeps_cache_for_each {A} (l : list A) (body : A -> M unit) :
  (forall x, keeps_cache (body x)) -> keeps_cache (for_each l body).
Proof. intros H. induction l; simpl; frame. Qed.

Lemma raises_only_for_each {A} p (l : list A) (body : A -> M unit) :
  (forall x, raises_only p (body x)) -> raises_only p (for_each l body).
Proof. intros H. induction l; simpl; frame. Qed.

Lemma keeps_cache_wait_loop polls waited timeout :
  keeps_cache (wait_loop polls waited timeout).
Proof. revert waited. induction polls; intros waited; simpl; frame. Qed.

Lemma raises_only_wait_loop p polls waited timeout :
  raises_only p (wait_loop polls waited timeout).
Proof. revert waited. induction polls; intros waited; simpl; frame. Qed.

Lemma keeps_cache_read_loop steps deadline data :
  keeps_cache (read_loop steps deadline data).
Proof. revert data. induction steps; intros data; simpl; frame. Qed.

Lemma raises_only_read_loop steps deadline data :
  raises_only is_OSError (read_loop steps deadline data).
Proof. revert data. induction steps; intros data; simpl; frame. Qed.

#[local] Hint Resolve keeps_cache_wait_loop raises_only_wait_loop
  keeps_cache_read_loop raises_only_read_loop : frame.

(** The read phase leaves the cache alone and raises nothing: every failure
    of the device is caught and reported. *)
Lemma keeps_cache_read_from_virtio timeout : keeps_cache (read_from_virtio timeout).
Proof.
  unfold read_from_virtio, wait_for_port, read_port. frame.
  intros w. apply (keeps_cache_read_loop _ _ _ w).
Qed.

Lemma read_from_virtio_never_raises timeout :
  raises_only never (read_from_virtio timeout).
Proof.
  unfold read_from_virtio, wait_for_port, read_port. frame.
  apply raises_only_try_except; [|intros e; frame].
  frame. intros w. apply (raises_only_read_loop _ _ _ w).
Qed.

Lemma read_from_virtio_returns timeout w :
  exists entries, snd (read_from_virtio timeout w) = Ok entries.
Proof. apply never_raises, read_from_virtio_never_raises. Qed.

(** *** The read phase *)

Ltac div_lia := zify; Z.div_mod_to_equations; lia.

(** When the loop returns, the footer is in the buffer or the deadline has
    passed: the bound on the iterations is never what stops it. *)
Lemma read_loop_stops steps : forall deadline data w w1 data1,
  (read_steps w deadline <= steps)%nat ->
  read_loop steps deadline data w = (w1, Ok data1) ->
  contains_bytes QUBESDB_FOOTER data1 = true \/ (deadline <= now w1)%Z.
Proof.
  induction steps as [|steps IH]; intros deadline data w w1 data1 Hsteps.
  - simpl. intros [= <- <-]. right. unfold read_steps in Hsteps. div_lia.
  - cbn [read_loop]. unfold bind at 1, time_time at 1.
    destruct (Z.ltb_spec (now w) deadline) as [Hlt|Hge];
      [|intros [= <- <-]; by right].
    unfold bind at 1, f_read at 1. unfold read_steps in Hsteps.
    destruct (device w) as [|[delay chunk|] rest] eqn:Hdev; [| |done].
    + unfold bind at 1, sleep at 1. apply IH.
      unfold read_steps. destruct w; simpl in *. rewrite Hdev. simpl.
      div_lia.
    + destruct chunk as [|c chunk].
      * unfold bind at 1, sleep at 1. apply IH.
        unfold read_steps. destruct w; simpl in *. div_lia.
      * destruct (contains_bytes QUBESDB_FOOTER (data ++ c :: chunk)) eqn:Hf.
        -- intros [= <- <-]. by left.
        -- apply IH. unfold read_steps. destruct w; simpl in *. div_lia.
Qed.

(** With the device open, the read phase returns the parse of whatever the
    loop accumulated. *)
Lemma read_port_spec timeout w w1 data :
  port_opens w = true ->
  let w0 := with_stderr w (stderr w ++ [Reading]) in
  let deadline := (now w + timeout * 1000)%Z in
  read_loop (read_steps w0 deadline) deadline [] w0 = (w1, Ok data) ->
  read_port timeout w = (w1, Ok (parse_data data)).
Proof.
  intros Ho w0 deadline Hloop. unfold read_port.
  unfold bind at 1, print_err at 1.
  fold w0. unfold try_except, bind, open_port, time_time, ret.
  replace (port_opens w0) with true by (by destruct w).
  replace (now w0) with (now w) by (by destruct w).
  fold deadline. by rewrite Hloop.
Qed.

(** When the wait phase ends with the endpoint there, the read phase
    follows. *)
Lemma read_from_virtio_found timeout w w0 :
  wait_for_port timeout w = (w0, Ok false) ->
  read_from_virtio timeout w = read_port timeout w0.
Proof. intros H. unfold read_from_virtio, bind. by rewrite H. Qed.

(** *** The read-or-fallback cycle *)

Lemma main_plain argv : plain argv = true -> main argv = read_or_fallback.
Proof.
  unfold plain, main. intros H.
  apply andb_true_iff in H as [H H3]. apply andb_true_iff in H as [H1 H2].
  apply negb_true_iff in H1, H2, H3. by rewrite H1, H2, H3.
Qed.

Lemma read_or_fallback_empty w w1 :
  read_from_virtio 30 w = (w1, Ok []) -> read_or_fallback w = fallback w1.
Proof. intros H. unfold read_or_fallback, bind at 1. by rewrite H. Qed.

Lemma read_or_fallback_fresh w w1 entries :
  read_from_virtio 30 w = (w1, Ok entries) -> entries <> [] ->
  read_or_fallback w
  = (save_cache entries ;;
     print_err (Loaded (length entries)) ;;
     for_each (sorted_items entries) (fun '(k, v) => print_err (LoadedEntry k v))) w1.
Proof.
  intros H Hne. unfold read_or_fallback, bind at 1. rewrite H.
  by destruct entries.
Qed.

Lemma keeps_cache_fallback : keeps_cache fallback.
Proof.
  unfold fallback. apply keeps_cache_bind; [apply keeps_cache_load_cache|].
  intros cached. destruct (truthy cached); apply keeps_cache_print_err.
Qed.

(** *** What the read yields *)

Lemma parse_line_plain entries line :
  Forall plain_entry entries -> plain_text line ->
  Forall plain_entry (parse_line entries line).
Proof.
  intros He Hl. apply Forall_forall. intros kv Hkv.
  apply WireProofs.parse_line_entries in Hkv as [Hin|Hs].
  - rewrite Forall_forall in He. by apply He.
  - apply (Forall_strip _ line) in Hl. rewrite Hs in Hl.
    apply Forall_app in Hl as [Hk Hv]. apply Forall_cons in Hv as [_ Hv].
    by split.
Qed.

Lemma parse_data_plain data : Forall plain_entry (parse_data data).
Proof.
  unfold parse_data, parse_text.
  pose proof (Forall_splitlines _ _ (utf8_decode_plain data)) as Hlines.
  assert (Forall plain_entry []) as Hnil by constructor.
  revert Hnil. generalize (@nil (str * str)).
  induction Hlines as [|l lines Hl _ IH]; intros entries He; [done|].
  cbn [fold_left]. by apply IH, parse_line_plain.
Qed.

(** The entries of a read are plain text: the decoder replaces what is no
    UTF-8 by U+FFFD and yields no surrogate. *)
Lemma read_from_virtio_plain timeout w w1 entries :
  read_from_virtio timeout w = (w1, Ok entries) -> Forall plain_entry entries.
Proof.
  unfold read_from_virtio, bind at 1.
  destruct (wait_for_port timeout w) as [w0 [[|]|e]]; [| |done].
  { intros [= _ <-]. constructor. }
  unfold read_port, bind at 1, print_err at 1, try_except.
  set (w0' := with_stderr w0 _). unfold bind at 1.
  destruct (open_port w0') as [w2 [[]|e]].
  - unfold bind at 1, time_time at 1. unfold bind at 1.
    destruct (read_loop _ _ _ w2) as [w3 [data|e]].
    + intros [= _ <-]. apply parse_data_plain.
    + destruct (is_OSError e); [|done]. unfold bind, print_err, ret.
      intros [= _ <-]. constructor.
  - destruct (is_OSError e); [|done]. unfold bind, print_err, ret.
    intros [= _ <-]. constructor.
Qed.

(** *** The cache *)

Lemma with_entry_files_id w : with_entry_files w (entry_files w) = w.
Proof. by destruct w. Qed.

Lemma safe_key_plain k : plain_text k -> plain_text (safe_key k).
Proof.
  intros Hk. unfold safe_key, replace_char, lstrip_chars, plain_text.
  apply Forall_fmap, (Forall_impl _ _ _ (Forall_dropwhile _ _ _ Hk)).
  intros c Hc. simpl. destruct (c =? SLASH); [by eexists | done].
Qed.

(** Writing the per-key file of an entry of plain text whose name can be
    opened. *)
Lemma write_entry_file_plain k v w :
  nameable (k, v) -> plain_entry (k, v) ->
  write_entry_file (safe_key k) v w
  = (with_entry_files w (<[safe_key k := v]> (entry_files w)), Ok tt).
Proof.
  unfold nameable. cbn [fst]. intros Hn [Hk Hv]. cbn [fst snd] in Hk, Hv.
  unfold write_entry_file. rewrite Hn.
  apply plain_text_encode in Hv as [bs ->].
  by rewrite listed_name_plain by (by apply safe_key_plain).
Qed.

Lemma for_each_write entries : forall w,
  Forall nameable entries ->
  Forall plain_entry entries ->
  for_each entries (fun '(k, v) => write_entry_file (safe_key k) v) w
  = (with_entry_files w (write_all entries (entry_files w)), Ok tt).
Proof.
  induction entries as [|[k v] entries IH]; intros w Hn Hp.
  - simpl. unfold ret. by rewrite with_entry_files_id.
  - apply Forall_cons in Hn as [Hkv Hn]. apply Forall_cons in Hp as [Hpkv Hp].
    cbn [for_each]. unfold bind at 1. rewrite write_entry_file_plain by done.
    rewrite IH by done. by destruct w.
Qed.

Lemma save_cache_spec entries w :
  Forall nameable entries ->
  Forall plain_entry entries ->
  save_cache entries w
  = (with_entry_files
       (with_stderr (with_cache_file w (Some (JsonObject entries)))
          (stderr w ++ [Cached (length entries)]))
       (write_all entries (entry_files w)), Ok tt).
Proof.
  intros Hn Hp. unfold save_cache. unfold bind at 1. unfold bind at 1.
  unfold print_err at 1. rewrite for_each_write by done. by destruct w.
Qed.

(** The aggregate document is written first, whatever happens to the per-key
    files afterwards. *)
Lemma save_cache_aggregate entries w :
  cache_file (fst (save_cache entries w)) = Some (JsonObject entries).
Proof.
  unfold save_cache. unfold bind at 1. unfold bind at 1. unfold print_err at 1.
  set (w1 := with_stderr _ _).
  assert (cache_file w1 = Some (JsonObject entries)) as Hw1 by (by destruct w).
  clearbody w1. clear w.
  revert w1 Hw1. generalize entries at 1 3. intros d.
  induction entries as [|[k v] l IH]; intros w1 Hw1; [done|].
  cbn [for_each]. unfold bind at 1, write_entry_file at 1.
  destruct (name_error (safe_key k)); [done|].
  destruct (utf8_encode v); [|by destruct w1].
  apply IH. by destruct w1.
Qed.

Lemma write_all_lookup name entries : forall files,
  write_all entries files !! name = last_written name entries (files !! name).
Proof.
  induction entries as [|[k v] entries IH]; intros files; [done|].
  unfold write_all in *. cbn [fold_left last_written fst snd]. rewrite IH.
  f_equal. destruct (str_eqb (safe_key k) name) eqn:E.
  - apply str_eqb_eq in E. subst. by rewrite lookup_insert_eq.
  - apply str_eqb_neq in E. by rewrite lookup_insert_ne.
Qed.

Lemma last_written_other name entries old :
  name ∉ map safe_key (keys entries) -> last_written name entries old = old.
Proof.
  revert old. induction entries as [|[k v] entries IH]; intros old; [done|].
  cbn [keys map fst last_written]. intros [Hne Hin]%not_elem_of_cons.
  rewrite IH by done. destruct (str_eqb (safe_key k) name) eqn:E; [|done].
  apply str_eqb_eq in E. congruence.
Qed.

Lemma last_written_unique k v entries old :
  NoDup (map safe_key (keys entries)) -> (k, v) ∈ entries ->
  last_written (safe_key k) entries old = Some v.
Proof.
  revert old. induction entries as [|[k' v'] entries IH]; intros old Hnd Hin.
  - by apply elem_of_nil in Hin.
  - cbn [keys map fst] in Hnd. apply NoDup_cons in Hnd as [Hfresh Hnd].
    cbn [last_written]. apply elem_of_cons in Hin as [[= <- <-]|Hin].
    + rewrite str_eqb_refl. by rewrite last_written_other.
    + by apply IH.
Qed.

(** *** The claims about the read-or-fallback cycle *)

Lemma run_fst argv w : fst (run argv w) = fst (main argv w).
Proof. unfold run. by destruct (main argv w) as [w' [[]|[]]]. Qed.

Lemma raises_only_write_entry_file name v :
  raises_only not_exit (write_entry_file name v).
Proof.
  intros w e. unfold write_entry_file.
  destruct (name_error name) as [e'|] eqn:E.
  - intros [= <-]. unfold name_error in E. destruct (fsencode name); [|by injection E as <-].
    repeat match type of E with context [if ?c then _ else _] => destruct c end;
      first [discriminate E | by injection E as <-].
  - destruct (utf8_encode v); [done|]. by intros [= <-].
Qed.

Lemma raises_only_save_cache entries : raises_only not_exit (save_cache entries).
Proof.
  unfold save_cache. apply raises_only_bind; [done|]. intros _.
  apply raises_only_bind; [apply raises_only_print_err|]. intros _.
  apply raises_only_for_each. intros [k v]. apply raises_only_write_entry_file.
Qed.

Lemma raises_only_load_cache : raises_only not_exit load_cache.
Proof.
  intros w e. unfold load_cache. destruct (cache_file w) as [[| |]|]; try done.
  - by intros [= <-].
  - by intros [= <-].
Qed.

Lemma raises_only_read_or_fallback : raises_only not_exit read_or_fallback.
Proof.
  unfold read_or_fallback. apply raises_only_bind.
  - apply (raises_only_weaken never); [done|]. apply read_from_virtio_never_raises.
  - intros entries. destruct (truthy entries).
    + apply raises_only_bind; [apply raises_only_save_cache|]. intros _.
      apply raises_only_bind; [apply raises_only_print_err|]. intros _.
      apply raises_only_for_each. intros [k v]. apply raises_only_print_err.
    + apply raises_only_bind; [apply raises_only_load_cache|]. intros cached.
      destruct (truthy cached); apply raises_only_print_err.
Qed.

(** C1 (as amended).  When the read phase yields no entry and the cache is
    empty too, the process prints the warning and [main] returns: the exit
    status is 0.  No run of the read-or-fallback cycle calls [sys.exit]: it
    returns, with status 0, or it ends in an uncaught exception. *)
Theorem no_configuration_exits_zero argv w w1 :
  plain argv = true ->
  read_from_virtio 30 w = (w1, Ok []) ->
  Load w1 = Ok [] ->
  run argv w = (with_stderr w1 (stderr w1 ++ [NoConfiguration]), Returned) /\
  exit_status (snd (run argv w)) = 0%Z /\
  (forall w', snd (run argv w') = Returned \/
              exists e, snd (run argv w') = Traceback e).
Proof.
  intros Hplain Hread Hload.
  assert (run argv w = (with_stderr w1 (stderr w1 ++ [NoConfiguration]), Returned)) as Hrun.
  { unfold run. rewrite (main_plain _ Hplain), (read_or_fallback_empty _ _ Hread).
    unfold fallback, bind. unfold Load in Hload.
    destruct (load_cache w1) as [w1' r] eqn:E. simpl in Hload. subst r.
    assert (w1' = w1) as ->.
    { unfold load_cache in E. by destruct (cache_file w1) as [[| |]|]; injection E. }
    done. }
  split_and!; [done | by rewrite Hrun |].
  intros w'. unfold run. rewrite (main_plain _ Hplain).
  pose proof (raises_only_read_or_fallback w') as Hr.
  destruct (read_or_fallback w') as [w2 [[]|e]]; simpl in *; [by left|].
  specialize (Hr e eq_refl). right. destruct e; try done; by eexists.
Qed.

Lemma empty_read_cache_of argv w w1 :
  plain argv = true ->
  read_from_virtio 30 w = (w1, Ok []) ->
  cache_of (fst (run argv w)) = cache_of w.
Proof.
  intros Hplain Hread.
  rewrite run_fst, (main_plain _ Hplain), (read_or_fallback_empty _ _ Hread).
  rewrite keeps_cache_fallback.
  pose proof (keeps_cache_read_from_virtio 30 w) as H. by rewrite Hread in H.
Qed.

(** C5.  When the read phase yields no entry, the run changes neither form
    of the cache, and [load_cache] returns afterwards what it returned
    before. *)
Theorem empty_read_keeps_cache argv w w1 :
  plain argv = true ->
  read_from_virtio 30 w = (w1, Ok []) ->
  cache_file (fst (run argv w)) = cache_file w /\
  entry_files (fst (run argv w)) = entry_files w /\
  Load (fst (run argv w)) = Load w.
Proof.
  intros Hplain Hread.
  pose proof (empty_read_cache_of argv w w1 Hplain Hread) as Hc.
  unfold cache_of in Hc. apply pair_equal_spec in Hc as [Hf He].
  split; [exact Hf|]. split; [exact He|].
  unfold Load, load_cache. rewrite Hf. by destruct (cache_file w) as [[]|].
Qed.

(** C2 (as amended).  When the deadline of the read phase passes and the
    footer was never in the buffer, the read phase still returns the parse
    of the buffer as it stands; [main] saves these entries when there is at
    least one, and leaves the cache alone only when there is none. *)
Theorem partial_frame_is_parsed argv w w0 w1 data :
  plain argv = true ->
  wait_for_port 30 w = (w0, Ok false) ->
  port_opens w0 = true ->
  let deadline := (now w0 + 30 * 1000)%Z in
  let w0' := with_stderr w0 (stderr w0 ++ [Reading]) in
  read_loop (read_steps w0' deadline) deadline [] w0' = (w1, Ok data) ->
  contains_bytes QUBESDB_FOOTER data = false ->
  (deadline <= now w1)%Z /\
  read_from_virtio 30 w = (w1, Ok (parse_data data)) /\
  (parse_data data <> [] ->
   cache_file (fst (run argv w)) = Some (JsonObject (parse_data data))) /\
  (parse_data data = [] ->
   cache_file (fst (run argv w)) = cache_file w /\
   entry_files (fst (run argv w)) = entry_files w).
Proof.
  intros Hplain Hwait Ho deadline w0' Hloop Hfooter.
  assert (read_from_virtio 30 w = (w1, Ok (parse_data data))) as Hread.
  { rewrite (read_from_virtio_found _ _ _ Hwait). by apply read_port_spec. }
  split_and!.
  - destruct (read_loop_stops _ _ _ _ _ _ (le_n _) Hloop) as [H|H]; [congruence | done].
  - done.
  - intros Hne. rewrite run_fst, (main_plain _ Hplain).
    rewrite (read_or_fallback_fresh _ _ _ Hread Hne).
    unfold bind at 1. pose proof (save_cache_aggregate (parse_data data) w1) as Hagg.
    destruct (save_cache (parse_data data) w1) as [w2 [[]|e]]; simpl in *; [|done].
    rewrite <- Hagg.
    assert (keeps_cache (print_err (Loaded (length (parse_data data))) ;;
              for_each (sorted_items (parse_data data))
                (fun '(k, v) => print_err (LoadedEntry k v)))) as Hk.
    { apply keeps_cache_bind; [apply keeps_cache_print_err|]. intros _.
      apply keeps_cache_for_each. intros [k v]. apply keeps_cache_print_err. }
    specialize (Hk w2). by injection Hk.
  - intros Hnil. rewrite Hnil in Hread.
    pose proof (empty_read_cache_of argv w w1 Hplain Hread) as Hc.
    unfold cache_of in Hc. by apply pair_equal_spec in Hc.
Qed.

(** *** The claim about the wait phase *)

(** C8.  Against an endpoint that never appears the wait phase sleeps one
    second [timeout] times and no more, reports the endpoint missing and
    returns the empty dictionary without raising; with the default of 30
    seconds [main] then runs the cache fallback.  Whatever the endpoint does,
    the loop stops after at most [timeout] sleeps of one second, at the first
    poll that finds the endpoint. *)
Theorem wait_phase_bounded argv timeout w :
  (0 <= timeout)%Z ->
  (forall t, port_exists_at w t = false) ->
  plain argv = true ->
  let w1 := with_stderr (after_polls w (Z.to_nat timeout))
              (stderr w ++ [Waiting; NotFoundAfter timeout]) in
  read_from_virtio timeout w = (w1, Ok []) /\
  now w1 = (now w + timeout * 1000)%Z /\
  naps w1 = naps w ++ repeat 1000%Z (Z.to_nat timeout) /\
  main argv w
  = fallback (with_stderr (after_polls w 30) (stderr w ++ [Waiting; NotFoundAfter 30])) /\
  (forall w', exists n,
     (n <= Z.to_nat timeout)%nat /\
     wait_loop (Z.to_nat timeout) 0 timeout w' = (after_polls w' n, Ok (Z.of_nat n)) /\
     (forall i, (i < n)%nat ->
        port_exists_at w' (now w' + 1000 * Z.of_nat i)%Z = false) /\
     (port_exists_at w' (now w' + 1000 * Z.of_nat n)%Z = true
      \/ n = Z.to_nat timeout)).
Proof.
  intros Ht Hnever Hplain w1. split_and!.
  - by apply read_from_virtio_never.
  - destruct w. simpl. lia.
  - by destruct w.
  - rewrite (main_plain _ Hplain).
    apply read_or_fallback_empty. by apply (read_from_virtio_never 30).
  - intros w'.
    destruct (wait_loop_spec (Z.to_nat timeout) 0 timeout w' ltac:(f_equal; lia))
      as (n & Hn & Heq & Hbefore & Hstop).
    exists n. split_and!; [done | by rewrite Heq | done | ].
    destruct Hstop as [?|?]; [by left | right; lia].
Qed.

(** *** The claim about the two forms of the cache *)

Lemma last_written_indep name entries old old' :
  name ∈ map safe_key (keys entries) ->
  last_written name entries old = last_written name entries old'.
Proof.
  revert old old'. induction entries as [|[k v] entries IH]; intros old old'.
  - by intros ?%elem_of_nil.
  - cbn [keys map fst last_written]. intros Hin.
    destruct (decide (name ∈ map safe_key (keys entries))) as [Hin'|Hnin].
    + by apply IH.
    + rewrite !last_written_other by done.
      apply elem_of_cons in Hin as [->|?]; [|done].
      by rewrite str_eqb_refl.
Qed.

Lemma write_all_twice entries files :
  write_all entries (write_all entries files) = write_all entries files.
Proof.
  apply map_eq. intros name. rewrite !write_all_lookup.
  destruct (decide (name ∈ map safe_key (keys entries))) as [Hin|Hnin].
  - by apply last_written_indep.
  - by rewrite !last_written_other.
Qed.

(** A fresh read that yields entries ends with the cache as [save_cache]
    leaves it. *)
Lemma fresh_read_run argv w0 w1 entries :
  plain argv = true ->
  read_from_virtio 30 w0 = (w1, Ok entries) ->
  entries <> [] ->
  Forall nameable entries ->
  snd (run argv w0) = Returned /\
  cache_of (fst (run argv w0)) = cache_of (fst (save_cache entries w1)).
Proof.
  intros Hplain Hread Hne Hn.
  pose proof (read_from_virtio_plain _ _ _ _ Hread) as Hp.
  assert (exists w3, run argv w0 = (w3, Returned) /\
                     cache_of w3 = cache_of (fst (save_cache entries w1)))
    as (w3 & -> & Hc); [|by split].
  unfold run.
  rewrite (main_plain _ Hplain), (read_or_fallback_fresh _ _ _ Hread Hne).
  unfold bind at 1. rewrite save_cache_spec by done. cbn [fst].
  set (w2 := with_entry_files _ _).
  set (prints := (print_err (Loaded (length entries)) ;;
                  for_each (sorted_items entries)
                    (fun '(k, v) => print_err (LoadedEntry k v)))).
  assert (keeps_cache prints) as Hk.
  { apply keeps_cache_bind; [apply keeps_cache_print_err|]. intros _.
    apply keeps_cache_for_each. intros [k v]. apply keeps_cache_print_err. }
  assert (raises_only never prints) as Hr.
  { apply raises_only_bind; [apply raises_only_print_err|]. intros _.
    apply raises_only_for_each. intros [k v]. apply raises_only_print_err. }
  specialize (Hk w2). destruct (never_raises prints w2 Hr) as ([] & Hok).
  destruct (prints w2) as [w3 r]. simpl in Hok, Hk. subst r.
  by exists w3.
Qed.

(** C6 (as amended).  A [save_cache] of entries of plain text (no
    surrogate in a key or in a value, as in everything the read yields),
    whose file names can be opened and are distinct for distinct keys,
    completes; afterwards the aggregate document is exactly the saved
    dictionary and every key of it has its per-key file holding exactly its
    value.  Files under other names are left as they were.  Saving the same
    dictionary again changes neither form.  A run whose fresh read yields
    these entries returns with both forms so written. *)
Theorem save_cache_writes_both_forms entries w :
  Forall nameable entries ->
  Forall plain_entry entries ->
  NoDup (map safe_key (keys entries)) ->
  let w' := fst (save_cache entries w) in
  snd (save_cache entries w) = Ok tt /\
  Load w' = Ok entries /\
  (forall k v, (k, v) ∈ entries -> entry_files w' !! safe_key k = Some v) /\
  (forall name, name ∉ map safe_key (keys entries) ->
     entry_files w' !! name = entry_files w !! name) /\
  snd (save_cache entries w') = Ok tt /\
  cache_file (fst (save_cache entries w')) = cache_file w' /\
  entry_files (fst (save_cache entries w')) = entry_files w' /\
  (forall argv w0,
     plain argv = true -> read_from_virtio 30 w0 = (w, Ok entries) ->
     entries <> [] ->
     snd (run argv w0) = Returned /\
     cache_file (fst (run argv w0)) = cache_file w' /\
     entry_files (fst (run argv w0)) = entry_files w').
Proof.
  intros Hn Hp Hnd w'.
  assert (forall argv w0,
     plain argv = true -> read_from_virtio 30 w0 = (w, Ok entries) ->
     entries <> [] ->
     snd (run argv w0) = Returned /\
     cache_file (fst (run argv w0)) = cache_file w' /\
     entry_files (fst (run argv w0)) = entry_files w') as Hrun.
  { intros argv w0 Hplain Hread Hne.
    destruct (fresh_read_run argv w0 w entries Hplain Hread Hne Hn) as [Hret Hc].
    split; [done|]. unfold cache_of in Hc. by apply pair_equal_spec in Hc. }
  revert Hrun. subst w'. rewrite !save_cache_spec by done. intros Hrun.
  cbn [fst snd]. split_and!; [| | | | | | | exact Hrun].
  - done.
  - by destruct w.
  - intros k v Hin. destruct w; cbn. rewrite write_all_lookup.
    by apply last_written_unique.
  - intros name Hname. destruct w; cbn. rewrite write_all_lookup.
    by apply last_written_other.
  - done.
  - by destruct w.
  - destruct w; cbn. apply write_all_twice.
Qed.

(** *** Concrete runs *)

(** C1, the claim as stated fails: on a guest with no endpoint and no cache
    the read yields nothing, the cache is empty, and the exit status is 0. *)
Lemma no_configuration_status_is_zero :
  snd (read_from_virtio 30 first_boot) = Ok [] /\
  Load (fst (read_from_virtio 30 first_boot)) = Ok [] /\
  snd (run [prog] first_boot) = Returned /\
  exit_status (snd (run [prog] first_boot)) = 0%Z.
Proof. by vm_compute. Qed.

(** C2, the claim as stated fails: the deadline passes, the footer was never
    in the buffer, and the entry parsed from the partial buffer is saved in
    both forms of the cache, over the older value. *)
Lemma partial_buffer_is_saved :
  contains_bytes QUBESDB_FOOTER cut_frame = false /\
  now (fst (run [prog] cut_off)) = 30000%Z /\
  cache_file (fst (run [prog] cut_off)) = Some (JsonObject [(u "/name", u "work")]) /\
  entry_files (fst (run [prog] cut_off)) !! u "name" = Some (u "work") /\
  snd (run [prog] cut_off) = Returned.
Proof. by vm_compute. Qed.

(** C6, the claim as stated fails: after the second save the aggregate
    document has no key [/a], yet the per-key file of [/a] is still there. *)
Lemma per_key_file_outlives_key :
  Load second_delivery = Ok [(u "/b", u "2")] /\
  dict_get (u "/a") [(u "/b", u "2")] = None /\
  entry_files second_delivery !! safe_key (u "/a") = Some (u "1").
Proof. by vm_compute. Qed.

(** The hypotheses of C6 are needed.  The key [/] has the empty file name:
    the save stops with an exception after the aggregate document is
    written, and the run ends in a traceback.  Two keys with one file name
    leave the value of the later key in the file. *)
Lemma keys_without_own_file :
  snd (run [prog] slash_key) = Traceback IsADirectoryError /\
  cache_file (fst (run [prog] slash_key)) = Some (JsonObject [(u "/", u "x")]) /\
  entry_files (fst (run [prog] slash_key)) = ∅ /\
  safe_key (u "/a/b") = safe_key (u "/a_b") /\
  Load (fst (save_cache colliding first_boot)) = Ok colliding /\
  entry_files (fst (save_cache colliding first_boot)) !! safe_key (u "/a/b")
  = Some (u "2").
Proof. by vm_compute. Qed.

(** *** The theorems at concrete guests *)

Lemma no_configuration_exits_zero_witness :
  plain [prog] = true /\
  read_from_virtio 30 first_boot
  = (with_stderr (with_clock first_boot 30000 (repeat 1000%Z 30))
       [Waiting; NotFoundAfter 30], Ok []) /\
  exit_status (snd (run [prog] first_boot)) = 0%Z.
Proof.
  assert (plain [prog] = true) as H1 by (by vm_compute).
  assert (read_from_virtio 30 first_boot
          = (with_stderr (with_clock first_boot 30000 (repeat 1000%Z 30))
               [Waiting; NotFoundAfter 30], Ok [])) as H2 by (by vm_compute).
  split; [exact H1|]. split; [exact H2|].
  destruct (no_configuration_exits_zero [prog] first_boot _ H1 H2) as (_ & H & _).
  - by vm_compute.
  - exact H.
Defined.

Lemma partial_frame_is_parsed_witness :
  plain [prog] = true /\
  wait_for_port 30 cut_off = (cut_off, Ok false) /\
  contains_bytes QUBESDB_FOOTER cut_frame = false /\
  cache_file (fst (run [prog] cut_off)) = Some (JsonObject (parse_data cut_frame)).
Proof.
  assert (plain [prog] = true) as H1 by (by vm_compute).
  assert (wait_for_port 30 cut_off = (cut_off, Ok false)) as H2 by (by vm_compute).
  assert (contains_bytes QUBESDB_FOOTER cut_frame = false) as H3 by (by vm_compute).
  split; [exact H1|]. split; [exact H2|]. split; [exact H3|].
  destruct (partial_frame_is_parsed [prog] cut_off cut_off
              (fst (read_from_virtio 30 cut_off)) cut_frame H1 H2)
    as (_ & _ & H & _).
  - by vm_compute.
  - by vm_compute.
  - exact H3.
  - apply H. by vm_compute.
Defined.

Lemma empty_read_keeps_cache_witness :
  plain [prog] = true /\
  read_from_virtio 30 first_boot
  = (with_stderr (with_clock first_boot 30000 (repeat 1000%Z 30))
       [Waiting; NotFoundAfter 30], Ok []) /\
  Load (fst (run [prog] first_boot)) = Load first_boot.
Proof.
  assert (plain [prog] = true) as H1 by (by vm_compute).
  assert (read_from_virtio 30 first_boot
          = (with_stderr (with_clock first_boot 30000 (repeat 1000%Z 30))
               [Waiting; NotFoundAfter 30], Ok [])) as H2 by (by vm_compute).
  split; [exact H1|]. split; [exact H2|].
  destruct (empty_read_keeps_cache [prog] first_boot _ H1 H2) as (_ & _ & H).
  exact H.
Defined.

Lemma save_cache_writes_both_forms_witness :
  Forall nameable Wire.two_entries /\
  Forall plain_entry Wire.two_entries /\
  NoDup (map safe_key (keys Wire.two_entries)) /\
  Load (fst (save_cache Wire.two_entries first_boot)) = Ok Wire.two_entries.
Proof.
  assert (Forall nameable Wire.two_entries) as Hn.
  { apply Forall_cons_2; [by vm_compute|].
    apply Forall_cons_2; [by vm_compute|]. apply Forall_nil_2. }
  assert (Forall plain_entry Wire.two_entries) as Hp.
  { apply Forall_cons_2; [split; apply plain_text_ascii; by vm_compute|].
    apply Forall_cons_2; [split; apply plain_text_ascii; by vm_compute|].
    apply Forall_nil_2. }
  assert (NoDup (map safe_key (keys Wire.two_entries))) as Hnd
    by (apply (bool_decide_unpack _); by vm_compute).
  split; [exact Hn|]. split; [exact Hp|]. split; [exact Hnd|].
  destruct (save_cache_writes_both_forms Wire.two_entries first_boot Hn Hp Hnd)
    as (_ & H & _).
  exact H.
Defined.

Lemma wait_phase_bounded_witness :
  (forall t, port_exists_at first_boot t = false) /\
  plain [prog] = true /\
  now (with_stderr (after_polls first_boot (Z.to_nat 30))
         (stderr first_boot ++ [Waiting; NotFoundAfter 30]))
  = (now first_boot + 30 * 1000)%Z.
Proof.
  assert (forall t, port_exists_at first_boot t = false) as H1 by (intros t; reflexivity).
  assert (plain [prog] = true) as H2 by (by vm_compute).
  split; [exact H1|]. split; [exact H2|].
  destruct (wait_phase_bounded [prog] 30 first_boot) as (_ & H & _).
  - lia.
  - exact H1.
  - exact H2.
  - exact H.
Defined.

End ReaderProofs.

(** ** Properties of the Sender *)

Module InjectProofs.

Import Inject InjectSpec WireProofs.
Local Open Scope py_scope.

(** *** The entries of the Sender *)

Lemma add_entry_pair entries text k v :
  text = k ++ EQUALS :: v -> EQUALS ∉ k ->
  add_entry entries text = dict_set k v entries.
Proof.
  intros -> Hk. unfold add_entry.
  assert (EQUALS ∈ k ++ EQUALS :: v) as Hin by set_solver.
  apply contains_char_spec in Hin as ->. by rewrite split_first_spec.
Qed.

(** An entry of the command line or of the stream changes the value of [k]
    only if it is an assignment to [k]. *)
Lemma add_entry_other entries text k :
  (forall v, text <> k ++ EQUALS :: v) ->
  dict_get k (add_entry entries text) = dict_get k entries.
Proof.
  intros Hne. unfold add_entry.
  destruct (contains_char EQUALS text) eqn:E; [|done].
  apply contains_char_spec in E.
  destruct (split_first_inv _ _ E) as (k' & v' & Heq & _ & ->).
  apply dict_get_set_ne. intros ->. by apply (Hne v').
Qed.

Lemma add_entry_nil entries text :
  add_entry entries text = [] <-> entries = [] /\ EQUALS ∉ text.
Proof.
  unfold add_entry. destruct (contains_char EQUALS text) eqn:E.
  - apply contains_char_spec in E. destruct (split_first EQUALS text) as [k v].
    split; [intros H; by apply dict_set_not_nil in H | intros [_ Hn]; by destruct Hn].
  - apply contains_char_false in E. split; [by intros -> | by intros [-> _]].
Qed.

Lemma fold_add_entry_nil {A} (f : A -> str) (texts : list A) : forall entries,
  fold_left (fun entries x => add_entry entries (f x)) texts entries = [] <->
  entries = [] /\ (forall x, x ∈ texts -> EQUALS ∉ f x).
Proof.
  induction texts as [|x texts IH]; intros entries; cbn [fold_left].
  - split; [intros ->; split; [done|] | by intros [-> _]].
    intros x Hx. by apply elem_of_nil in Hx.
  - rewrite IH, add_entry_nil. split.
    + intros [[-> Hx] Hrest]. split; [done|].
      intros y [->|Hy]%elem_of_cons; [done | by apply Hrest].
    + intros [-> Hall]. split; [split; [done|] |].
      * apply Hall. by left.
      * intros y Hy. apply Hall. by right.
Qed.

(** Command line and stream together yield no entry exactly when none of
    the arguments and none of the stripped lines has an equals sign. *)
Lemma merged_entries_nil args h :
  merged_entries args h = [] <->
  (forall a, a ∈ args -> EQUALS ∉ a) /\
  (forall lines l, stdin h = Some lines -> l ∈ lines -> EQUALS ∉ strip l).
Proof.
  unfold merged_entries, from_stream, from_args.
  pose proof (fold_add_entry_nil (fun a => a) args []) as Hargs. cbn beta in Hargs.
  destruct (stdin h) as [lines|].
  - rewrite (fold_add_entry_nil strip lines), Hargs. split.
    + intros [[_ Ha] Hl]. split; [done|]. intros ? l [= <-]. apply Hl.
    + intros [Ha Hl]. split; [by split|]. intros l. by apply Hl.
  - rewrite Hargs. split.
    + intros [_ Ha]. by split.
    + intros [Ha _]. by split.
Qed.

Lemma from_stream_other lines : forall entries k,
  (forall l v, l ∈ lines -> strip l <> k ++ EQUALS :: v) ->
  dict_get k (from_stream entries lines) = dict_get k entries.
Proof.
  induction lines as [|l lines IH]; intros entries k Hne; [done|].
  unfold from_stream in *. cbn [fold_left]. rewrite IH.
  - apply add_entry_other. intros v. apply Hne. by left.
  - intros l' v Hin. apply Hne. by right.
Qed.

Lemma from_stream_app entries l1 l2 :
  from_stream entries (l1 ++ l2) = from_stream (from_stream entries l1) l2.
Proof. unfold from_stream. apply fold_left_app. Qed.

(** The last line of the stream that assigns to [k] decides its value,
    whatever the command line said. *)
Lemma from_stream_last entries before line after k v :
  strip line = k ++ EQUALS :: v -> EQUALS ∉ k ->
  (forall l v', l ∈ after -> strip l <> k ++ EQUALS :: v') ->
  dict_get k (from_stream entries (before ++ line :: after)) = Some v.
Proof.
  intros Hline Hk Hafter. rewrite from_stream_app.
  change (from_stream ?d (line :: after))
    with (from_stream (add_entry d (strip line)) after).
  rewrite from_stream_other by done.
  rewrite (add_entry_pair _ _ k v) by done. apply dict_get_set_eq.
Qed.

Lemma truthy_nil (d : dict) : truthy d = false <-> d = [].
Proof. by destruct d. Qed.

Lemma dict_get_truthy k v (d : dict) : dict_get k d = Some v -> truthy d = true.
Proof. by destruct d. Qed.

(** [main] hands [sourced_entries] to [inject], after the notice when the
    defaults are used. *)
Lemma main_sources prog sock_path args h :
  main (prog :: sock_path :: args) h
  = (ok <- inject sock_path (sourced_entries args h) ;;
     raise (SystemExit (if ok : bool then 0 else 1)))
      (if truthy (merged_entries args h) then h
       else with_stdout h (stdout h ++ [UsingDefaults])).
Proof.
  unfold main, sourced_entries. unfold bind at 1. unfold bind at 1.
  destruct (truthy (merged_entries args h)) eqn:E.
  - done.
  - unfold bind at 1. unfold bind at 1, print_out at 1. unfold ret at 1.
    replace (default_entries (with_stdout h (stdout h ++ [UsingDefaults])))
      with (default_entries h) by (by destruct h). done.
Qed.

(** C3 (as amended).  For a key assigned both on the command line and on
    the input stream, the value of the last stream line that assigns it is
    the one in the entries handed to [inject]: the stream overrides the
    command line.  The default set is used exactly when command line and
    stream together yield no entry, that is, when no argument and no
    stripped line of the stream has an equals sign. *)
Theorem stream_overrides_arguments prog sock_path args h before line after k v :
  stdin h = Some (before ++ line :: after) ->
  strip line = k ++ EQUALS :: v ->
  EQUALS ∉ k ->
  (forall l v', l ∈ after -> strip l <> k ++ EQUALS :: v') ->
  dict_get k (sourced_entries args h) = Some v /\
  main (prog :: sock_path :: args) h
  = (ok <- inject sock_path (sourced_entries args h) ;;
     raise (SystemExit (if ok : bool then 0 else 1))) h /\
  (forall args' h',
     (merged_entries args' h' = [] <->
      (forall a, a ∈ args' -> EQUALS ∉ a) /\
      (forall lines l, stdin h' = Some lines -> l ∈ lines -> EQUALS ∉ strip l)) /\
     (merged_entries args' h' = [] -> sourced_entries args' h' = default_entries h') /\
     (merged_entries args' h' <> [] -> sourced_entries args' h' = merged_entries args' h')).
Proof.
  intros Hstdin Hline Hk Hafter.
  assert (dict_get k (merged_entries args h) = Some v) as Hget.
  { unfold merged_entries. rewrite Hstdin. by apply from_stream_last. }
  pose proof (dict_get_truthy _ _ _ Hget) as Ht.
  split_and!.
  - unfold sourced_entries. by rewrite Ht.
  - rewrite main_sources. by rewrite Ht.
  - intros args' h'. split; [apply merged_entries_nil|].
    unfold sourced_entries. split.
    + by intros ->.
    + intros Hne. by destruct (merged_entries args' h').
Qed.

(** C3, the claim as stated fails: [/name] is given on the command line as
    [cli] and on the stream as [stream]; the entries handed to [inject] map
    it to [stream]. *)
Lemma argument_does_not_override_stream :
  dict_get (u "/name") (from_args [u "/name=cli"]) = Some (u "cli") /\
  dict_get (u "/name") (sourced_entries [u "/name=cli"] piped) = Some (u "stream") /\
  handed (fst (main [u "inject"; u "/run/qubesdb.sock"; u "/name=cli"] piped))
  = [QUBESDB_HEADER ++ b "/name=stream" ++ [Byte.x0a] ++ QUBESDB_FOOTER].
Proof. by vm_compute. Qed.

(** *** The delivery attempt *)

Lemma utf8_decode_strict_text bs s :
  utf8_decode_strict bs = Some s -> s = utf8_decode bs.
Proof.
  unfold utf8_decode_strict. destruct (utf8_encode (utf8_decode bs)); [|done].
  destruct (bytes_eqb _ _); [|done]. by intros [= <-].
Qed.

Lemma inject_spec sock_path entries data h :
  utf8_encode (render entries) = Some data ->
  relay_error_decodes h = true ->
  inject sock_path entries h
  = (after_attempt sock_path entries data h, Ok (delivered h)).
Proof.
  intros Henc Hrelay.
  unfold inject, after_attempt, delivered, failure_line, socket_failure.
  unfold relay_error_decodes in Hrelay.
  destruct h as [i env so co se ha cl er ou]. cbn [socat connect sendall] in *.
  destruct so as [[rc err|]|].
  - unfold bind at 1, encode at 1. rewrite Henc. unfold ret at 1.
    unfold bind at 1, subprocess_run at 1.
    destruct (rc =? 0)%Z; [done|]. cbn [orb] in Hrelay.
    unfold bind at 1, decode at 1.
    destruct (utf8_decode_strict err) as [text|] eqn:E; [|done].
    apply utf8_decode_strict_text in E as ->. done.
  - unfold bind at 1, encode at 1. rewrite Henc. by unfold ret at 1.
  - unfold try_finally, try_except, bind, sock_connect, encode, sock_sendall.
    cbn [connect sendall]. rewrite Henc.
    destruct co as [[| | |n]|]; [done..|].
    by destruct se as [[| | |n]|].
Qed.


(** *** Concrete attempts *)


(** *** The theorems at concrete hosts *)

Lemma stream_overrides_arguments_witness :
  stdin piped = Some ([] ++ (u "/name=stream" ++ [LF]) :: []) /\
  strip (u "/name=stream" ++ [LF]) = u "/name" ++ EQUALS :: u "stream" /\
  dict_get (u "/name") (sourced_entries [u "/name=cli"] piped) = Some (u "stream").
Proof.
  assert (stdin piped = Some ([] ++ (u "/name=stream" ++ [LF]) :: [])) as H1
    by (by vm_compute).
  assert (strip (u "/name=stream" ++ [LF]) = u "/name" ++ EQUALS :: u "stream") as H2
    by (by vm_compute).
  split; [exact H1|]. split; [exact H2|].
  destruct (stream_overrides_arguments (u "inject") sock [u "/name=cli"] piped
              [] (u "/name=stream" ++ [LF]) [] (u "/name") (u "stream") H1 H2)
    as (H & _).
  - apply contains_char_false. by vm_compute.
  - intros l v' Hin. by apply elem_of_nil in Hin.
  - exact H.
Defined.


End InjectProofs.


(** ** Further properties of the guest side *)

Module ReaderMore.

Import Reader ReaderSpec ReaderTerms WireProofs ReaderProofs.
Local Open Scope py_scope.

(** *** The query modes *)

Lemma mem_str_spec x l : mem_str x l = true <-> x ∈ l.
Proof.
  unfold mem_str. rewrite existsb_exists. split.
  - intros (y & Hin & Heq). apply str_eqb_eq in Heq. subst. by apply list_elem_of_In.
  - intros Hin. exists x. split; [by apply list_elem_of_In | apply str_eqb_refl].
Qed.

Lemma mem_str_false x l : mem_str x l = false <-> x ∉ l.
Proof. rewrite <- mem_str_spec. destruct (mem_str x l); naive_solver. Qed.

Lemma index_of_first x pre post :
  x ∉ pre -> index_of x (pre ++ x :: post) = length pre.
Proof.
  induction pre as [|y pre IH]; simpl; intros Hx.
  - by rewrite str_eqb_refl.
  - apply not_elem_of_cons in Hx as [Hne Hx].
    destruct (str_eqb y x) eqn:E; [apply str_eqb_eq in E; congruence|].
    by rewrite IH.
Qed.

Lemma nth_error_after {A} (pre : list A) x post :
  nth_error (pre ++ x :: post) (length pre + 1) = nth_error post 0.
Proof. induction pre; simpl; [done|]. exact IHpre. Qed.

Lemma load_cache_Load w d : Load w = Ok d -> load_cache w = (w, Ok d).
Proof.
  unfold Load, load_cache. destruct (cache_file w) as [[]|]; simpl; congruence.
Qed.

Lemma load_cache_damaged w doc e :
  cache_file w = Some doc -> load_error doc = Some e ->
  load_cache w = (w, Raise e) /\ not_exit e = true.
Proof. unfold load_cache. intros ->. by destruct doc; intros [= <-]. Qed.

Lemma print_out_printable m w :
  print_out m w
  = if printable w m then (with_stdout w (stdout w ++ [m]), Ok tt)
    else (w, Raise UnicodeEncodeError).
Proof. unfold print_out, printable. by destruct (encode_with _ _). Qed.

(** Every standard output takes plain text. *)
Lemma printable_plain w m : plain_text (out_text m) -> printable w m = true.
Proof.
  intros Hp. unfold printable. rewrite encode_with_plain by done.
  by apply plain_text_encode in Hp as [bs ->].
Qed.

Lemma main_get pre key post :
  GET ∉ pre ->
  main (pre ++ GET :: key :: post)
  = (entries <- load_cache ;;
     match dict_get key entries with
     | Some v => print_out (Value v)
     | None => print_err (KeyNotFound key) ;; raise (SystemExit 1)
     end).
Proof.
  intros Hpre. unfold main.
  assert (mem_str (u "--get") (pre ++ GET :: key :: post) = true) as ->.
  { apply mem_str_spec. set_solver. }
  fold GET. rewrite index_of_first by done. by rewrite nth_error_after.
Qed.

(** X1.  [--get KEY] looks the key up in the aggregate document.  A key
    that is there has its value printed on the standard output and the
    process returns, when the standard output takes the value, as it does
    for every value of plain text; when it does not (a value with a
    surrogate that the error handler of the stream refuses), nothing is
    printed and the process ends in an uncaught [UnicodeEncodeError], with
    status 1.  A key that is not there is reported on the error stream and
    the process exits with status 1.  Nothing else changes, whatever other
    arguments follow. *)
Theorem get_prints_value_or_exits_1 pre key post w d :
  GET ∉ pre ->
  Load w = Ok d ->
  run (pre ++ GET :: key :: post) w
  = match dict_get key d with
    | Some v =>
        if printable w (Value v)
        then (with_stdout w (stdout w ++ [Value v]), Returned)
        else (w, Traceback UnicodeEncodeError)
    | None => (with_stderr w (stderr w ++ [KeyNotFound key]), Exited 1)
    end /\
  (forall v, plain_text v -> printable w (Value v) = true) /\
  exit_status (Traceback UnicodeEncodeError) = 1%Z.
Proof.
  intros Hpre Hload. split_and!; [|intros v Hv; by apply printable_plain|done].
  unfold run. rewrite (main_get _ _ _ Hpre).
  unfold bind at 1. rewrite (load_cache_Load _ _ Hload).
  destruct (dict_get key d) as [v|]; [|done].
  rewrite print_out_printable. by destruct (printable w (Value v)).
Qed.

(** X2.  [--get] as the last argument, with no key after it, does nothing
    at all: the cache is not even opened and the process returns. *)
Theorem get_without_key_is_silent pre w :
  GET ∉ pre -> run (pre ++ [GET]) w = (w, Returned).
Proof.
  intros Hpre. unfold run, main.
  assert (mem_str (u "--get") (pre ++ [GET]) = true) as ->.
  { apply mem_str_spec. set_solver. }
  fold GET. rewrite index_of_first by done.
  assert (nth_error (pre ++ [GET]) (length pre + 1) = None) as ->; [|done].
  apply nth_error_None. rewrite length_app. simpl. lia.
Qed.

Lemma printed_with_stdout w l ms : printed (with_stdout w l) ms = printed w ms.
Proof. induction ms as [|m ms IH]; [done|]. simpl. by rewrite IH. Qed.

Lemma for_each_listed items : forall w,
  for_each items (fun '(k, v) => print_out (ListedEntry k v)) w
  = (with_stdout w (stdout w ++ printed w (listed items)),
     if forallb (printable w) (listed items) then Ok tt
     else Raise UnicodeEncodeError).
Proof.
  induction items as [|[k v] items IH]; intros w.
  - simpl. unfold ret. destruct w; simpl. by rewrite app_nil_r.
  - cbn [for_each]. unfold bind at 1. rewrite print_out_printable.
    cbn [listed map fst snd printed forallb].
    destruct (printable w (ListedEntry k v)) eqn:E.
    + rewrite IH. rewrite printed_with_stdout.
      replace (forallb (printable (with_stdout w (stdout w ++ [ListedEntry k v])))
                 (listed items))
        with (forallb (printable w) (listed items)) by done.
      destruct w; simpl. by rewrite <- app_assoc.
    + destruct w; simpl. by rewrite app_nil_r.
Qed.

Lemma Forall_insert_sorted (P : str * str -> Prop) x l :
  P x -> Forall P l -> Forall P (insert_sorted x l).
Proof.
  intros Hx. induction 1 as [|y l Hy Hl IH]; simpl; [by repeat constructor|].
  destruct (item_leb x y); by repeat constructor.
Qed.

Lemma Forall_sorted_items (P : str * str -> Prop) d :
  Forall P d -> Forall P (sorted_items d).
Proof.
  induction 1 as [|x d Hx Hd IH]; simpl; [constructor|].
  by apply Forall_insert_sorted.
Qed.

Lemma listed_plain w items :
  Forall plain_entry items ->
  printed w (listed items) = listed items /\
  forallb (printable w) (listed items) = true.
Proof.
  induction 1 as [|[k v] items [Hk Hv] _ [IH1 IH2]]; [done|].
  cbn [listed map fst snd printed forallb] in *.
  rewrite printable_plain.
  - fold (listed items). by rewrite IH1, IH2.
  - cbn [out_text]. apply plain_text_app. split; [done|].
    apply plain_text_app. split; [by apply plain_text_ascii | done].
Qed.

(** X3.  [--list], when [--get] is absent, prints the cached entries on
    the standard output, one line per entry, in the order of [sorted];
    [--json] on the same command line is not looked at.  It prints them all
    and returns when the standard output takes every line, as it does for a
    cache of plain text; otherwise it stops before the first line that the
    stream refuses and ends in an uncaught [UnicodeEncodeError]. *)
Theorem list_prints_sorted_entries argv w d :
  GET ∉ argv ->
  LIST ∈ argv ->
  Load w = Ok d ->
  run argv w
  = (with_stdout w (stdout w ++ printed w (listed (sorted_items d))),
     if forallb (printable w) (listed (sorted_items d)) then Returned
     else Traceback UnicodeEncodeError) /\
  (Forall plain_entry d ->
   run argv w = (with_stdout w (stdout w ++ listed (sorted_items d)), Returned)).
Proof.
  intros Hget Hlist Hload.
  assert (run argv w
          = (with_stdout w (stdout w ++ printed w (listed (sorted_items d))),
             if forallb (printable w) (listed (sorted_items d)) then Returned
             else Traceback UnicodeEncodeError)) as Hrun.
  { unfold run, main.
    apply mem_str_false in Hget. apply mem_str_spec in Hlist.
    unfold GET, LIST in *. rewrite Hget, Hlist.
    unfold bind at 1. rewrite (load_cache_Load _ _ Hload).
    rewrite for_each_listed. by destruct (forallb _ _). }
  split; [exact Hrun|]. intros Hp. rewrite Hrun.
  destruct (listed_plain w (sorted_items d)) as [-> ->]; [|done].
  by apply Forall_sorted_items.
Qed.

(** *** The order of [sorted] *)

Lemma str_leb_refl s : str_leb s s = true.
Proof.
  induction s as [|x s IH]; simpl; [done|].
  rewrite N.eqb_refl, IH. by rewrite orb_true_r.
Qed.

Lemma str_leb_total s t : str_leb s t = true \/ str_leb t s = true.
Proof.
  revert t. induction s as [|x s IH]; intros [|y t]; simpl; auto.
  destruct (N.ltb_spec x y); [by left|].
  destruct (N.ltb_spec y x); [by right|].
  assert (x = y) as -> by lia. rewrite N.eqb_refl. simpl. apply IH.
Qed.

Lemma str_leb_antisym s t : str_leb s t = true -> str_leb t s = true -> s = t.
Proof.
  revert t. induction s as [|x s IH]; intros [|y t]; simpl; try done.
  destruct (N.ltb_spec x y), (N.ltb_spec y x); simpl; try lia.
  - destruct (N.eqb_spec y x); [lia | done].
  - destruct (N.eqb_spec x y); [lia | done].
  - destruct (N.eqb_spec x y) as [->|]; [|done]. rewrite N.eqb_refl. simpl.
    intros H1 H2. f_equal. by apply IH.
Qed.

Lemma str_leb_trans s t r :
  str_leb s t = true -> str_leb t r = true -> str_leb s r = true.
Proof.
  revert t r. induction s as [|x s IH]; intros [|y t] [|z r]; simpl; try done.
  destruct (N.ltb_spec x y), (N.ltb_spec y z), (N.ltb_spec x z); simpl; try done; try lia.
  - destruct (N.eqb_spec y z); [lia | done].
  - destruct (N.eqb_spec x y); [lia | done].
  - destruct (N.eqb_spec x y) as [->|]; [|done].
    destruct (N.eqb_spec y z) as [->|]; [|by rewrite andb_false_l].
    simpl. apply IH.
Qed.

Lemma item_le_total a c : item_le a c \/ item_le c a.
Proof.
  unfold item_le, item_leb.
  destruct (str_eqb (fst a) (fst c)) eqn:E.
  - apply str_eqb_eq in E. rewrite E, str_eqb_refl. apply str_leb_total.
  - apply str_eqb_neq in E.
    assert (str_eqb (fst c) (fst a) = false) as -> by (apply str_eqb_neq; congruence).
    apply str_leb_total.
Qed.

Lemma item_le_trans a c e : item_le a c -> item_le c e -> item_le a e.
Proof.
  unfold item_le, item_leb.
  destruct (str_eqb (fst a) (fst c)) eqn:E1.
  - apply str_eqb_eq in E1. rewrite E1.
    destruct (str_eqb (fst c) (fst e)); [apply str_leb_trans | done].
  - apply str_eqb_neq in E1.
    destruct (str_eqb (fst c) (fst e)) eqn:E2.
    + apply str_eqb_eq in E2. rewrite <- E2.
      apply str_eqb_neq in E1 as ->. done.
    + intros H1 H2. pose proof (str_leb_trans _ _ _ H1 H2) as H3.
      destruct (str_eqb (fst a) (fst e)) eqn:E3; [|done].
      apply str_eqb_eq in E3. rewrite <- E3 in H2.
      destruct E1. by apply str_leb_antisym.
Qed.

Lemma item_le_keys a c : item_le a c -> str_leb (fst a) (fst c) = true.
Proof.
  unfold item_le, item_leb. destruct (str_eqb (fst a) (fst c)) eqn:E; [|done].
  apply str_eqb_eq in E. rewrite E. intros _. apply str_leb_refl.
Qed.

Lemma insert_sorted_perm x l : Permutation (insert_sorted x l) (x :: l).
Proof.
  induction l as [|y l IH]; simpl; [done|].
  destruct (item_leb x y); [done|].
  eapply Permutation_trans; [apply perm_skip, IH|]. apply perm_swap.
Qed.

Lemma insert_sorted_hd x y l :
  item_le y x -> HdRel item_le y l -> HdRel item_le y (insert_sorted x l).
Proof.
  intros Hyx Hl. destruct l as [|z l]; simpl; [by constructor|].
  destruct (item_leb x z); constructor; [done|]. by inversion Hl.
Qed.

Lemma insert_sorted_sorted x l :
  Sorted item_le l -> Sorted item_le (insert_sorted x l).
Proof.
  induction 1 as [|y l Hl IH Hhd]; simpl; [by repeat constructor|].
  destruct (item_leb x y) eqn:E.
  - constructor; [by constructor | by constructor].
  - constructor; [done|]. apply insert_sorted_hd; [|done].
    destruct (item_le_total x y) as [H|H]; [|done].
    unfold item_le in H. congruence.
Qed.

Lemma sorted_items_perm (d : dict) : Permutation (sorted_items d) d.
Proof.
  unfold sorted_items. induction d as [|x d IH]; cbn [fold_right]; [done|].
  eapply Permutation_trans; [apply insert_sorted_perm|]. by apply perm_skip.
Qed.

Lemma sorted_items_Sorted (d : dict) : Sorted item_le (sorted_items d).
Proof.
  unfold sorted_items. induction d as [|x d IH]; cbn [fold_right]; [constructor|].
  apply insert_sorted_sorted, IH.
Qed.

(** X4.  [sorted(entries.items())] keeps exactly the items of the
    dictionary and puts them in ascending order: every item is at most every
    later one, and so the keys ascend by code point. *)
Theorem sorted_items_is_sorted (d : dict) :
  Permutation (sorted_items d) d /\
  StronglySorted item_le (sorted_items d) /\
  StronglySorted (fun k k' => str_leb k k' = true) (keys (sorted_items d)).
Proof.
  assert (StronglySorted item_le (sorted_items d)) as Hsorted.
  { apply Sorted_StronglySorted; [intros a c e; apply item_le_trans|].
    apply sorted_items_Sorted. }
  split; [apply sorted_items_perm|]. split; [done|].
  unfold keys. induction Hsorted as [|a l _ IH Hall]; simpl; constructor; [exact IH|].
  clear IH. induction Hall as [|c l Hc _ IH]; simpl; constructor; [|exact IH].
  by apply item_le_keys.
Qed.

Lemma printed_more_refl w : printed_more w w.
Proof. exists [], []. destruct w; simpl. by rewrite !app_nil_r. Qed.

Lemma printed_more_trans w1 w2 w3 :
  printed_more w1 w2 -> printed_more w2 w3 -> printed_more w1 w3.
Proof.
  intros (o1 & e1 & ->) (o2 & e2 & ->). exists (o1 ++ o2), (e1 ++ e2).
  destruct w1; simpl. by rewrite !app_assoc.
Qed.

Lemma prints_only_ret {A} (a : A) : prints_only (ret a).
Proof. intros w. apply printed_more_refl. Qed.

Lemma prints_only_raise {A} e : prints_only (@raise World exn A e).
Proof. intros w. apply printed_more_refl. Qed.

Lemma prints_only_bind {A B} (m : M A) (k : A -> M B) :
  prints_only m -> (forall a, prints_only (k a)) -> prints_only (bind m k).
Proof.
  intros Hm Hk w. unfold bind. specialize (Hm w).
  destruct (m w) as [w' [a|e]]; simpl in *; [|done].
  eapply printed_more_trans; [exact Hm | apply Hk].
Qed.

Lemma prints_only_print_out m : prints_only (print_out m).
Proof.
  intros w. rewrite print_out_printable.
  destruct (printable w m); [|apply printed_more_refl].
  exists [m], []. destruct w; simpl. by rewrite app_nil_r.
Qed.

Lemma prints_only_print_err m : prints_only (print_err m).
Proof. intros w. exists [], [m]. destruct w; simpl. by rewrite app_nil_r. Qed.

Lemma prints_only_load_cache : prints_only load_cache.
Proof.
  intros w. unfold load_cache.
  destruct (cache_file w) as [[]|]; apply printed_more_refl.
Qed.

Lemma prints_only_for_each {A} (l : list A) (body : A -> M unit) :
  (forall x, prints_only (body x)) -> prints_only (for_each l body).
Proof.
  intros H. induction l; simpl; [apply prints_only_ret|].
  apply prints_only_bind; [apply H | done].
Qed.

Lemma prints_only_query argv : plain argv = false -> prints_only (main argv).
Proof.
  unfold plain, main. intros Hp.
  destruct (mem_str (u "--get") argv).
  { destruct (nth_error argv _); [|apply prints_only_ret].
    apply prints_only_bind; [apply prints_only_load_cache|]. intros d.
    destruct (dict_get _ d); [apply prints_only_print_out|].
    apply prints_only_bind; [apply prints_only_print_err|]. intros _.
    apply prints_only_raise. }
  destruct (mem_str (u "--list") argv).
  { apply prints_only_bind; [apply prints_only_load_cache|]. intros d.
    apply prints_only_for_each. intros [k v]. apply prints_only_print_out. }
  destruct (mem_str (u "--json") argv); [|done].
  apply prints_only_bind; [apply prints_only_load_cache|]. intros d.
  apply prints_only_print_out.
Qed.

(** X5.  A query ([--get], [--list] or [--json] on the command line) is
    read-only and immediate: it does not sleep, does not read the device and
    leaves both forms of the cache as they are; all it does is add lines to
    the output streams. *)
Theorem query_modes_only_print argv w :
  plain argv = false ->
  printed_more w (fst (run argv w)) /\
  now (fst (run argv w)) = now w /\
  naps (fst (run argv w)) = naps w /\
  device (fst (run argv w)) = device w /\
  cache_file (fst (run argv w)) = cache_file w /\
  entry_files (fst (run argv w)) = entry_files w.
Proof.
  intros Hp. rewrite run_fst.
  destruct (prints_only_query argv Hp w) as (out & err & Heq).
  split; [by exists out, err|]. rewrite Heq. by destruct w.
Qed.

(** X6.  When the aggregate document is damaged, whatever loads the cache
    ends in an exception that nothing catches: [JSONDecodeError] when the
    file is text that is no JSON document, [UnicodeDecodeError] when its
    bytes are no UTF-8.  This holds for [--get] with a key, [--list],
    [--json], and the fallback after a read that yielded nothing; the script
    prints nothing more, and the exit status is 1. *)
Theorem corrupt_cache_is_fatal argv w doc e :
  cache_file w = Some doc ->
  load_error doc = Some e ->
  (forall pre key post, argv = pre ++ GET :: key :: post -> GET ∉ pre ->
     run argv w = (w, Traceback e)) /\
  (GET ∉ argv -> LIST ∈ argv \/ JSON ∈ argv ->
     run argv w = (w, Traceback e)) /\
  (forall w1, plain argv = true -> read_from_virtio 30 w = (w1, Ok []) ->
     run argv w = (w1, Traceback e)) /\
  exit_status (Traceback e) = 1%Z /\
  (e = JSONDecodeError \/ e = UnicodeDecodeError).
Proof.
  intros Hc He.
  destruct (load_cache_damaged _ _ _ Hc He) as [Hload Hexit].
  split_and!.
  - intros pre key post -> Hpre. unfold run. rewrite (main_get _ _ _ Hpre).
    unfold bind. rewrite Hload. by destruct e.
  - intros Hget Hflag. unfold run, main.
    apply mem_str_false in Hget. unfold GET in Hget. rewrite Hget.
    destruct (mem_str (u "--list") argv) eqn:El.
    + unfold bind. rewrite Hload. by destruct e.
    + destruct Hflag as [Hl|Hj].
      * apply mem_str_spec in Hl. unfold LIST in Hl. congruence.
      * apply mem_str_spec in Hj. unfold JSON in Hj. rewrite Hj.
        unfold bind. rewrite Hload. by destruct e.
  - intros w1 Hp Hread. unfold run.
    rewrite (main_plain _ Hp), (read_or_fallback_empty _ _ Hread).
    assert (cache_file w1 = Some doc) as Hc1.
    { pose proof (keeps_cache_read_from_virtio 30 w) as Hk. rewrite Hread in Hk.
      unfold cache_of in Hk. simpl in Hk. congruence. }
    destruct (load_cache_damaged _ _ _ Hc1 He) as [Hload1 _].
    unfold fallback, bind. rewrite Hload1. by destruct e.
  - by destruct e.
  - destruct doc; simpl in He; [done | left | right]; congruence.
Qed.

(** *** Failures of the device *)

(** X8.  When the device cannot be opened, or a read fails before the loop
    is left, the read phase reports the error and returns the empty
    dictionary: nothing is raised, and whatever was received before the
    failure is dropped. *)
Theorem device_failure_yields_nothing timeout w w0 :
  wait_for_port timeout w = (w0, Ok false) ->
  let w0' := with_stderr w0 (stderr w0 ++ [Reading]) in
  let deadline := (now w0 + timeout * 1000)%Z in
  (port_opens w0 = false ->
   read_from_virtio timeout w
   = (with_stderr w0' (stderr w0' ++ [ErrorReading IOError]), Ok [])) /\
  (forall w1 e,
     port_opens w0 = true ->
     read_loop (read_steps w0' deadline) deadline [] w0' = (w1, Raise e) ->
     read_from_virtio timeout w
     = (with_stderr w1 (stderr w1 ++ [ErrorReading e]), Ok [])).
Proof.
  intros Hwait w0' deadline.
  rewrite (read_from_virtio_found _ _ _ Hwait). split.
  - intros Ho. unfold read_port. unfold bind at 1, print_err at 1. fold w0'.
    unfold try_except, bind, open_port.
    replace (port_opens w0') with false by (by destruct w0). done.
  - intros w1 e Ho Hloop. unfold read_port. unfold bind at 1, print_err at 1.
    fold w0'. unfold try_except, bind, open_port, time_time.
    replace (port_opens w0') with true by (by destruct w0).
    replace (now w0') with (now w0) by (by destruct w0).
    fold deadline. rewrite Hloop.
    pose proof (raises_only_read_loop (read_steps w0' deadline) deadline [] w0' e) as He.
    rewrite Hloop in He.
    by rewrite (He eq_refl).
Qed.

(** *** The read loop *)

Lemma read_loop_accumulates steps : forall deadline data w w1 data1,
  contains_bytes QUBESDB_FOOTER data = false ->
  read_loop steps deadline data w = (w1, Ok data1) ->
  exists n,
    device w1 = drop n (device w) /\
    data1 = buffered data (take n (device w)) /\
    (forall m, (m < n)%nat ->
       contains_bytes QUBESDB_FOOTER (buffered data (take m (device w))) = false).
Proof.
  induction steps as [|steps IH]; intros deadline data w w1 data1 Hdata.
  - simpl. intros [= <- <-]. exists 0%nat. unfold buffered. simpl.
    rewrite app_nil_r. split_and!; [done | done | lia].
  - cbn [read_loop]. unfold bind at 1, time_time at 1.
    destruct (Z.ltb_spec (now w) deadline) as [Hlt|Hge].
    2:{ intros [= <- <-]. exists 0%nat. unfold buffered. simpl.
        rewrite app_nil_r. split_and!; [done | done | lia]. }
    unfold bind at 1, f_read at 1.
    destruct (device w) as [|[delay chunk|] rest] eqn:Hdev; [| |done].
    + unfold bind at 1, sleep at 1. intros Hloop.
      destruct (IH _ _ _ _ _ Hdata Hloop) as (n & Hd & Hb & Hm).
      cbn [device with_clock] in Hd, Hb, Hm. rewrite Hdev in Hd, Hb, Hm.
      exists n. rewrite drop_nil in *. rewrite take_nil in *.
      split_and!; [done | done |].
      intros m _. rewrite take_nil. unfold buffered. simpl. by rewrite app_nil_r.
    + destruct chunk as [|c chunk].
      * unfold bind at 1, sleep at 1. intros Hloop.
        destruct (IH _ _ _ _ _ Hdata Hloop) as (n & Hd & Hb & Hm).
        cbn [device with_clock with_device] in Hd, Hb, Hm.
        exists (S n). split_and!; [done | done |].
        intros [|m] Hlt'; unfold buffered; simpl; [by rewrite app_nil_r|].
        apply Hm. lia.
      * destruct (contains_bytes QUBESDB_FOOTER (data ++ c :: chunk)) eqn:Hf.
        -- intros [= <- <-]. exists 1%nat. split_and!.
           ++ done.
           ++ unfold buffered. simpl. by rewrite app_nil_r.
           ++ intros m Hlt'. assert (m = 0%nat) as -> by lia.
              unfold buffered. simpl. by rewrite app_nil_r.
        -- intros Hloop.
           destruct (IH _ _ _ _ _ Hf Hloop) as (n & Hd & Hb & Hm).
           cbn [device with_clock with_device] in Hd, Hb, Hm.
           exists (S n). split_and!.
           ++ done.
           ++ rewrite Hb. unfold buffered. simpl. by rewrite <- app_assoc.
           ++ intros [|m] Hlt'; unfold buffered; simpl; [by rewrite app_nil_r|].
              specialize (Hm m ltac:(lia)). unfold buffered in Hm.
              by rewrite <- app_assoc in Hm.
Qed.

(** X9.  The read loop appends the chunks to the buffer in the order they
    are read, dropping and reordering nothing, and looks for the footer in
    the whole buffer after every chunk: it leaves at the first chunk that
    completes the footer, even when the footer arrives split over several
    reads, and otherwise when the deadline has passed. *)
Theorem read_loop_buffers_in_order deadline w w1 data :
  read_loop (read_steps w deadline) deadline [] w = (w1, Ok data) ->
  exists n,
    device w1 = drop n (device w) /\
    data = buffered [] (take n (device w)) /\
    (forall m, (m < n)%nat ->
       contains_bytes QUBESDB_FOOTER (buffered [] (take m (device w))) = false) /\
    (contains_bytes QUBESDB_FOOTER data = true \/ (deadline <= now w1)%Z).
Proof.
  intros Hloop.
  assert (contains_bytes QUBESDB_FOOTER [] = false) as Hnil by reflexivity.
  destruct (read_loop_accumulates _ _ _ _ _ _ Hnil Hloop) as (n & Hd & Hb & Hm).
  exists n. split_and!; [done | done | done |].
  by apply (read_loop_stops _ _ _ _ _ _ (le_n _) Hloop).
Qed.

Lemma reads_within_tail limit ev evs :
  reads_within limit (ev :: evs) -> reads_within limit evs.
Proof. intros H. by inversion H. Qed.

Lemma read_loop_time limit steps : forall deadline data w w1 r,
  reads_within limit (device w) ->
  read_loop steps deadline data w = (w1, r) ->
  (now w <= now w1)%Z /\
  (now w1 <= Z.max (now w) (deadline + Z.of_N limit + 100))%Z.
Proof.
  induction steps as [|steps IH]; intros deadline data w w1 r Hw.
  - simpl. intros [= <- <-]. lia.
  - cbn [read_loop]. unfold bind at 1, time_time at 1.
    destruct (Z.ltb_spec (now w) deadline) as [Hlt|Hge]; [|intros [= <- <-]; lia].
    unfold bind at 1, f_read at 1.
    destruct (device w) as [|[delay chunk|] rest] eqn:Hdev.
    + unfold bind at 1, sleep at 1. intros Hloop.
      apply IH in Hloop; [|cbn [device with_clock]; by rewrite Hdev].
      cbn [now with_clock] in Hloop. lia.
    + assert (delay <= limit) as Hdelay by (by inversion Hw).
      apply reads_within_tail in Hw.
      destruct chunk as [|c chunk].
      * unfold bind at 1, sleep at 1. intros Hloop.
        apply IH in Hloop; [|done]. cbn [now with_clock with_device] in Hloop. lia.
      * destruct (contains_bytes QUBESDB_FOOTER (data ++ c :: chunk)).
        -- intros [= <- <-]. cbn [now with_device]. lia.
        -- intros Hloop. apply IH in Hloop; [|done].
           cbn [now with_device] in Hloop. lia.
    + intros [= <- <-]. cbn [now with_device]. lia.
Qed.

(** *** The two deadlines *)

Lemma wait_loop_polls timeout w :
  exists n,
    (n <= Z.to_nat timeout)%nat /\
    wait_loop (Z.to_nat timeout) 0 timeout w = (after_polls w n, Ok (Z.of_nat n)) /\
    (forall i, (i < n)%nat ->
       port_exists_at w (now w + 1000 * Z.of_nat i)%Z = false) /\
    (port_exists_at w (now w + 1000 * Z.of_nat n)%Z = true \/ n = Z.to_nat timeout).
Proof.
  destruct (wait_loop_spec (Z.to_nat timeout) 0 timeout w ltac:(f_equal; lia))
    as (n & Hn & Heq & Hbefore & Hstop).
  exists n. split_and!; [done | by rewrite Heq | done |].
  destruct Hstop as [?|?]; [by left | right; lia].
Qed.

(** The wait phase ends after [n] sleeps of one second, [n] at most
    [timeout], and touches nothing but the clock and the error stream. *)
Lemma wait_for_port_spec timeout w :
  exists n missing err,
    (n <= Z.to_nat timeout)%nat /\
    wait_for_port timeout w = (with_stderr (after_polls w n) (stderr w ++ err), Ok missing).
Proof.
  unfold wait_for_port. unfold bind at 1, port_exists at 1.
  destruct (port_exists_at w (now w)) eqn:He; cbn [negb].
  - exists 0%nat, false, []. split; [lia|]. rewrite after_polls_0.
    unfold ret. f_equal. destruct w; simpl. by rewrite app_nil_r.
  - unfold bind at 1, print_err at 1. set (w' := with_stderr w _).
    destruct (wait_loop_polls timeout w') as (n & Hn & Heq & _ & _).
    unfold bind at 1. rewrite Heq. unfold bind at 1, port_exists at 1.
    destruct (port_exists_at (after_polls w' n) (now (after_polls w' n)));
      cbn [negb].
    + exists n, false, [Waiting]. split; [done|]. unfold ret. subst w'.
      by destruct w.
    + exists n, true, [Waiting; NotFoundAfter timeout]. split; [done|].
      unfold bind, print_err, ret. f_equal. subst w'. destruct w.
      unfold with_stderr, after_polls, with_clock. simpl. by rewrite <- ?app_assoc.
Qed.

(** X11.  When the endpoint appears at the [n]-th poll, [n] at most
    [timeout], the wait phase ends after exactly [n] sleeps of one second
    and the read phase starts there, with a deadline counted from that
    moment: the time spent waiting is not taken from the read phase. *)
Theorem wait_ends_when_endpoint_appears timeout w n :
  (Z.of_nat n <= timeout)%Z ->
  appears_at_poll w n ->
  let w0 := match n with
            | O => w
            | S _ => with_stderr (after_polls w n) (stderr w ++ [Waiting])
            end in
  wait_for_port timeout w = (w0, Ok false) /\
  now w0 = (now w + 1000 * Z.of_nat n)%Z /\
  naps w0 = naps w ++ repeat 1000%Z n /\
  read_from_virtio timeout w = read_port timeout w0.
Proof.
  intros Hn [Hbefore Hthere] w0.
  assert (wait_for_port timeout w = (w0, Ok false)) as Hwait.
  { unfold wait_for_port. unfold bind at 1, port_exists at 1.
    destruct n as [|n].
    - replace (now w + 1000 * Z.of_nat 0)%Z with (now w) in Hthere by lia.
      by rewrite Hthere.
    - pose proof (Hbefore 0%nat ltac:(lia)) as H0.
      replace (now w + 1000 * Z.of_nat 0)%Z with (now w) in H0 by lia.
      rewrite H0. cbn [negb].
      unfold bind at 1, print_err at 1. set (w' := with_stderr w _).
      destruct (wait_loop_polls timeout w') as (m & Hm & Heq & Hmb & Hstop).
      assert (port_exists_at w' = port_exists_at w) as Hp by (subst w'; by destruct w).
      assert (now w' = now w) as Hnow by (subst w'; by destruct w).
      rewrite Hp, Hnow in Hmb, Hstop.
      assert (m = S n) as ->.
      { destruct (Nat.lt_trichotomy m (S n)) as [Hlt|[->|Hgt]]; [|done|].
        - destruct Hstop as [Hs|Hs]; [|lia]. by rewrite (Hbefore m Hlt) in Hs.
        - by rewrite (Hmb (S n) Hgt) in Hthere. }
      unfold bind at 1. rewrite Heq. unfold bind at 1, port_exists at 1.
      assert (port_exists_at (after_polls w' (S n)) (now (after_polls w' (S n)))
              = true) as ->.
      { rewrite <- Hthere. subst w'. by destruct w. }
      cbn [negb]. unfold ret. subst w' w0. by destruct w. }
  split; [done|]. split; [|split].
  - subst w0. destruct n; [lia|]. by destruct w.
  - subst w0. destruct n; [simpl; by rewrite app_nil_r|]. by destruct w.
  - by apply read_from_virtio_found.
Qed.

Lemma read_port_time limit timeout w w1 r :
  (0 <= timeout)%Z ->
  reads_within limit (device w) ->
  read_port timeout w = (w1, r) ->
  (now w <= now w1)%Z /\
  (now w1 <= now w + timeout * 1000 + Z.of_N limit + 100)%Z.
Proof.
  intros Ht Hw. unfold read_port. unfold bind at 1, print_err at 1.
  set (w' := with_stderr w _).
  assert (now w' = now w) as Hnow by (subst w'; by destruct w).
  assert (device w' = device w) as Hdev by (subst w'; by destruct w).
  unfold try_except, bind, open_port, time_time.
  destruct (port_opens w').
  - destruct (read_loop _ _ _ w') as [w2 r2] eqn:Hloop.
    apply (read_loop_time limit) in Hloop; [|by rewrite Hdev].
    destruct r2 as [data|e].
    + intros [= <- <-]. lia.
    + destruct (is_OSError e); intros [= <- <-]; cbn [now with_stderr]; lia.
  - cbn [is_OSError print_err]. intros [= <- <-]. cbn [now with_stderr]. lia.
Qed.

(** X10.  The read never blocks for long: with a timeout that is not
    negative and reads that each return within [limit] milliseconds,
    [read_from_virtio] is back after at most the timeout of the wait phase,
    the timeout of the read phase, one read and one pause of 100 ms. *)
Theorem read_from_virtio_is_bounded timeout limit w :
  (0 <= timeout)%Z ->
  reads_within limit (device w) ->
  (now w <= now (fst (read_from_virtio timeout w)))%Z /\
  (now (fst (read_from_virtio timeout w))
   <= now w + 2 * (timeout * 1000) + Z.of_N limit + 100)%Z.
Proof.
  intros Ht Hw. unfold read_from_virtio, bind.
  destruct (wait_for_port_spec timeout w) as (n & missing & err & Hn & ->).
  set (w0 := with_stderr _ _).
  assert (now w0 = (now w + 1000 * Z.of_nat n)%Z) as Hnow by (subst w0; by destruct w).
  assert (device w0 = device w) as Hdev by (subst w0; by destruct w).
  destruct missing.
  - simpl. lia.
  - destruct (read_port timeout w0) as [w1 r] eqn:Hread.
    destruct (read_port_time limit timeout w0 w1 r Ht) as [H1 H2];
      [by rewrite Hdev | done |]. simpl. lia.
Qed.

(** *** What the read leaves alone *)

Lemma keeps_rest_ret {A} (a : A) : keeps_rest (ret a).
Proof. by intros w. Qed.

Lemma keeps_rest_bind {A B} (m : M A) (k : A -> M B) :
  keeps_rest m -> (forall a, keeps_rest (k a)) -> keeps_rest (bind m k).
Proof.
  intros Hm Hk w. unfold bind. specialize (Hm w).
  destruct (m w) as [w' [a|e]]; simpl in *; [|done].
  by rewrite Hk.
Qed.

Lemma keeps_rest_try_except {A} (m : M A) handled h :
  keeps_rest m -> (forall e, keeps_rest (h e)) -> keeps_rest (try_except m handled h).
Proof.
  intros Hm Hh w. unfold try_except. specialize (Hm w).
  destruct (m w) as [w' [a|e]]; simpl in *; [done|].
  destruct (handled e); [|done]. by rewrite Hh.
Qed.

Lemma keeps_rest_print_err m : keeps_rest (print_err m).
Proof. by intros w. Qed.
Lemma keeps_rest_sleep ms : keeps_rest (sleep ms).
Proof. by intros w. Qed.
Lemma keeps_rest_port_exists : keeps_rest port_exists.
Proof. by intros w. Qed.
Lemma keeps_rest_time_time : keeps_rest time_time.
Proof. by intros w. Qed.
Lemma keeps_rest_open_port : keeps_rest open_port.
Proof. intros w. unfold open_port. by destruct (port_opens w). Qed.
Lemma keeps_rest_f_read : keeps_rest f_read.
Proof. intros w. unfold f_read. by destruct (device w) as [|[]]. Qed.

Lemma keeps_rest_wait_loop polls waited timeout :
  keeps_rest (wait_loop polls waited timeout).
Proof.
  revert waited. induction polls as [|polls IH]; intros waited; simpl.
  - apply keeps_rest_ret.
  - apply keeps_rest_bind; [apply keeps_rest_port_exists|]. intros e.
    destruct (_ && _); [|apply keeps_rest_ret].
    apply keeps_rest_bind; [apply keeps_rest_sleep | intros _; apply IH].
Qed.

Lemma keeps_rest_read_loop steps deadline data :
  keeps_rest (read_loop steps deadline data).
Proof.
  revert data. induction steps as [|steps IH]; intros data; simpl.
  - apply keeps_rest_ret.
  - apply keeps_rest_bind; [apply keeps_rest_time_time|]. intros t.
    destruct (_ <? _)%Z; [|apply keeps_rest_ret].
    apply keeps_rest_bind; [apply keeps_rest_f_read|]. intros [|c chunk].
    + apply keeps_rest_bind; [apply keeps_rest_sleep | intros _; apply IH].
    + destruct (contains_bytes _ _); [apply keeps_rest_ret | apply IH].
Qed.

Lemma keeps_rest_read_from_virtio timeout : keeps_rest (read_from_virtio timeout).
Proof.
  unfold read_from_virtio, wait_for_port, read_port.
  apply keeps_rest_bind.
  - apply keeps_rest_bind; [apply keeps_rest_port_exists|]. intros e.
    destruct (negb e); [|apply keeps_rest_ret].
    apply keeps_rest_bind; [apply keeps_rest_print_err|]. intros _.
    apply keeps_rest_bind; [apply keeps_rest_wait_loop|]. intros _.
    apply keeps_rest_bind; [apply keeps_rest_port_exists|]. intros e'.
    destruct (negb e'); [|apply keeps_rest_ret].
    apply keeps_rest_bind; [apply keeps_rest_print_err | intros _; apply keeps_rest_ret].
  - intros [|]; [apply keeps_rest_ret|].
    apply keeps_rest_bind; [apply keeps_rest_print_err|]. intros _.
    apply keeps_rest_try_except.
    + apply keeps_rest_bind; [apply keeps_rest_open_port|]. intros _.
      apply keeps_rest_bind; [apply keeps_rest_time_time|]. intros t.
      apply keeps_rest_bind; [|intros d; apply keeps_rest_ret].
      intros w. apply (keeps_rest_read_loop _ _ _ w).
    + intros e. apply keeps_rest_bind; [apply keeps_rest_print_err|].
      intros _. apply keeps_rest_ret.
Qed.

(** X7.  [read_from_virtio] absorbs every failure of the device: it always
    returns a dictionary and never raises; it writes nothing to the cache
    and nothing to the standard output, whatever the endpoint and the device
    do. *)
Theorem read_from_virtio_absorbs_failures timeout w :
  (exists entries, snd (read_from_virtio timeout w) = Ok entries) /\
  cache_file (fst (read_from_virtio timeout w)) = cache_file w /\
  entry_files (fst (read_from_virtio timeout w)) = entry_files w /\
  stdout (fst (read_from_virtio timeout w)) = stdout w.
Proof.
  split; [apply read_from_virtio_returns|].
  pose proof (keeps_rest_read_from_virtio timeout w) as H.
  unfold beyond_reach in H. by injection H.
Qed.

(** *** Lookups in a parsed frame *)

Lemma elem_of_keys_dict_set x k v d :
  x ∈ keys (dict_set k v d) <-> x = k \/ x ∈ keys d.
Proof.
  induction d as [|[k' v'] d IH]; simpl.
  - rewrite list_elem_of_singleton. split; [by left|].
    intros [?|H]; [done | by apply elem_of_nil in H].
  - destruct (str_eqb k' k) eqn:E; simpl.
    + apply str_eqb_eq in E. subst. rewrite !elem_of_cons. tauto.
    + rewrite !elem_of_cons, IH. tauto.
Qed.

Lemma NoDup_keys_dict_set k v d :
  NoDup (keys d) -> NoDup (keys (dict_set k v d)).
Proof.
  induction d as [|[k' v'] d IH]; simpl; intros Hnd.
  - apply NoDup_singleton.
  - apply NoDup_cons in Hnd as [Hk' Hnd].
    destruct (str_eqb k' k) eqn:E; simpl.
    + apply str_eqb_eq in E. subst. by apply NoDup_cons.
    + apply NoDup_cons. split; [|by apply IH].
      rewrite elem_of_keys_dict_set. apply str_eqb_neq in E.
      intros [?|?]; [congruence | done].
Qed.

Lemma NoDup_keys_parse_line entries line :
  NoDup (keys entries) -> NoDup (keys (parse_line entries line)).
Proof.
  intros H. unfold parse_line. destruct (_ || _); [done|].
  destruct (contains_char _ _); [|done].
  destruct (split_first _ _). by apply NoDup_keys_dict_set.
Qed.

Lemma parse_line_other entries line k :
  (forall v, ~ assigns line k v) ->
  dict_get k (parse_line entries line) = dict_get k entries.
Proof.
  intros Hno. unfold parse_line. destruct (_ || _); [done|].
  destruct (contains_char EQUALS (strip line)) eqn:E; [|done].
  apply contains_char_spec in E.
  destruct (split_first_inv _ _ E) as (k' & v' & Hs & Hk' & ->).
  apply dict_get_set_ne. intros ->. by apply (Hno v').
Qed.

Lemma parse_line_assigns entries line k v :
  assigns line k v -> dict_get k (parse_line entries line) = Some v.
Proof.
  intros [Hs Hk]. rewrite (parse_line_pair _ _ k v) by done.
  apply dict_get_set_eq.
Qed.

Lemma assigns_or_not line k :
  (exists v, assigns line k v) \/ (forall v, ~ assigns line k v).
Proof.
  destruct (contains_char EQUALS (strip line)) eqn:E.
  - apply contains_char_spec in E.
    destruct (split_first_inv _ _ E) as (k' & v' & Hs & Hk' & Hsplit).
    destruct (decide (k' = k)) as [->|Hne].
    + left. by exists v'.
    + right. intros v [Hv Hk]. rewrite Hv in Hsplit.
      rewrite split_first_spec in Hsplit by done. congruence.
  - apply contains_char_false in E. right. intros v [Hv _].
    apply E. rewrite Hv. apply elem_of_app. right. by left.
Qed.

Lemma fold_parse_line_other lines : forall entries k,
  (forall l v, l ∈ lines -> ~ assigns l k v) ->
  dict_get k (fold_left parse_line lines entries) = dict_get k entries.
Proof.
  induction lines as [|l lines IH]; intros entries k Hno; [done|].
  cbn [fold_left]. rewrite IH.
  - apply parse_line_other. intros v. apply Hno. by left.
  - intros l' v Hin. apply Hno. by right.
Qed.

Lemma fold_parse_line_found lines : forall entries k,
  is_Some (dict_get k (fold_left parse_line lines entries)) ->
  is_Some (dict_get k entries) \/ exists l v, l ∈ lines /\ assigns l k v.
Proof.
  induction lines as [|l lines IH]; intros entries k Hsome; [by left|].
  cbn [fold_left] in Hsome. destruct (IH _ _ Hsome) as [H|(l' & v & Hin & Ha)].
  - unfold parse_line in H. destruct (_ || _); [by left|].
    destruct (contains_char EQUALS (strip l)) eqn:E; [|by left].
    apply contains_char_spec in E.
    destruct (split_first_inv _ _ E) as (k' & v' & Hs & Hk' & Heq).
    rewrite Heq in H. destruct (decide (k' = k)) as [->|Hne].
    + right. exists l, v'. split; [by left | done].
    + rewrite dict_get_set_ne in H by done. by left.
  - right. exists l', v. split; [by right | done].
Qed.

(** X12.  The parsed frame is a dictionary: its keys are distinct.  A
    lookup returns the value of the last line that assigns to the key,
    whatever the text around it, and finds nothing exactly when no line
    assigns to the key. *)
Theorem parsed_frame_lookup text k :
  NoDup (keys (parse_text text)) /\
  (forall before line after v,
     splitlines text = before ++ line :: after ->
     assigns line k v ->
     (forall l v', l ∈ after -> ~ assigns l k v') ->
     dict_get k (parse_text text) = Some v) /\
  (dict_get k (parse_text text) = None <->
   forall l v, l ∈ splitlines text -> ~ assigns l k v).
Proof.
  unfold parse_text. split_and!.
  - generalize (splitlines text). intros lines.
    assert (NoDup (keys (@nil (str * str)))) as H by constructor.
    revert H. generalize (@nil (str * str)).
    induction lines as [|l lines IH]; intros entries H; [done|].
    cbn [fold_left]. by apply IH, NoDup_keys_parse_line.
  - intros before line after v -> Ha Hafter.
    rewrite fold_left_app. cbn [fold_left].
    rewrite fold_parse_line_other by done. by apply parse_line_assigns.
  - split.
    + intros Hnone l v Hin Ha.
      apply list_elem_of_split in Hin as (before & after & Heq).
      revert Hnone. rewrite Heq. clear Heq. revert before l v Ha.
      induction after as [|l' after IH] using rev_ind; intros before l v Ha.
      * rewrite fold_left_app. cbn [fold_left].
        by rewrite (parse_line_assigns _ _ _ _ Ha).
      * rewrite app_comm_cons, app_assoc, fold_left_app. cbn [fold_left].
        destruct (assigns_or_not l' k) as [[v' Ha']|Hno].
        -- by rewrite (parse_line_assigns _ _ _ _ Ha').
        -- rewrite parse_line_other by done.
           by apply (IH before l v).
    + intros Hno. destruct (dict_get k _) as [found|] eqn:E; [|done].
      destruct (fold_parse_line_found (splitlines text) [] k)
        as [[? H]|(l0 & v0 & Hin & Ha)].
      * by rewrite E.
      * done.
      * by destruct (Hno l0 v0 Hin).
Qed.

(** *** The names of the per-key files *)

Lemma replace_char_no_slash s : SLASH ∉ replace_char SLASH UNDERSCORE s.
Proof.
  unfold replace_char. intros (x & Hx & _)%list_elem_of_fmap.
  destruct (N.eqb_spec x SLASH) as [Heq|Hne]; [discriminate Hx|congruence].
Qed.

Lemma replace_char_fixed s :
  SLASH ∉ s -> replace_char SLASH UNDERSCORE s = s.
Proof.
  induction s as [|c s IH]; [done|]. intros [Hc Hs]%not_elem_of_cons.
  unfold replace_char in *. cbn [map].
  destruct (N.eqb_spec c SLASH) as [Heq|_]; [congruence|]. by rewrite IH.
Qed.

Lemma lstrip_slash_fixed s :
  SLASH ∉ s -> lstrip_chars (N.eqb SLASH) s = s.
Proof.
  destruct s as [|c s]; [done|]. intros [Hc _]%not_elem_of_cons.
  unfold lstrip_chars. cbn [dropwhile].
  destruct (N.eqb_spec SLASH c) as [Heq|_]; [congruence|done].
Qed.

Lemma dropwhile_length {A} (p : A -> bool) l :
  (length (dropwhile p l) <= length l)%nat.
Proof. induction l as [|x l IH]; simpl; [done|]. destruct (p x); simpl; lia. Qed.

Lemma dropwhile_nil {A} (p : A -> bool) l :
  dropwhile p l = [] <-> Forall (fun x => p x = true) l.
Proof.
  induction l as [|x l IH]; simpl.
  - split; [constructor|done].
  - destruct (p x) eqn:E.
    + rewrite IH. split; [by constructor|]. by intros [_ ?]%Forall_cons.
    + split; [done|]. intros [? _]%Forall_cons. congruence.
Qed.

Lemma lstrip_repeat_slash n s :
  (forall r, s <> SLASH :: r) ->
  lstrip_chars (N.eqb SLASH) (repeat SLASH n ++ s) = s.
Proof.
  intros Hs. unfold lstrip_chars. induction n as [|n IH]; simpl.
  - destruct s as [|c s]; [done|]. cbn [dropwhile].
    destruct (N.eqb_spec SLASH c) as [Heq|_]; [|done].
    destruct (Hs s). by rewrite Heq.
  - exact IH.
Qed.

(** X13.  The name of a per-key file has no slash, so that it names a file
    directly inside the directory of the entries; the name of a name is the
    name itself; any number of leading slashes is dropped and every other
    slash becomes an underscore; the name is empty exactly for a key made of
    slashes only, and the file of such a key cannot be opened. *)
Theorem safe_key_is_flat k :
  (SLASH ∉ safe_key k) /\
  safe_key (safe_key k) = safe_key k /\
  (length (safe_key k) <= length k)%nat /\
  (forall n s, (forall r, s <> SLASH :: r) ->
     safe_key (repeat SLASH n ++ s) = replace_char SLASH UNDERSCORE s) /\
  (safe_key k = [] <-> Forall (fun c => c = SLASH) k) /\
  (Forall (fun c => c = SLASH) k ->
   name_error (safe_key k) = Some IsADirectoryError).
Proof.
  assert (safe_key k = [] <-> Forall (fun c => c = SLASH) k) as Hnil.
  { unfold safe_key, replace_char, lstrip_chars.
    rewrite <- (Forall_iff (fun x => (SLASH =? x) = true)), <- dropwhile_nil.
    - split; [apply fmap_nil_inv | by intros ->].
    - intros c. rewrite N.eqb_eq. split; congruence. }
  split_and!.
  - apply replace_char_no_slash.
  - unfold safe_key at 1.
    rewrite lstrip_slash_fixed by apply replace_char_no_slash.
    apply replace_char_fixed, replace_char_no_slash.
  - unfold safe_key, replace_char, lstrip_chars. rewrite length_map.
    apply dropwhile_length.
  - intros n s Hs. unfold safe_key. by rewrite lstrip_repeat_slash.
  - exact Hnil.
  - intros Hk. apply Hnil in Hk. by rewrite Hk.
Qed.

(** *** A save that fails half-way *)

Lemma for_each_write_stops pre k v post e : forall w,
  Forall nameable pre ->
  Forall plain_entry pre ->
  name_error (safe_key k) = Some e ->
  for_each (pre ++ (k, v) :: post) (fun '(k, v) => write_entry_file (safe_key k) v) w
  = (with_entry_files w (write_all pre (entry_files w)), Raise e).
Proof.
  induction pre as [|[k' v'] pre IH]; intros w Hn Hp He.
  - cbn [app for_each]. unfold bind at 1, write_entry_file at 1. rewrite He.
    unfold raise. by rewrite with_entry_files_id.
  - apply Forall_cons in Hn as [Hkv Hn]. apply Forall_cons in Hp as [Hpkv Hp].
    cbn [app for_each]. unfold bind at 1. rewrite write_entry_file_plain by done.
    rewrite IH by done. by destruct w.
Qed.

Lemma save_cache_stops pre k v post e w :
  Forall nameable pre ->
  Forall plain_entry pre ->
  name_error (safe_key k) = Some e ->
  save_cache (pre ++ (k, v) :: post) w
  = (with_entry_files
       (with_stderr (with_cache_file w (Some (JsonObject (pre ++ (k, v) :: post))))
          (stderr w ++ [Cached (length (pre ++ (k, v) :: post))]))
       (write_all pre (entry_files w)), Raise e).
Proof.
  intros Hn Hp He. unfold save_cache. unfold bind at 1. unfold bind at 1.
  unfold print_err at 1. rewrite (for_each_write_stops _ _ _ _ e) by done.
  by destruct w.
Qed.

Lemma name_error_not_exit name e : name_error name = Some e -> not_exit e = true.
Proof.
  unfold name_error. destruct (fsencode name); [|by intros [= <-]].
  repeat match goal with |- context [if ?c then _ else _] => destruct c end;
    by intros [= <-].
Qed.

(** X14.  [save_cache] stops at the first entry whose per-key file cannot be
    opened: by then the aggregate document holds all the entries, the count
    is reported, and exactly the per-key files of the entries before that one
    are written.  The exception is not caught: the run that read these
    entries ends in a traceback with status 1, and reports nothing as
    loaded. *)
Theorem save_cache_stops_at_unwritable_name argv pre k v post e w0 w :
  Forall nameable pre ->
  name_error (safe_key k) = Some e ->
  plain argv = true ->
  read_from_virtio 30 w0 = (w, Ok (pre ++ (k, v) :: post)) ->
  let entries := pre ++ (k, v) :: post in
  let w' :=
    with_entry_files
      (with_stderr (with_cache_file w (Some (JsonObject entries)))
         (stderr w ++ [Cached (length entries)]))
      (write_all pre (entry_files w)) in
  save_cache entries w = (w', Raise e) /\
  run argv w0 = (w', Traceback e) /\
  exit_status (snd (run argv w0)) = 1%Z /\
  Load w' = Ok entries /\
  (forall name, name ∉ map safe_key (keys pre) ->
     entry_files w' !! name = entry_files w !! name).
Proof.
  intros Hn He Hplain Hread entries w'.
  assert (Forall plain_entry pre) as Hp.
  { apply read_from_virtio_plain in Hread. by apply Forall_app in Hread as [? _]. }
  assert (run argv w0 = (w', Traceback e)) as Hrun.
  { unfold run.
    rewrite (main_plain _ Hplain), (read_or_fallback_fresh _ _ _ Hread)
      by (by destruct pre).
    unfold bind at 1. rewrite (save_cache_stops _ _ _ _ e) by done.
    apply name_error_not_exit in He. by destruct e. }
  split_and!.
  - by apply save_cache_stops.
  - exact Hrun.
  - by rewrite Hrun.
  - by destruct w.
  - intros name Hname. subst w'. cbn [entry_files with_entry_files].
    rewrite write_all_lookup. by apply last_written_other.
Qed.

(** *** What a run reports *)

Lemma for_each_loaded items : forall w,
  for_each items (fun '(k, v) => print_err (LoadedEntry k v)) w
  = (with_stderr w (stderr w ++ loaded items), Ok tt).
Proof.
  induction items as [|[k v] items IH]; intros w.
  - simpl. unfold ret. destruct w; simpl. by rewrite app_nil_r.
  - cbn [for_each]. unfold bind at 1, print_err at 1. rewrite IH.
    destruct w; simpl. by rewrite <- app_assoc.
Qed.

(** X15.  A run whose fresh read yields entries that can all be saved
    reports, on the error stream and in this order, the number of entries
    cached, the number of entries loaded, and one line per entry in the
    order of [sorted]; it prints nothing on the standard output and
    returns. *)
Theorem fresh_read_is_reported argv w w1 entries :
  plain argv = true ->
  read_from_virtio 30 w = (w1, Ok entries) ->
  entries <> [] ->
  Forall nameable entries ->
  run argv w
  = (with_stderr
       (with_entry_files (with_cache_file w1 (Some (JsonObject entries)))
          (write_all entries (entry_files w1)))
       (stderr w1 ++ Cached (length entries) :: Loaded (length entries)
                  :: loaded (sorted_items entries)),
     Returned).
Proof.
  intros Hplain Hread Hne Hn. unfold run.
  pose proof (read_from_virtio_plain _ _ _ _ Hread) as Hp.
  rewrite (main_plain _ Hplain), (read_or_fallback_fresh _ _ _ Hread Hne).
  unfold bind at 1. rewrite save_cache_spec by done.
  unfold bind at 1, print_err at 1. rewrite for_each_loaded.
  destruct w1; simpl. by rewrite <- !app_assoc.
Qed.

(** X16.  A run whose fresh read yields nothing, on a guest whose aggregate
    document holds entries, reports how many entries the cache holds and
    returns; the entries themselves are neither printed nor rewritten. *)
Theorem empty_read_reports_cache_size argv w w1 d :
  plain argv = true ->
  read_from_virtio 30 w = (w1, Ok []) ->
  Load w = Ok d ->
  d <> [] ->
  run argv w = (with_stderr w1 (stderr w1 ++ [UsingCached (length d)]), Returned).
Proof.
  intros Hplain Hread Hload Hne. unfold run.
  rewrite (main_plain _ Hplain), (read_or_fallback_empty _ _ Hread).
  assert (Load w1 = Ok d) as Hload1.
  { pose proof (keeps_cache_read_from_virtio 30 w) as Hk.
    rewrite Hread in Hk. unfold cache_of in Hk. cbn [fst] in Hk.
    apply pair_equal_spec in Hk as [Hc _].
    unfold Load, load_cache in *. rewrite Hc.
    by destruct (cache_file w) as [[]|]. }
  unfold fallback, bind at 1. rewrite (load_cache_Load _ _ Hload1).
  by destruct d.
Qed.

(** *** The third query mode *)

(** X24.  [--json], when neither [--get] nor [--list] is on the command
    line, prints the whole cached dictionary as one JSON document on the
    standard output and returns. *)
Theorem json_dumps_the_cache argv w d :
  GET ∉ argv ->
  LIST ∉ argv ->
  JSON ∈ argv ->
  Load w = Ok d ->
  run argv w = (with_stdout w (stdout w ++ [JsonDump d]), Returned).
Proof.
  intros Hget Hlist Hjson Hload. unfold run, main.
  apply mem_str_false in Hget, Hlist. apply mem_str_spec in Hjson.
  unfold GET, LIST, JSON in *. rewrite Hget, Hlist, Hjson.
  unfold bind at 1. by rewrite (load_cache_Load _ _ Hload).
Qed.

(** *** A timeout that leaves no time *)

Lemma read_loop_past_deadline steps deadline data w :
  (deadline <= now w)%Z -> read_loop steps deadline data w = (w, Ok data).
Proof.
  intros Hd. destruct steps as [|steps]; [done|].
  cbn [read_loop]. unfold bind at 1, time_time at 1.
  apply Z.ltb_ge in Hd. by rewrite Hd.
Qed.

(** X25.  With a timeout of zero, or a negative one, [read_from_virtio]
    neither sleeps nor reads: it returns the empty dictionary at once and
    leaves the device as it is, whether the endpoint is there or not. *)
Theorem nonpositive_timeout_reads_nothing timeout w :
  (timeout <= 0)%Z ->
  snd (read_from_virtio timeout w) = Ok [] /\
  now (fst (read_from_virtio timeout w)) = now w /\
  naps (fst (read_from_virtio timeout w)) = naps w /\
  device (fst (read_from_virtio timeout w)) = device w.
Proof.
  intros Ht.
  assert (exists err, read_from_virtio timeout w
                      = (with_stderr w (stderr w ++ err), Ok [])) as [err ->];
    [|by destruct w].
  unfold read_from_virtio, wait_for_port. unfold bind at 1. unfold bind at 1.
  unfold port_exists at 1.
  destruct (port_exists_at w (now w)) eqn:He; cbn [negb].
  - unfold ret at 1. unfold read_port, bind at 1, print_err at 1.
    set (w' := with_stderr w _). unfold try_except, bind at 1, open_port at 1.
    destruct (port_opens w') eqn:Ho.
    + unfold bind at 1, time_time at 1. unfold bind at 1.
      rewrite read_loop_past_deadline by nia.
      exists [Reading]. by unfold ret.
    + cbn [is_OSError]. unfold bind, print_err, ret.
      exists [Reading; ErrorReading IOError]. subst w'. destruct w; simpl.
      by rewrite <- app_assoc.
  - unfold bind at 1, print_err at 1. unfold bind at 1.
    replace (Z.to_nat timeout) with 0%nat by lia. cbn [wait_loop]. unfold ret at 1.
    unfold bind at 1, port_exists at 1. cbn [now port_exists_at with_stderr].
    rewrite He.
    cbn [negb]. unfold bind, print_err, ret.
    exists [Waiting; NotFoundAfter timeout]. destruct w; simpl.
    by rewrite <- app_assoc.
Qed.

(** *** The standard output of the boot-time run *)

Lemma quiet_ret {A} (a : A) : quiet (ret a).
Proof. by intros w. Qed.

Lemma quiet_bind {A B} (m : M A) (k : A -> M B) :
  quiet m -> (forall a, quiet (k a)) -> quiet (bind m k).
Proof.
  intros Hm Hk w. unfold bind. specialize (Hm w).
  destruct (m w) as [w' [a|e]]; simpl in *; [|done].
  by rewrite Hk.
Qed.

Lemma quiet_print_err m : quiet (print_err m).
Proof. by intros w. Qed.

Lemma quiet_for_each {A} (l : list A) (body : A -> M unit) :
  (forall x, quiet (body x)) -> quiet (for_each l body).
Proof.
  intros Hb. induction l as [|x l IH]; simpl; [apply quiet_ret|].
  apply quiet_bind; [apply Hb | intros _; apply IH].
Qed.

Lemma quiet_read_from_virtio timeout : quiet (read_from_virtio timeout).
Proof.
  intros w. pose proof (keeps_rest_read_from_virtio timeout w) as H.
  unfold beyond_reach in H. by injection H.
Qed.

Lemma quiet_save_cache entries : quiet (save_cache entries).
Proof.
  unfold save_cache. apply quiet_bind; [by intros w|]. intros _.
  apply quiet_bind; [apply quiet_print_err|]. intros _.
  apply quiet_for_each. intros [k v] w. unfold write_entry_file.
  destruct (name_error (safe_key k)); [done|]. by destruct (utf8_encode v).
Qed.

Lemma quiet_load_cache : quiet load_cache.
Proof. intros w. unfold load_cache. by destruct (cache_file w) as [[]|]. Qed.

Lemma quiet_read_or_fallback : quiet read_or_fallback.
Proof.
  unfold read_or_fallback. apply quiet_bind; [apply quiet_read_from_virtio|].
  intros entries. destruct (truthy entries).
  - apply quiet_bind; [apply quiet_save_cache|]. intros _.
    apply quiet_bind; [apply quiet_print_err|]. intros _.
    apply quiet_for_each. intros [k v]. apply quiet_print_err.
  - apply quiet_bind; [apply quiet_load_cache|]. intros cached.
    destruct (truthy cached); apply quiet_print_err.
Qed.

(** X26.  The boot-time run, without any query on the command line, never
    writes on the standard output: every message of the wait, the read, the
    save and the fallback goes to the error stream, however the run
    ends. *)
Theorem boot_run_keeps_stdout argv w :
  plain argv = true -> stdout (fst (run argv w)) = stdout w.
Proof.
  intros Hplain. rewrite run_fst, (main_plain _ Hplain).
  apply quiet_read_or_fallback.
Qed.

(** *** Instances *)

(** A value with a lone high surrogate is not printed, not even by the
    handler [surrogateescape]: [--get] and [--list] end in a traceback,
    while [--json] prints its dump, which is ASCII. *)
Lemma surrogate_value_is_not_printed :
  Load odd_guest = Ok odd_value /\
  run [prog; GET; u "/name"] odd_guest = (odd_guest, Traceback UnicodeEncodeError) /\
  run [prog; LIST] odd_guest = (odd_guest, Traceback UnicodeEncodeError) /\
  run [prog; JSON] odd_guest
  = (with_stdout odd_guest [JsonDump odd_value], Returned).
Proof. by vm_compute. Qed.

Lemma get_prints_value_or_exits_1_witness :
  (GET ∉ [prog]) /\
  Load cached_guest = Ok two_entries /\
  run ([prog] ++ GET :: u "/name" :: []) cached_guest
  = (with_stdout cached_guest [Value (u "work")], Returned).
Proof.
  assert (GET ∉ [prog]) as H1 by (apply (bool_decide_unpack _); by vm_compute).
  assert (Load cached_guest = Ok two_entries) as H2 by reflexivity.
  split; [exact H1|]. split; [exact H2|].
  destruct (get_prints_value_or_exits_1 [prog] (u "/name") [] cached_guest
              two_entries H1 H2) as [H _].
  rewrite H. by vm_compute.
Defined.

Lemma get_without_key_is_silent_witness :
  (GET ∉ [prog]) /\ run ([prog] ++ [GET]) first_boot = (first_boot, Returned).
Proof.
  assert (GET ∉ [prog]) as H1 by (apply (bool_decide_unpack _); by vm_compute).
  split; [exact H1|].
  exact (get_without_key_is_silent [prog] first_boot H1).
Defined.

Lemma list_prints_sorted_entries_witness :
  (GET ∉ [prog; LIST]) /\
  LIST ∈ [prog; LIST] /\
  Load cached_guest = Ok two_entries /\
  run [prog; LIST] cached_guest
  = (with_stdout cached_guest
       [ListedEntry (u "/memory") (u "4096"); ListedEntry (u "/name") (u "work")],
     Returned).
Proof.
  assert (GET ∉ [prog; LIST]) as H1 by (apply (bool_decide_unpack _); by vm_compute).
  assert (LIST ∈ [prog; LIST]) as H2 by (apply (bool_decide_unpack _); by vm_compute).
  assert (Load cached_guest = Ok two_entries) as H3 by reflexivity.
  split; [exact H1|]. split; [exact H2|]. split; [exact H3|].
  destruct (list_prints_sorted_entries [prog; LIST] cached_guest two_entries
              H1 H2 H3) as [H _].
  rewrite H. by vm_compute.
Defined.

Lemma query_modes_only_print_witness :
  plain [prog; JSON] = false /\
  now (fst (run [prog; JSON] cached_guest)) = now cached_guest /\
  cache_file (fst (run [prog; JSON] cached_guest)) = cache_file cached_guest.
Proof.
  assert (plain [prog; JSON] = false) as H1 by (by vm_compute).
  split; [exact H1|].
  destruct (query_modes_only_print [prog; JSON] cached_guest H1)
    as (_ & Hnow & _ & _ & Hcache & _).
  split; [exact Hnow | exact Hcache].
Defined.

Lemma corrupt_cache_is_fatal_witness :
  cache_file corrupt_guest = Some NotJson /\
  load_error NotJson = Some JSONDecodeError /\
  (GET ∉ [prog; LIST]) /\
  run [prog; LIST] corrupt_guest = (corrupt_guest, Traceback JSONDecodeError).
Proof.
  assert (cache_file corrupt_guest = Some NotJson) as H1 by reflexivity.
  assert (load_error NotJson = Some JSONDecodeError) as H0 by reflexivity.
  assert (GET ∉ [prog; LIST]) as H2 by (apply (bool_decide_unpack _); by vm_compute).
  assert (LIST ∈ [prog; LIST]) as H3 by (apply (bool_decide_unpack _); by vm_compute).
  split; [exact H1|]. split; [exact H0|]. split; [exact H2|].
  destruct (corrupt_cache_is_fatal [prog; LIST] corrupt_guest NotJson
              JSONDecodeError H1 H0) as (_ & H & _).
  exact (H H2 (or_introl H3)).
Defined.

Lemma device_failure_yields_nothing_witness :
  wait_for_port 30 closed_port = (closed_port, Ok false) /\
  port_opens closed_port = false /\
  read_from_virtio 30 closed_port
  = (with_stderr closed_port [Reading; ErrorReading IOError], Ok []).
Proof.
  assert (wait_for_port 30 closed_port = (closed_port, Ok false)) as H1
    by (by vm_compute).
  assert (port_opens closed_port = false) as H2 by reflexivity.
  split; [exact H1|]. split; [exact H2|].
  destruct (device_failure_yields_nothing 30 closed_port closed_port H1) as [H _].
  exact (H H2).
Defined.

Lemma read_loop_buffers_in_order_witness :
  read_loop (read_steps delivering 30000) 30000 [] delivering
  = (with_device delivering 0 [], Ok frame_bytes) /\
  exists n,
    device (with_device delivering 0 []) = drop n (device delivering) /\
    frame_bytes = buffered [] (take n (device delivering)) /\
    (forall m, (m < n)%nat ->
       contains_bytes QUBESDB_FOOTER (buffered [] (take m (device delivering))) = false) /\
    (contains_bytes QUBESDB_FOOTER frame_bytes = true
     \/ (30000 <= now (with_device delivering 0 []))%Z).
Proof.
  assert (read_loop (read_steps delivering 30000) 30000 [] delivering
          = (with_device delivering 0 [], Ok frame_bytes)) as H1 by (by vm_compute).
  split; [exact H1|].
  exact (read_loop_buffers_in_order 30000 delivering _ _ H1).
Defined.

Lemma read_from_virtio_is_bounded_witness :
  (0 <= 30)%Z /\
  reads_within 0 (device delivering) /\
  (now delivering <= now (fst (read_from_virtio 30 delivering)))%Z /\
  (now (fst (read_from_virtio 30 delivering))
   <= now delivering + 2 * (30 * 1000) + Z.of_N 0 + 100)%Z.
Proof.
  assert (0 <= 30)%Z as H1 by lia.
  assert (reads_within 0 (device delivering)) as H2.
  { apply Forall_cons_2; [by vm_compute | apply Forall_nil_2]. }
  split; [exact H1|]. split; [exact H2|].
  exact (read_from_virtio_is_bounded 30 0 delivering H1 H2).
Defined.

Lemma wait_ends_when_endpoint_appears_witness :
  (Z.of_nat 2 <= 30)%Z /\
  appears_at_poll late_port 2 /\
  wait_for_port 30 late_port
  = (with_stderr (after_polls late_port 2) (stderr late_port ++ [Waiting]), Ok false) /\
  naps (with_stderr (after_polls late_port 2) (stderr late_port ++ [Waiting]))
  = naps late_port ++ repeat 1000%Z 2.
Proof.
  assert (Z.of_nat 2 <= 30)%Z as H1 by lia.
  assert (appears_at_poll late_port 2) as H2.
  { split; [|reflexivity].
    intros [|[|i]] Hi; [reflexivity | reflexivity | lia]. }
  split; [exact H1|]. split; [exact H2|].
  destruct (wait_ends_when_endpoint_appears 30 late_port 2 H1 H2) as (Hw & _ & Hn & _).
  split; [exact Hw | exact Hn].
Defined.

Lemma save_cache_stops_at_unwritable_name_witness :
  Forall nameable [(u "/name", u "work")] /\
  name_error (safe_key (u "/")) = Some IsADirectoryError /\
  plain [prog] = true /\
  read_from_virtio 30 mixed_keys
  = (with_device (with_stderr mixed_keys [Reading]) 0 [],
     Ok ([(u "/name", u "work")] ++ (u "/", u "x") :: [])) /\
  exit_status (snd (run [prog] mixed_keys)) = 1%Z.
Proof.
  assert (Forall nameable [(u "/name", u "work")]) as H1.
  { apply Forall_cons_2; [by vm_compute | apply Forall_nil_2]. }
  assert (name_error (safe_key (u "/")) = Some IsADirectoryError) as H2
    by (by vm_compute).
  assert (plain [prog] = true) as H3 by (by vm_compute).
  assert (read_from_virtio 30 mixed_keys
          = (with_device (with_stderr mixed_keys [Reading]) 0 [],
             Ok ([(u "/name", u "work")] ++ (u "/", u "x") :: []))) as H4
    by (by vm_compute).
  split; [exact H1|]. split; [exact H2|]. split; [exact H3|]. split; [exact H4|].
  destruct (save_cache_stops_at_unwritable_name [prog] [(u "/name", u "work")]
              (u "/") (u "x") [] IsADirectoryError mixed_keys _ H1 H2 H3 H4)
    as (_ & _ & H & _).
  exact H.
Defined.

Lemma fresh_read_is_reported_witness :
  plain [prog] = true /\
  read_from_virtio 30 delivering
  = (with_device (with_stderr delivering [Reading]) 0 [], Ok two_entries) /\
  two_entries <> [] /\
  Forall nameable two_entries /\
  stderr (fst (run [prog] delivering))
  = [Reading; Cached 2; Loaded 2;
     LoadedEntry (u "/memory") (u "4096"); LoadedEntry (u "/name") (u "work")].
Proof.
  assert (plain [prog] = true) as H1 by (by vm_compute).
  assert (read_from_virtio 30 delivering
          = (with_device (with_stderr delivering [Reading]) 0 [], Ok two_entries))
    as H2 by (by vm_compute).
  assert (two_entries <> []) as H3 by done.
  assert (Forall nameable two_entries) as H4.
  { apply Forall_cons_2; [by vm_compute|].
    apply Forall_cons_2; [by vm_compute | apply Forall_nil_2]. }
  split; [exact H1|]. split; [exact H2|]. split; [exact H3|]. split; [exact H4|].
  rewrite (fresh_read_is_reported [prog] delivering _ two_entries H1 H2 H3 H4).
  by vm_compute.
Defined.

Lemma empty_read_reports_cache_size_witness :
  plain [prog] = true /\
  read_from_virtio 30 cached_guest
  = (with_stderr (with_clock cached_guest 30000 (repeat 1000%Z 30))
       [Waiting; NotFoundAfter 30], Ok []) /\
  Load cached_guest = Ok two_entries /\
  two_entries <> [] /\
  stderr (fst (run [prog] cached_guest))
  = [Waiting; NotFoundAfter 30; UsingCached 2].
Proof.
  assert (plain [prog] = true) as H1 by (by vm_compute).
  assert (read_from_virtio 30 cached_guest
          = (with_stderr (with_clock cached_guest 30000 (repeat 1000%Z 30))
               [Waiting; NotFoundAfter 30], Ok [])) as H2 by (by vm_compute).
  assert (Load cached_guest = Ok two_entries) as H3 by reflexivity.
  assert (two_entries <> []) as H4 by done.
  split; [exact H1|]. split; [exact H2|]. split; [exact H3|]. split; [exact H4|].
  rewrite (empty_read_reports_cache_size [prog] cached_guest _ two_entries H1 H2 H3 H4).
  by vm_compute.
Defined.

Lemma json_dumps_the_cache_witness :
  (GET ∉ [prog; JSON]) /\
  (LIST ∉ [prog; JSON]) /\
  JSON ∈ [prog; JSON] /\
  Load cached_guest = Ok two_entries /\
  run [prog; JSON] cached_guest
  = (with_stdout cached_guest (stdout cached_guest ++ [JsonDump two_entries]), Returned).
Proof.
  assert (GET ∉ [prog; JSON]) as H1 by (apply (bool_decide_unpack _); by vm_compute).
  assert (LIST ∉ [prog; JSON]) as H2 by (apply (bool_decide_unpack _); by vm_compute).
  assert (JSON ∈ [prog; JSON]) as H3 by (apply (bool_decide_unpack _); by vm_compute).
  assert (Load cached_guest = Ok two_entries) as H4 by reflexivity.
  split; [exact H1|]. split; [exact H2|]. split; [exact H3|]. split; [exact H4|].
  exact (json_dumps_the_cache [prog; JSON] cached_guest two_entries H1 H2 H3 H4).
Defined.

Lemma nonpositive_timeout_reads_nothing_witness :
  (0 <= 0)%Z /\
  snd (read_from_virtio 0 delivering) = Ok [] /\
  device (fst (read_from_virtio 0 delivering)) = device delivering.
Proof.
  assert (0 <= 0)%Z as H1 by lia.
  split; [exact H1|].
  destruct (nonpositive_timeout_reads_nothing 0 delivering H1) as (Hr & _ & _ & Hd).
  split; [exact Hr | exact Hd].
Defined.

Lemma boot_run_keeps_stdout_witness :
  plain [prog] = true /\
  stdout (fst (run [prog] delivering)) = stdout delivering.
Proof.
  assert (plain [prog] = true) as H1 by (by vm_compute).
  split; [exact H1|].
  exact (boot_run_keeps_stdout [prog] delivering H1).
Defined.

End ReaderMore.

(** ** Further properties of the host side *)

Module InjectMore.

Import ReaderTerms Inject InjectSpec InjectTerms WireProofs InjectProofs.
Local Open Scope py_scope.

Lemma encode_char_encodable c :
  encodable c = true <-> exists bs, encode_char c = Some bs.
Proof.
  unfold encodable, encode_char.
  destruct (N.ltb_spec c 128), (N.ltb_spec c 2048), (N.ltb_spec c 65536),
    (N.ltb_spec c 1114112), (N.ltb_spec c 55296), (N.ltb_spec 57343 c),
    (N.leb_spec 55296 c), (N.leb_spec c 57343); simpl;
    try lia; split; try done; try (by eexists); intros [? [=]].
Qed.

Lemma utf8_encode_app s t :
  utf8_encode (s ++ t)
  = match utf8_encode s, utf8_encode t with
    | Some x, Some y => Some (x ++ y)
    | _, _ => None
    end.
Proof.
  induction s as [|c s IH]; simpl.
  - by destruct (utf8_encode t).
  - rewrite IH. destruct (encode_char c), (utf8_encode s), (utf8_encode t);
      try done. by rewrite app_assoc.
Qed.

Lemma utf8_encode_unencodable s c :
  c ∈ s -> encodable c = false -> utf8_encode s = None.
Proof.
  intros Hin Hc. induction Hin as [c s|c c' s _ IH]; simpl.
  - destruct (encode_char c) eqn:E; [|done].
    assert (encodable c = true) by (apply encode_char_encodable; by eexists).
    congruence.
  - rewrite IH by done. by destruct (encode_char c').
Qed.

Lemma elem_of_concat {A} (x : A) l ls : x ∈ l -> l ∈ ls -> x ∈ concat ls.
Proof.
  intros Hx Hl. induction Hl as [l ls|l l' ls _ IH]; simpl; apply elem_of_app.
  - by left.
  - right. by apply IH.
Qed.

Lemma render_unencodable entries k v c :
  (k, v) ∈ entries -> c ∈ k ++ v -> encodable c = false ->
  utf8_encode (render entries) = None.
Proof.
  intros Hin Hc He. apply (utf8_encode_unencodable _ c); [|done].
  unfold render. apply elem_of_app. right. apply elem_of_app. left.
  apply (elem_of_concat _ (render_entry (k, v))).
  - unfold render_entry. simpl. apply elem_of_app in Hc as [Hc|Hc].
    + apply elem_of_app. by left.
    + apply elem_of_app. right. apply elem_of_cons. right.
      apply elem_of_app. by left.
  - by apply list_elem_of_fmap_2.
Qed.

Lemma inject_unencodable sock_path entries h :
  utf8_encode (render entries) = None ->
  inject sock_path entries h
  = match socat h, connect h with
    | Some _, _ => (h, Raise UnicodeEncodeError)
    | None, None => (with_sock_closed h, Raise UnicodeEncodeError)
    | None, Some e =>
        (with_sock_closed (with_stderr h (stderr h ++ [socket_error_line sock_path e])),
         Ok false)
    end.
Proof.
  intros Henc. unfold inject, encode. rewrite Henc.
  destruct (socat h) as [r|]; [done|].
  unfold try_finally, try_except, bind at 1, sock_connect at 1.
  destruct (connect h) as [e|]; [|done].
  by destruct e.
Qed.

(** X17.  An entry with a code point that has no UTF-8 form (a lone
    surrogate) makes the Sender end in an exception it does not catch: with
    the relay, before the relay is run; without it, after the connection is
    made, and the socket is closed all the same.  Nothing is handed to the
    transport and nothing is printed.  Only when the connection itself fails
    is the failure reported as for any other dictionary, because the
    payload is encoded after the connection is made. *)
Theorem unencodable_entry_is_not_caught sock_path entries k v c h :
  (k, v) ∈ entries ->
  c ∈ k ++ v ->
  encodable c = false ->
  (forall r, socat h = Some r ->
     inject sock_path entries h = (h, Raise UnicodeEncodeError)) /\
  (socat h = None -> connect h = None ->
     inject sock_path entries h = (with_sock_closed h, Raise UnicodeEncodeError)) /\
  (forall e, socat h = None -> connect h = Some e ->
     inject sock_path entries h
     = (with_sock_closed
          (with_stderr h (stderr h ++ [socket_error_line sock_path e])),
        Ok false)) /\
  handed (fst (inject sock_path entries h)) = handed h /\
  stdout (fst (inject sock_path entries h)) = stdout h.
Proof.
  intros Hin Hc He.
  pose proof (inject_unencodable sock_path entries h
                (render_unencodable _ _ _ _ Hin Hc He)) as Hi.
  split_and!.
  - intros r Hr. by rewrite Hi, Hr.
  - intros Hs Hcn. by rewrite Hi, Hs, Hcn.
  - intros e Hs Hcn. by rewrite Hi, Hs, Hcn.
  - rewrite Hi. by destruct (socat h), (connect h).
  - rewrite Hi. by destruct (socat h), (connect h).
Qed.

Lemma inject_undecodable sock_path entries data h rc err :
  utf8_encode (render entries) = Some data ->
  socat h = Some (SocatExits rc err) ->
  rc <> 0%Z ->
  utf8_decode_strict err = None ->
  inject sock_path entries h
  = (with_handed h (handed h ++ [data]), Raise UnicodeDecodeError).
Proof.
  intros Henc Hs Hrc Herr. unfold inject, encode. rewrite Hs, Henc.
  unfold bind at 1, ret at 1. unfold bind at 1, subprocess_run at 1.
  apply Z.eqb_neq in Hrc. rewrite Hrc.
  unfold bind at 1, decode at 1. by rewrite Herr.
Qed.

(** X18.  When the relay fails and the error text it leaves is not
    well-formed UTF-8, the Sender reports nothing: decoding the text raises,
    the exception is not caught, and the process ends in a traceback after
    the payload was handed to the relay. *)
Theorem undecodable_relay_error_is_not_caught prog sock_path args data h rc err :
  utf8_encode (render (sourced_entries args h)) = Some data ->
  socat h = Some (SocatExits rc err) ->
  rc <> 0%Z ->
  utf8_decode_strict err = None ->
  inject sock_path (sourced_entries args h) h
  = (with_handed h (handed h ++ [data]), Raise UnicodeDecodeError) /\
  snd (main (prog :: sock_path :: args) h) = Raise UnicodeDecodeError /\
  stderr (fst (main (prog :: sock_path :: args) h)) = stderr h /\
  handed (fst (main (prog :: sock_path :: args) h)) = handed h ++ [data].
Proof.
  intros Henc Hs Hrc Herr.
  assert (forall h', socat h' = socat h -> handed h' = handed h ->
            inject sock_path (sourced_entries args h) h'
            = (with_handed h' (handed h' ++ [data]), Raise UnicodeDecodeError)) as Hi.
  { intros h' Hs' Hh'. apply (inject_undecodable _ _ _ _ rc err); try done.
    by rewrite Hs'. }
  split; [by apply Hi|].
  rewrite main_sources. unfold bind at 1. unfold bind at 1. unfold bind at 1.
  destruct (truthy (merged_entries args h)).
  - rewrite Hi by done. by destruct h.
  - rewrite Hi by (by destruct h). by destruct h.
Qed.




(** *** The dictionary of the Sender *)

Lemma keys_add_entry x entries text :
  x ∈ keys (add_entry entries text) -> x ∈ keys entries \/ EQUALS ∉ x.
Proof.
  unfold add_entry. destruct (contains_char EQUALS text) eqn:E; [|by left].
  apply contains_char_spec in E.
  destruct (split_first_inv _ _ E) as (k & v & _ & Hk & ->).
  intros [->|H]%ReaderMore.elem_of_keys_dict_set; [by right | by left].
Qed.

Lemma NoDup_keys_add_entry entries text :
  NoDup (keys entries) -> NoDup (keys (add_entry entries text)).
Proof.
  intros H. unfold add_entry. destruct (contains_char _ _); [|done].
  destruct (split_first _ _). by apply ReaderMore.NoDup_keys_dict_set.
Qed.

Lemma fold_add_entry_keys {A} (f : A -> str) (texts : list A) : forall entries,
  NoDup (keys entries) ->
  Forall (fun k => EQUALS ∉ k) (keys entries) ->
  NoDup (keys (fold_left (fun entries x => add_entry entries (f x)) texts entries)) /\
  Forall (fun k => EQUALS ∉ k)
    (keys (fold_left (fun entries x => add_entry entries (f x)) texts entries)).
Proof.
  induction texts as [|x texts IH]; intros entries Hnd Hk; [done|].
  cbn [fold_left]. apply IH; [by apply NoDup_keys_add_entry|].
  apply Forall_forall. intros k [Hin|Hne]%keys_add_entry; [|done].
  rewrite Forall_forall in Hk. by apply Hk.
Qed.

Lemma merged_entries_keys args h :
  NoDup (keys (merged_entries args h)) /\
  Forall (fun k => EQUALS ∉ k) (keys (merged_entries args h)).
Proof.
  unfold merged_entries, from_stream, from_args.
  destruct (fold_add_entry_keys (fun a => a) args []) as [Hnd Hk];
    [constructor | constructor |].
  destruct (stdin h) as [lines|]; [|done].
  by apply (fold_add_entry_keys strip lines).
Qed.

Lemma default_entries_keys h :
  NoDup (keys (default_entries h)) /\
  Forall (fun k => EQUALS ∉ k) (keys (default_entries h)).
Proof.
  split.
  - apply (bool_decide_unpack _). by vm_compute.
  - apply (bool_decide_unpack _). by vm_compute.
Qed.

Lemma from_args_other args : forall entries k,
  (forall a v, a ∈ args -> a <> k ++ EQUALS :: v) ->
  dict_get k (fold_left add_entry args entries) = dict_get k entries.
Proof.
  induction args as [|a args IH]; intros entries k Hne; [done|].
  cbn [fold_left]. rewrite IH.
  - apply add_entry_other. intros v. apply Hne. by left.
  - intros a' v Hin. apply Hne. by right.
Qed.

(** X20.  What [main] hands to [inject] is a dictionary that is never
    empty, whose keys are distinct and have no equals sign.  When the input
    stream is a terminal, the last argument that assigns to a key decides
    its value. *)
Theorem sender_entries_are_keyed args h :
  sourced_entries args h <> [] /\
  NoDup (keys (sourced_entries args h)) /\
  Forall (fun k => EQUALS ∉ k) (keys (sourced_entries args h)) /\
  (forall before k v after,
     stdin h = None ->
     args = before ++ (k ++ EQUALS :: v) :: after ->
     EQUALS ∉ k ->
     (forall a v', a ∈ after -> a <> k ++ EQUALS :: v') ->
     dict_get k (sourced_entries args h) = Some v).
Proof.
  unfold sourced_entries. split_and!.
  - by destruct (merged_entries args h).
  - destruct (truthy _); [apply merged_entries_keys | apply default_entries_keys].
  - destruct (truthy _); [apply merged_entries_keys | apply default_entries_keys].
  - intros before k v after Hin -> Hk Hafter.
    assert (dict_get k (merged_entries (before ++ (k ++ EQUALS :: v) :: after) h)
            = Some v) as Hget.
    { unfold merged_entries, from_args. rewrite Hin, fold_left_app.
      cbn [fold_left]. rewrite from_args_other by done.
      rewrite (add_entry_pair _ _ k v) by done. apply dict_get_set_eq. }
    by rewrite (dict_get_truthy _ _ _ Hget).
Qed.

(** *** The default entries *)





(** *** What follows the footer *)

Lemma utf8_decode_encode_app s bs rest :
  utf8_encode s = Some bs -> utf8_decode (bs ++ rest) = s ++ utf8_decode rest.
Proof.
  revert bs. induction s as [|c s IH]; intros bs; simpl.
  - by intros [= <-].
  - destruct (encode_char c) as [cs|] eqn:Ec; [|done].
    destruct (utf8_encode s) as [bs'|]; [|done]. intros [= <-].
    rewrite <- app_assoc, (decode_encode_char _ _ _ Ec). by rewrite (IH bs').
Qed.

Lemma splitlines_render_more d extra :
  Forall wire_entry d ->
  splitlines (render d ++ extra)
  = Reader.HEADER_TEXT :: map entry_line d
    ++ [] :: Reader.FOOTER_TEXT :: splitlines extra.
Proof.
  intros Hd. unfold splitlines, render.
  rewrite header_text_decodes, footer_text_decodes, <- !app_assoc.
  cbn [app].
  rewrite splitlines_from_line by (by vm_compute; repeat constructor).
  cbn [app]. f_equal. rewrite splitlines_from_entries by done. f_equal.
  rewrite <- app_assoc. cbn [app].
  change (splitlines_from [] (LF :: ?r)) with (splitlines_from [] ([] ++ LF :: r)).
  rewrite splitlines_from_line by constructor. cbn [app]. f_equal.
  by rewrite splitlines_from_line by (by vm_compute; repeat constructor).
Qed.

(** X22.  The footer does not end the frame for the parser: text that
    follows it in the buffer is parsed like the lines before it, on top of
    the entries of the frame, so that a later line with the key of an entry
    replaces its value. *)
Theorem text_after_footer_is_parsed d data more :
  Forall wire_entry d ->
  utf8_encode (render d) = Some data ->
  Reader.parse_text (render d ++ utf8_decode more)
  = fold_left Reader.parse_line (splitlines (utf8_decode more)) (fold_left assign d []) /\
  Reader.parse_data (data ++ more)
  = fold_left Reader.parse_line (splitlines (utf8_decode more)) (fold_left assign d []) /\
  (forall kv, wire_entry kv ->
     Reader.parse_text (render d ++ render_entry kv)
     = Reader.parse_text (render (d ++ [kv]))).
Proof.
  intros Hd Henc.
  assert (forall extra,
            Reader.parse_text (render d ++ extra)
            = fold_left Reader.parse_line (splitlines extra) (fold_left assign d []))
    as Htext.
  { intros extra. unfold Reader.parse_text.
    rewrite splitlines_render_more by done.
    cbn [fold_left]. rewrite fold_left_app. cbn [fold_left].
    rewrite (parse_line_skip [] Reader.HEADER_TEXT) by (right; left; reflexivity).
    rewrite fold_parse_entry_lines by done.
    rewrite (parse_line_skip _ []) by (left; reflexivity).
    by rewrite (parse_line_skip _ Reader.FOOTER_TEXT) by (right; right; reflexivity). }
  split_and!.
  - apply Htext.
  - unfold Reader.parse_data.
    rewrite (utf8_decode_encode_app _ _ _ Henc). apply Htext.
  - intros kv Hkv. rewrite Htext.
    rewrite parse_render_items by (apply Forall_app; split; [done|by constructor]).
    rewrite fold_left_app. cbn [fold_left].
    assert (render_entry kv = entry_line kv ++ [LF]) as ->.
    { unfold render_entry, entry_line. by rewrite <- !app_assoc. }
    unfold splitlines.
    rewrite splitlines_from_line by (by apply entry_line_no_linebreak).
    cbn [app splitlines_from fold_left]. by apply parse_entry_line.
Qed.

(** *** Instances *)

Lemma unencodable_entry_is_not_caught_witness :
  (u "/name", [55357]) ∈ surrogate_entry /\
  55357 ∈ u "/name" ++ [55357] /\
  encodable 55357 = false /\
  inject sock surrogate_entry listening
  = (with_sock_closed listening, Raise UnicodeEncodeError).
Proof.
  assert ((u "/name", [55357]) ∈ surrogate_entry) as H1
    by (apply (bool_decide_unpack _); by vm_compute).
  assert (55357 ∈ u "/name" ++ [55357]) as H2
    by (apply (bool_decide_unpack _); by vm_compute).
  assert (encodable 55357 = false) as H3 by reflexivity.
  split; [exact H1|]. split; [exact H2|]. split; [exact H3|].
  destruct (unencodable_entry_is_not_caught sock surrogate_entry (u "/name") [55357]
              55357 listening H1 H2 H3) as (_ & H & _).
  exact (H eq_refl eq_refl).
Defined.

Lemma undecodable_relay_error_is_not_caught_witness :
  utf8_encode (render (sourced_entries [u "/name=work"] garbled_relay))
  = Some (QUBESDB_HEADER ++ b "/name=work" ++ [Byte.x0a] ++ QUBESDB_FOOTER) /\
  socat garbled_relay = Some (SocatExits 1 [Byte.xff]) /\
  1%Z <> 0%Z /\
  utf8_decode_strict [Byte.xff] = None /\
  snd (main [u "inject"; sock; u "/name=work"] garbled_relay) = Raise UnicodeDecodeError.
Proof.
  assert (utf8_encode (render (sourced_entries [u "/name=work"] garbled_relay))
          = Some (QUBESDB_HEADER ++ b "/name=work" ++ [Byte.x0a] ++ QUBESDB_FOOTER))
    as H1 by (by vm_compute).
  assert (socat garbled_relay = Some (SocatExits 1 [Byte.xff])) as H2 by reflexivity.
  assert (1%Z <> 0%Z) as H3 by lia.
  assert (utf8_decode_strict [Byte.xff] = None) as H4 by (by vm_compute).
  split; [exact H1|]. split; [exact H2|]. split; [exact H3|]. split; [exact H4|].
  destruct (undecodable_relay_error_is_not_caught (u "inject") sock [u "/name=work"]
              _ garbled_relay 1 [Byte.xff] H1 H2 H3 H4) as (_ & H & _).
  exact H.
Defined.


Lemma text_after_footer_is_parsed_witness :
  Forall wire_entry two_entries /\
  utf8_encode (render two_entries) = Some frame_bytes /\
  Reader.parse_data (frame_bytes ++ late_line)
  = fold_left Reader.parse_line (splitlines (utf8_decode late_line))
      (fold_left assign two_entries []) /\
  Reader.parse_data (frame_bytes ++ late_line)
  = [(u "/name", u "late"); (u "/memory", u "4096")].
Proof.
  assert (Forall wire_entry two_entries) as H1.
  { apply Forall_cons_2; [apply wire_entry_ascii; by vm_compute|].
    apply Forall_cons_2; [apply wire_entry_ascii; by vm_compute|].
    apply Forall_nil_2. }
  assert (utf8_encode (render two_entries) = Some frame_bytes) as H2 by (by vm_compute).
  split; [exact H1|]. split; [exact H2|]. split; [|by vm_compute].
  destruct (text_after_footer_is_parsed two_entries frame_bytes late_line H1 H2)
    as (_ & H & _).
  exact H.
Defined.

End InjectMore.

(** ** Both sides together *)

Module EndToEnd.

Import Reader ReaderSpec ReaderTerms InjectTerms WireProofs ReaderProofs.
Import ReaderMore InjectMore.
Local Open Scope py_scope.

(** *** From the Sender to the cache of the guest *)

Lemma starts_with_app p l : starts_with p (p ++ l) = true.
Proof.
  induction p as [|x p IH]; simpl; [done|].
  by rewrite (Byte.byte_dec_lb (eq_refl x)), IH.
Qed.

Lemma contains_bytes_suffix needle pre :
  contains_bytes needle (pre ++ needle) = true.
Proof.
  induction pre as [|x pre IH].
  - pose proof (starts_with_app needle []) as H. rewrite app_nil_r in H.
    cbn [app]. destruct needle; [done|].
    cbn [contains_bytes]. by rewrite H.
  - cbn [app contains_bytes]. rewrite IH. apply orb_true_r.
Qed.

Lemma rendered_frame_ends_with_footer entries data :
  utf8_encode (Inject.render entries) = Some data ->
  exists pre, data = pre ++ QUBESDB_FOOTER.
Proof.
  unfold Inject.render. rewrite app_assoc, utf8_encode_app.
  destruct (utf8_encode (_ ++ _)) as [pre|]; [|done].
  assert (utf8_encode (utf8_decode QUBESDB_FOOTER) = Some QUBESDB_FOOTER) as ->
    by reflexivity.
  intros [= <-]. by exists pre.
Qed.

Lemma read_loop_one_chunk w delay data rest deadline :
  (now w < deadline)%Z ->
  device w = ReadChunk delay data :: rest ->
  contains_bytes QUBESDB_FOOTER data = true ->
  read_loop (read_steps w deadline) deadline [] w
  = (with_device w (now w + Z.of_N delay)%Z rest, Ok data).
Proof.
  intros Hlt Hdev Hf. unfold read_steps. rewrite Hdev. cbn [length Nat.add].
  cbn [read_loop]. unfold bind at 1, time_time at 1.
  apply Z.ltb_lt in Hlt. rewrite Hlt.
  unfold bind at 1, f_read at 1. rewrite Hdev.
  destruct data as [|x data]; [done|].
  cbn [app]. by rewrite Hf.
Qed.

Lemma dict_get_elem_of k v (d : dict) : dict_get k d = Some v -> exists k', (k', v) ∈ d.
Proof.
  induction d as [|[k' v'] d IH]; [done|]. cbn [dict_get].
  destruct (str_eqb k' k).
  - intros [= ->]. exists k'. by left.
  - intros [k'' H]%IH. exists k''. by right.
Qed.

(** X23.  End to end: when the guest reads, in one chunk, the payload the
    Sender hands to the transport for a dictionary that survives the wire,
    the read returns exactly that dictionary without waiting for the
    deadline; the run caches it and returns; and a later [--get] of any of
    its keys prints the value the Sender was given. *)
Theorem delivered_frame_is_cached argv sock_path entries data h delay rest w :
  NoDup (keys entries) ->
  Forall wire_entry entries ->
  Forall nameable entries ->
  entries <> [] ->
  utf8_encode (Inject.render entries) = Some data ->
  InjectSpec.delivered h = true ->
  plain argv = true ->
  port_exists_at w (now w) = true ->
  port_opens w = true ->
  device w = ReadChunk delay data :: rest ->
  let w1 := with_device (with_stderr w (stderr w ++ [Reading]))
              (now w + Z.of_N delay)%Z rest in
  Inject.handed (fst (Inject.inject sock_path entries h))
  = Inject.handed h ++ [data] /\
  read_from_virtio 30 w = (w1, Ok entries) /\
  snd (run argv w) = Returned /\
  Load (fst (run argv w)) = Ok entries /\
  (forall pre k v post,
     GET ∉ pre -> dict_get k entries = Some v ->
     let w2 := fst (run argv w) in
     run (pre ++ GET :: k :: post) w2
     = (with_stdout w2 (stdout w2 ++ [Value v]), Returned)).
Proof.
  intros Hnd Hwire Hname Hne Henc Hdel Hplain Hport Hopen Hdev w1.
  assert (read_from_virtio 30 w = (w1, Ok entries)) as Hread.
  { assert (wait_for_port 30 w = (w, Ok false)) as Hwait.
    { unfold wait_for_port, bind at 1, port_exists at 1. by rewrite Hport. }
    rewrite (read_from_virtio_found _ _ _ Hwait).
    assert (parse_data data = entries) as Hparse.
    { unfold parse_data. rewrite (utf8_decode_encode _ _ Henc).
      by apply parse_render. }
    rewrite <- Hparse. apply read_port_spec; [done|].
    destruct (rendered_frame_ends_with_footer _ _ Henc) as [pre Hpre].
    apply (read_loop_one_chunk (with_stderr w (stderr w ++ [Reading])) delay data rest).
    - destruct w; simpl; lia.
    - by destruct w.
    - rewrite Hpre. apply contains_bytes_suffix. }
  destruct (fresh_read_run argv w w1 entries Hplain Hread Hne Hname) as [Hret Hc].
  assert (Load (fst (run argv w)) = Ok entries) as Hload.
  { unfold cache_of in Hc. apply pair_equal_spec in Hc as [Hc _].
    unfold Load, load_cache. by rewrite Hc, save_cache_aggregate. }
  split_and!.
  - assert (InjectSpec.relay_error_decodes h = true) as Hdec.
    { unfold InjectSpec.relay_error_decodes, InjectSpec.delivered in *.
      destruct (Inject.socat h) as [[rc err|]|]; [|done|done].
      by rewrite Hdel. }
    rewrite (InjectProofs.inject_spec _ _ _ _ Henc Hdec).
    unfold InjectSpec.after_attempt. rewrite Hdel.
    by destruct (Inject.socat h), h.
  - exact Hread.
  - exact Hret.
  - exact Hload.
  - intros pre k v post Hpre Hget w2. subst w2. unfold run at 1.
    rewrite (main_get _ _ _ Hpre). unfold bind at 1.
    rewrite (load_cache_Load _ _ Hload), Hget.
    assert (plain_text v) as Hv.
    { destruct (dict_get_elem_of _ _ _ Hget) as [k' Hin].
      pose proof (read_from_virtio_plain _ _ _ _ Hread) as Hp.
      rewrite Forall_forall in Hp. by destruct (Hp _ Hin). }
    by rewrite print_out_printable, (printable_plain _ (Value v)).
Qed.

Lemma delivered_frame_is_cached_witness :
  NoDup (keys two_entries) /\
  Forall wire_entry two_entries /\
  Forall nameable two_entries /\
  two_entries <> [] /\
  utf8_encode (Inject.render two_entries) = Some frame_bytes /\
  InjectSpec.delivered listening = true /\
  plain [prog] = true /\
  port_exists_at delivering (now delivering) = true /\
  port_opens delivering = true /\
  device delivering = ReadChunk 0 frame_bytes :: [] /\
  Inject.handed (fst (Inject.inject InjectSpec.sock two_entries listening))
  = Inject.handed listening ++ [frame_bytes] /\
  Load (fst (run [prog] delivering)) = Ok two_entries.
Proof.
  assert (NoDup (keys two_entries)) as H1
    by (apply (bool_decide_unpack _); by vm_compute).
  assert (Forall wire_entry two_entries) as H2.
  { apply Forall_cons_2; [apply wire_entry_ascii; by vm_compute|].
    apply Forall_cons_2; [apply wire_entry_ascii; by vm_compute|].
    apply Forall_nil_2. }
  assert (Forall nameable two_entries) as H3.
  { apply Forall_cons_2; [by vm_compute|].
    apply Forall_cons_2; [by vm_compute | apply Forall_nil_2]. }
  assert (two_entries <> []) as H4 by done.
  assert (utf8_encode (Inject.render two_entries) = Some frame_bytes) as H5
    by (by vm_compute).
  assert (InjectSpec.delivered listening = true) as H6 by reflexivity.
  assert (plain [prog] = true) as H7 by (by vm_compute).
  assert (port_exists_at delivering (now delivering) = true) as H8 by reflexivity.
  assert (port_opens delivering = true) as H9 by reflexivity.
  assert (device delivering = ReadChunk 0 frame_bytes :: []) as H10 by reflexivity.
  split; [exact H1|]. split; [exact H2|]. split; [exact H3|]. split; [exact H4|].
  split; [exact H5|]. split; [exact H6|]. split; [exact H7|]. split; [exact H8|].
  split; [exact H9|]. split; [exact H10|].
  destruct (delivered_frame_is_cached [prog] InjectSpec.sock two_entries frame_bytes
              listening 0 [] delivering H1 H2 H3 H4 H5 H6 H7 H8 H9 H10)
    as (Hh & _ & _ & Hl & _).
  split; [exact Hh | exact Hl].
Defined.

End EndToEnd.
